(** * svelte-transition: the coordination protocol of [<Transition>]

    The repository holds three generations of the component:
    - the first script of [src/lib/Transition.svelte] (module [Legacy]),
    - the second script of [src/lib/Transition.svelte] (module [Slots]),
    - the Svelte 5 script with runes, [$props] and [$state] (module [Runes]).

    The three share [classes], [transitionEnd], the counting closure of
    [childrenCompleted] and the class mutations; they differ in the order
    of the statements of [apply], in [execute] and in [update].  An async
    function is embedded as the list of its statements; an activation is
    a running copy of [enter] or [leave] that is suspended at one of its
    [await]s.  One component instance is a state machine driven by the
    host: property updates, animation frames, [transitionend] events,
    microtasks, and the calls of its parent and child transitions. *)

From Stdlib Require Import ZArith Lia Bool Ascii String.
From stdpp Require Import base list strings.

Local Open Scope string_scope.
Local Open Scope Z_scope.
Local Open Scope list_scope.

(** ** Class strings *)

(** [String.prototype.split] with a one-character separator: every
    occurrence of the separator ends a token, so the empty string gives
    one empty token. *)
Fixpoint split (sep : ascii) (s : string) : list string :=
  match s with
  | EmptyString => [EmptyString]
  | String c r =>
      if Ascii.eqb c sep then EmptyString :: split sep r
      else match split sep r with
           | [] => [String c EmptyString]
           | w :: ws => String c w :: ws
           end
  end.

(** Truthiness of a JavaScript string: every string but the empty one. *)
Definition truthy (s : string) : bool := negb (String.eqb s "").

(** [classes ? classes.split(' ').filter(x => x) : []] *)
Definition classes (s : string) : list string :=
  if truthy s then List.filter truthy (split " " s) else [].

(** The inputs of the component.  [None] is JavaScript's [null]. *)
Record Props := {
  p_show : option bool;
  p_appear : bool;
  p_unmount : bool;
  p_enter : string;
  p_enterFrom : string;
  p_enterTo : string;
  p_leave : option string;
  p_leaveFrom : option string;
  p_leaveTo : option string
}.

Definition enterClasses (ps : Props) : list string := classes (p_enter ps).
Definition enterFromClasses (ps : Props) : list string := classes (p_enterFrom ps).
Definition enterToClasses (ps : Props) : list string := classes (p_enterTo ps).

(** [x === null ? d : x] *)
Definition or_default (x : option string) (d : string) : string :=
  match x with None => d | Some v => v end.

Definition leaveClasses (ps : Props) : list string :=
  classes (or_default (p_leave ps) (p_enter ps)).
Definition leaveFromClasses (ps : Props) : list string :=
  classes (or_default (p_leaveFrom ps) (p_enterTo ps)).
Definition leaveToClasses (ps : Props) : list string :=
  classes (or_default (p_leaveTo ps) (p_enterFrom ps)).

(** ** The element: class list and [transitionend] listeners *)

Definition mem (x : string) (l : list string) : bool :=
  existsb (String.eqb x) l.

(** [el.classList.add(...names)]: a token that is present is not added
    again. *)
Fixpoint addClasses (names : list string) (cl : list string) : list string :=
  match names with
  | [] => cl
  | x :: r => addClasses r (if mem x cl then cl else cl ++ [x])
  end.

(** [el.classList.remove(...names)] *)
Definition removeClasses (names : list string) (cl : list string) : list string :=
  List.filter (fun x => negb (mem x names)) cl.

(** What a listener body does: [e.stopPropagation()], and [resolve()] of
    the [transitioned] promise of an activation. *)
Inductive haction :=
| StopPropagation
| Resolve (a : nat).

Record listener := {
  l_once : bool;
  l_body : list haction
}.

(** A promise local to [transitionEnd]: [Promise.resolve()] or a promise
    that a listener resolves. *)
Inductive settled := Fulfilled | Pending.

(** [transitionEnd(transitions)] for activation [a]: the listeners of
    [el] afterwards and the state of the promise returned. *)
Definition transitionEnd (a : nat) (transitions : list string)
    (ls : list listener) : list listener * settled :=
  match transitions with
  | [] => (ls, Fulfilled)
  | _ :: _ =>
      (ls ++ [ {| l_once := true; l_body := [StopPropagation; Resolve a] |} ],
       Pending)
  end.

(** One [transitionend] event at one element: every listener of the
    element runs, in the order of registration; a [once] listener is
    removed.  The result is the listeners left, the actions performed,
    and whether a listener stopped the propagation. *)
Definition deliver (ls : list listener) : list listener * list haction * bool :=
  let performed := List.concat (List.map l_body ls) in
  (List.filter (fun l => negb (l_once l)) ls,
   performed,
   existsb (fun h => match h with StopPropagation => true | _ => false end)
           performed).

(** The event bubbles: it is delivered at the target, then at each
    ancestor in turn, unless a listener has stopped the propagation.
    [path] lists the listeners of the target and of its ancestors,
    innermost first. *)
Fixpoint bubble (path : list (list listener))
  : list (list listener) * list haction :=
  match path with
  | [] => ([], [])
  | ls :: up =>
      let '(ls', performed, stopped) := deliver ls in
      if stopped then (ls' :: up, performed)
      else let '(up', more) := bubble up in (ls' :: up', performed ++ more)
  end.

(** ** The context and its completion gate *)

(** [context.completed]: the function of the initial context (it counts
    nothing), or the closure installed by [childrenCompleted]. *)
Inductive completed_fn :=
| Default
| Closure (g : nat).

Record Context := {
  c_appear : bool;
  c_show : option bool;
  c_count : Z;
  c_completed : completed_fn
}.

(** The closure of [childrenCompleted]: its captured counter, the
    activation whose [resolve] it holds, the state of the promise, and
    how often [resolve()] was called. *)
Record gate := {
  g_owner : nat;
  g_count : Z;
  g_resolved : bool;
  g_fired : nat
}.

(** The promise returned by [childrenCompleted]. *)
Inductive promise :=
| Unassigned
| Immediate
| OfGate (g : nat).

Definition with_completed (f : completed_fn) (c : Context) : Context :=
  {| c_appear := c_appear c; c_show := c_show c; c_count := c_count c;
     c_completed := f |}.

Definition with_count (n : Z) (c : Context) : Context :=
  {| c_appear := c_appear c; c_show := c_show c; c_count := n;
     c_completed := c_completed c |}.

Definition with_show (v : option bool) (c : Context) : Context :=
  {| c_appear := c_appear c; c_show := v; c_count := c_count c;
     c_completed := c_completed c |}.

(** The closure as [childrenCompleted] makes it: [let count = 0]. *)
Definition fresh_gate (a : nat) : gate :=
  {| g_owner := a; g_count := 0; g_resolved := false; g_fired := 0 |}.

(** [childrenCompleted] called by activation [a]:
    [context.count ? new Promise(resolve => { let count = 0;
       context.completed = () => ... }) : Promise.resolve()] *)
Definition childrenCompleted (a : nat) (c : Context) (gs : list gate)
  : Context * list gate * promise :=
  if c_count c =? 0 then (c, gs, Immediate)
  else (with_completed (Closure (length gs)) c,
        gs ++ [fresh_gate a],
        OfGate (length gs)).

(** One call of the closure: [if (++count === context.count) resolve()].
    The count on the right is read from the context at the time of the
    call.  The first script wraps the test in a promise of its own and
    chains the [resolve] of the gate on it with [then]; the call that
    hits the count is the same, the gate being resolved a microtask
    later. *)
Definition arrive (c : Context) (gt : gate) : gate :=
  let n := g_count gt + 1 in
  let hit := n =? c_count c in
  {| g_owner := g_owner gt;
     g_count := n;
     g_resolved := g_resolved gt || hit;
     g_fired := if hit then S (g_fired gt) else g_fired gt |}.

(** [context.completed()] *)
Definition completed (c : Context) (gs : list gate) : list gate :=
  match c_completed c with
  | Default => gs
  | Closure g => alter (arrive c) g gs
  end.

Definition resolved (gs : list gate) (p : promise) : bool :=
  match p with
  | Unassigned => false
  | Immediate => true
  | OfGate g => match gs !! g with Some gt => g_resolved gt | None => false end
  end.

(** [set] of svelte's [writable]: the subscribers are told only of a
    value that differs from the stored one. *)
Definition set (v : option bool) (c : Context) : Context * bool :=
  if decide (c_show c = v) then (c, false) else (with_show v c, true).

(** ** Async functions as statement lists *)

Inductive signal := BeforeEnter | AfterEnter | BeforeLeave | AfterLeave.

(** The three class lists that [apply] is called with. *)
Inductive role := Base | From | To.

Inductive instr :=
| Dispatch (s : signal)           (* dispatch('before-enter') ... *)
| ElDisplay (v : string)          (* el.style.display = v *)
| ElVisibility (v : string)       (* el.style.visibility = v *)
| WrapperShow (b : bool)          (* display = 'contents' / 'none';
                                     node.classList.toggle('show', b) *)
| EnsureMounted (strict : bool)   (* el = await ensureMountedElement(); the
                                     test is [mounted === false] when [strict],
                                     [!mounted] otherwise *)
| NewCompleted                    (* const completed = new Promise(...) *)
| ChildrenCompleted               (* childrenCompleted(...) *)
| SetShow (b : bool)              (* set(show) *)
| AddClasses (rs : list role)     (* addClasses(...) *)
| RemoveClasses (rs : list role)  (* removeClasses(...) *)
| TransitionEnd                   (* transitioned = transitionEnd(base) *)
| AwaitNextFrame                  (* await nextFrame() *)
| AwaitTransitioned               (* await transitioned *)
| AwaitChildren                   (* await completed, the promise of
                                     childrenCompleted() *)
| AwaitAll                        (* await Promise.all([transitioned, children]) *)
| AwaitParent                     (* if (parent) await parent.completed() *)
| ResolveCompleted                (* resolveCompleted() *)
| Unmount                         (* if (unmount) mounted = false *)
| AwaitApply.                     (* the await of apply(...) in enter and leave *)

Global Instance signal_eq_dec : EqDecision signal.
Proof. solve_decision. Defined.

Global Instance role_eq_dec : EqDecision role.
Proof. solve_decision. Defined.

Global Instance instr_eq_dec : EqDecision instr.
Proof. solve_decision. Defined.

(** A running copy of [enter] or [leave]. *)
Record activation := {
  a_show : bool;                  (* the [show] handed to [apply] *)
  a_base : list string;
  a_from : list string;
  a_to : list string;
  a_done : list instr;            (* statements completed, oldest first *)
  a_wait : option instr;          (* the [await] it is suspended at *)
  a_rest : list instr;            (* statements after that [await] *)
  a_frame : bool;                 (* the promise of nextFrame() *)
  a_transitioned : option bool;   (* the promise of transitionEnd(base) *)
  a_children : promise;           (* the promise of childrenCompleted() *)
  a_parent : bool;                (* the promise got from parent.completed() *)
  a_completed : bool;             (* the promise [completed] of apply *)
  a_el : bool;                    (* what ensureMountedElement() returns:
                                     an element, or null *)
  a_failed : bool                 (* a statement threw: the promise of the
                                     activation is rejected *)
}.

(** What the activation did, as the host and the neighbours see it. *)
Inductive entry :=
| Did (a : nat) (i : instr)       (* the statement was executed *)
| Resumed (a : nat) (i : instr)   (* the await was left *)
| Threw (a : nat) (i : instr)     (* the statement threw *)
| Notified (v : option bool)      (* the store told its subscribers *)
| Reported (a : nat).             (* parent.completed() was called *)

Record state := {
  context : Context;
  gates : list gate;
  wrapper : bool;                 (* the wrapper is display: contents *)
  el_display : string;
  el_visibility : string;
  mounted : option bool;          (* [mounted]; the child content is rendered
                                     when it is [true] *)
  el : bool;                      (* [el] refers to an element *)
  run : bool;                     (* [run]; [initialized] in the first script *)
  executing : option nat;         (* [executing]: an activation, or a
                                     promise that is resolved already *)
  thens : list (option nat * option bool);
                                  (* callbacks of executing.then(...) *)
  classList : list string;
  listeners : list listener;
  acts : list activation;
  log : list entry
}.

Definition class_names (x : activation) (r : role) : list string :=
  match r with Base => a_base x | From => a_from x | To => a_to x end.

Definition names_of (x : activation) (rs : list role) : list string :=
  List.concat (List.map (class_names x) rs).

(** *** Field updates *)

Definition st_context (f : Context -> Context) (s : state) : state :=
  {| context := f (context s); gates := gates s; wrapper := wrapper s;
     el_display := el_display s; el_visibility := el_visibility s;
     mounted := mounted s; el := el s; run := run s; executing := executing s;
     thens := thens s; classList := classList s; listeners := listeners s;
     acts := acts s; log := log s |}.

Definition st_gates (f : list gate -> list gate) (s : state) : state :=
  {| context := context s; gates := f (gates s); wrapper := wrapper s;
     el_display := el_display s; el_visibility := el_visibility s;
     mounted := mounted s; el := el s; run := run s; executing := executing s;
     thens := thens s; classList := classList s; listeners := listeners s;
     acts := acts s; log := log s |}.

Definition st_wrapper (b : bool) (s : state) : state :=
  {| context := context s; gates := gates s; wrapper := b;
     el_display := el_display s; el_visibility := el_visibility s;
     mounted := mounted s; el := el s; run := run s; executing := executing s;
     thens := thens s; classList := classList s; listeners := listeners s;
     acts := acts s; log := log s |}.

Definition st_el_display (v : string) (s : state) : state :=
  {| context := context s; gates := gates s; wrapper := wrapper s;
     el_display := v; el_visibility := el_visibility s;
     mounted := mounted s; el := el s; run := run s; executing := executing s;
     thens := thens s; classList := classList s; listeners := listeners s;
     acts := acts s; log := log s |}.

Definition st_el_visibility (v : string) (s : state) : state :=
  {| context := context s; gates := gates s; wrapper := wrapper s;
     el_display := el_display s; el_visibility := v;
     mounted := mounted s; el := el s; run := run s; executing := executing s;
     thens := thens s; classList := classList s; listeners := listeners s;
     acts := acts s; log := log s |}.

Definition st_mounted (b : option bool) (s : state) : state :=
  {| context := context s; gates := gates s; wrapper := wrapper s;
     el_display := el_display s; el_visibility := el_visibility s;
     mounted := b; el := el s; run := run s; executing := executing s;
     thens := thens s; classList := classList s; listeners := listeners s;
     acts := acts s; log := log s |}.

Definition st_run (b : bool) (s : state) : state :=
  {| context := context s; gates := gates s; wrapper := wrapper s;
     el_display := el_display s; el_visibility := el_visibility s;
     mounted := mounted s; el := el s; run := b; executing := executing s;
     thens := thens s; classList := classList s; listeners := listeners s;
     acts := acts s; log := log s |}.

Definition st_executing (e : option nat) (s : state) : state :=
  {| context := context s; gates := gates s; wrapper := wrapper s;
     el_display := el_display s; el_visibility := el_visibility s;
     mounted := mounted s; el := el s; run := run s; executing := e;
     thens := thens s; classList := classList s; listeners := listeners s;
     acts := acts s; log := log s |}.

Definition st_thens (f : list (option nat * option bool) ->
                         list (option nat * option bool)) (s : state) : state :=
  {| context := context s; gates := gates s; wrapper := wrapper s;
     el_display := el_display s; el_visibility := el_visibility s;
     mounted := mounted s; el := el s; run := run s; executing := executing s;
     thens := f (thens s); classList := classList s; listeners := listeners s;
     acts := acts s; log := log s |}.

Definition st_classList (f : list string -> list string) (s : state) : state :=
  {| context := context s; gates := gates s; wrapper := wrapper s;
     el_display := el_display s; el_visibility := el_visibility s;
     mounted := mounted s; el := el s; run := run s; executing := executing s;
     thens := thens s; classList := f (classList s); listeners := listeners s;
     acts := acts s; log := log s |}.

Definition st_listeners (f : list listener -> list listener) (s : state) : state :=
  {| context := context s; gates := gates s; wrapper := wrapper s;
     el_display := el_display s; el_visibility := el_visibility s;
     mounted := mounted s; el := el s; run := run s; executing := executing s;
     thens := thens s; classList := classList s; listeners := f (listeners s);
     acts := acts s; log := log s |}.

Definition st_acts (f : list activation -> list activation) (s : state) : state :=
  {| context := context s; gates := gates s; wrapper := wrapper s;
     el_display := el_display s; el_visibility := el_visibility s;
     mounted := mounted s; el := el s; run := run s; executing := executing s;
     thens := thens s; classList := classList s; listeners := listeners s;
     acts := f (acts s); log := log s |}.

Definition st_log (e : entry) (s : state) : state :=
  {| context := context s; gates := gates s; wrapper := wrapper s;
     el_display := el_display s; el_visibility := el_visibility s;
     mounted := mounted s; el := el s; run := run s; executing := executing s;
     thens := thens s; classList := classList s; listeners := listeners s;
     acts := acts s; log := log s ++ [e] |}.

Definition act_suspend (i : instr) (rest : list instr) (x : activation) : activation :=
  {| a_show := a_show x; a_base := a_base x; a_from := a_from x; a_to := a_to x;
     a_done := a_done x; a_wait := Some i; a_rest := rest;
     a_frame := a_frame x; a_transitioned := a_transitioned x;
     a_children := a_children x; a_parent := a_parent x;
     a_completed := a_completed x; a_el := a_el x; a_failed := a_failed x |}.

Definition act_done (i : instr) (x : activation) : activation :=
  {| a_show := a_show x; a_base := a_base x; a_from := a_from x; a_to := a_to x;
     a_done := a_done x ++ [i]; a_wait := None; a_rest := a_rest x;
     a_frame := a_frame x; a_transitioned := a_transitioned x;
     a_children := a_children x; a_parent := a_parent x;
     a_completed := a_completed x; a_el := a_el x; a_failed := a_failed x |}.

Definition act_return (x : activation) : activation :=
  {| a_show := a_show x; a_base := a_base x; a_from := a_from x; a_to := a_to x;
     a_done := a_done x; a_wait := None; a_rest := [];
     a_frame := a_frame x; a_transitioned := a_transitioned x;
     a_children := a_children x; a_parent := a_parent x;
     a_completed := a_completed x; a_el := a_el x; a_failed := a_failed x |}.

Definition act_frame (b : bool) (x : activation) : activation :=
  {| a_show := a_show x; a_base := a_base x; a_from := a_from x; a_to := a_to x;
     a_done := a_done x; a_wait := a_wait x; a_rest := a_rest x;
     a_frame := b; a_transitioned := a_transitioned x;
     a_children := a_children x; a_parent := a_parent x;
     a_completed := a_completed x; a_el := a_el x; a_failed := a_failed x |}.

Definition act_transitioned (t : option bool) (x : activation) : activation :=
  {| a_show := a_show x; a_base := a_base x; a_from := a_from x; a_to := a_to x;
     a_done := a_done x; a_wait := a_wait x; a_rest := a_rest x;
     a_frame := a_frame x; a_transitioned := t;
     a_children := a_children x; a_parent := a_parent x;
     a_completed := a_completed x; a_el := a_el x; a_failed := a_failed x |}.

Definition act_children (p : promise) (x : activation) : activation :=
  {| a_show := a_show x; a_base := a_base x; a_from := a_from x; a_to := a_to x;
     a_done := a_done x; a_wait := a_wait x; a_rest := a_rest x;
     a_frame := a_frame x; a_transitioned := a_transitioned x;
     a_children := p; a_parent := a_parent x;
     a_completed := a_completed x; a_el := a_el x; a_failed := a_failed x |}.

Definition act_parent (b : bool) (x : activation) : activation :=
  {| a_show := a_show x; a_base := a_base x; a_from := a_from x; a_to := a_to x;
     a_done := a_done x; a_wait := a_wait x; a_rest := a_rest x;
     a_frame := a_frame x; a_transitioned := a_transitioned x;
     a_children := a_children x; a_parent := b;
     a_completed := a_completed x; a_el := a_el x; a_failed := a_failed x |}.

Definition act_completed (b : bool) (x : activation) : activation :=
  {| a_show := a_show x; a_base := a_base x; a_from := a_from x; a_to := a_to x;
     a_done := a_done x; a_wait := a_wait x; a_rest := a_rest x;
     a_frame := a_frame x; a_transitioned := a_transitioned x;
     a_children := a_children x; a_parent := a_parent x;
     a_completed := b; a_el := a_el x; a_failed := a_failed x |}.

Definition act_el (b : bool) (x : activation) : activation :=
  {| a_show := a_show x; a_base := a_base x; a_from := a_from x; a_to := a_to x;
     a_done := a_done x; a_wait := a_wait x; a_rest := a_rest x;
     a_frame := a_frame x; a_transitioned := a_transitioned x;
     a_children := a_children x; a_parent := a_parent x;
     a_completed := a_completed x; a_el := b; a_failed := a_failed x |}.

Definition act_throw (rest : list instr) (x : activation) : activation :=
  {| a_show := a_show x; a_base := a_base x; a_from := a_from x; a_to := a_to x;
     a_done := a_done x; a_wait := None; a_rest := rest;
     a_frame := a_frame x; a_transitioned := a_transitioned x;
     a_children := a_children x; a_parent := a_parent x;
     a_completed := a_completed x; a_el := a_el x; a_failed := true |}.

Definition st_el (b : bool) (s : state) : state :=
  {| context := context s; gates := gates s; wrapper := wrapper s;
     el_display := el_display s; el_visibility := el_visibility s;
     mounted := mounted s; el := b; run := run s; executing := executing s;
     thens := thens s; classList := classList s; listeners := listeners s;
     acts := acts s; log := log s |}.

Definition on_act (a : nat) (f : activation -> activation) (s : state) : state :=
  st_acts (alter f a) s.

(** ** Running an activation *)

(** A statement lets the function go on, suspends it at an [await], or
    throws (a property of [el] is read while [el] is null). *)
Inductive outcome := Next | Suspend | Throw.

Definition rendered (s : state) : bool := bool_decide (mounted s = Some true).

(** The content is rendered anew: the wrapped element is a fresh one. *)
Definition mount (s : state) : state :=
  st_listeners (fun _ => []) (st_classList (fun _ => []) (st_mounted (Some true) s)).

Definition store_set (v : option bool) (s : state) : state :=
  let '(c, told) := set v (context s) in
  let s' := st_context (fun _ => c) s in
  if told then st_log (Notified v) s' else s'.

Definition is_fulfilled (t : settled) : bool :=
  match t with Fulfilled => true | Pending => false end.

Definition new_activation (show : bool) (base from to : list string)
    (prog : list instr) : activation :=
  {| a_show := show; a_base := base; a_from := from; a_to := to;
     a_done := []; a_wait := None; a_rest := prog;
     a_frame := false; a_transitioned := None; a_children := Unassigned;
     a_parent := false; a_completed := false; a_el := false;
     a_failed := false |}.

Section Machine.
(** [unmount] of the props, and whether a parent context was found. *)
Variable unmount : bool.
Variable has_parent : bool.

(** One statement of activation [a].  A statement that reads a property
    of [el] throws when [el] is null.  [ensureMountedElement] sets
    [mounted] when the content is to be unmounted and is absent, and
    hands back the first element of the wrapper as it is after the
    [tick]. *)
Definition exec (a : nat) (i : instr) (s : state) : state * outcome :=
  match acts s !! a with
  | None => (s, Throw)
  | Some x =>
      match i with
      | Dispatch _ => (s, Next)
      | ElDisplay v =>
          if el s then (st_el_display v s, Next) else (s, Throw)
      | ElVisibility v =>
          if el s then (st_el_visibility v s, Next) else (s, Throw)
      | WrapperShow b => (st_wrapper b s, Next)
      | EnsureMounted strict =>
          let absent :=
            if strict then bool_decide (mounted s = Some false)
            else negb (rendered s) in
          if unmount && absent
          then (on_act a (act_el true) (mount s), Suspend)
          else (on_act a (act_el (rendered s)) s, Suspend)
      | NewCompleted => (on_act a (act_completed false) s, Next)
      | ChildrenCompleted =>
          let '(c, gs, p) := childrenCompleted a (context s) (gates s) in
          (on_act a (act_children p)
             (st_gates (fun _ => gs) (st_context (fun _ => c) s)), Next)
      | SetShow b => (store_set (Some b) s, Next)
      | AddClasses rs =>
          if el s then (st_classList (addClasses (names_of x rs)) s, Next)
          else (s, Throw)
      | RemoveClasses rs =>
          if el s then (st_classList (removeClasses (names_of x rs)) s, Next)
          else (s, Throw)
      | TransitionEnd =>
          match a_base x with
          | [] => (on_act a (act_transitioned (Some true)) s, Next)
          | _ :: _ =>
              if el s then
                let '(ls, t) := transitionEnd a (a_base x) (listeners s) in
                (on_act a (act_transitioned (Some (is_fulfilled t)))
                   (st_listeners (fun _ => ls) s), Next)
              else (s, Throw)
          end
      | AwaitNextFrame => (on_act a (act_frame false) s, Suspend)
      | AwaitTransitioned => (s, Suspend)
      | AwaitChildren => (s, Suspend)
      | AwaitAll => (s, Suspend)
      | AwaitParent =>
          if has_parent
          then (st_log (Reported a) (on_act a (act_parent false) s), Suspend)
          else (s, Next)
      | ResolveCompleted => (on_act a (act_completed true) s, Next)
      | Unmount =>
          (if unmount then st_mounted (Some false) s else s, Next)
      | AwaitApply => (s, Suspend)
      end
  end.

(** The function runs until its next [await], its [return] or a throw. *)
Fixpoint run_sync (a : nat) (prog : list instr) (s : state) : state :=
  match prog with
  | [] => on_act a act_return s
  | i :: rest =>
      match exec a i (st_log (Did a i) s) with
      | (s', Next) => run_sync a rest (on_act a (act_done i) s')
      | (s', Suspend) => on_act a (act_suspend i rest) s'
      | (s', Throw) => on_act a (act_throw (i :: rest)) (st_log (Threw a i) s')
      end
  end.

(** Whether the promise that the activation awaits is resolved. *)
Definition ready (s : state) (x : activation) (i : instr) : bool :=
  match i with
  | AwaitNextFrame => a_frame x
  | AwaitTransitioned => bool_decide (a_transitioned x = Some true)
  | AwaitChildren => resolved (gates s) (a_children x)
  | AwaitAll =>
      bool_decide (a_transitioned x = Some true)
      && resolved (gates s) (a_children x)
  | AwaitParent => a_parent x
  | _ => true
  end.

(** What the [await] hands back: [el] is assigned after
    [ensureMountedElement]. *)
Definition wake (i : instr) (x : activation) (s : state) : state :=
  match i with
  | EnsureMounted _ => st_el (a_el x) s
  | _ => s
  end.

(** A microtask: the activation goes on after its [await]. *)
Definition resume (a : nat) (s : state) : state :=
  match acts s !! a with
  | Some x =>
      match a_wait x with
      | Some i =>
          if ready s x i
          then run_sync a (a_rest x)
                 (wake i x (st_log (Resumed a i) (on_act a (act_done i) s)))
          else s
      | None => s
      end
  | None => s
  end.

(** A call of [enter()] or [leave()]: the new activation runs up to
    its first [await]. *)
Definition start (show : bool) (base from to : list string)
    (prog : list instr) (s : state) : state :=
  run_sync (length (acts s)) prog
    (st_acts (fun l => l ++ [new_activation show base from to prog]) s).

(** The second animation frame after [nextFrame()] was called. *)
Definition frame (a : nat) (s : state) : state :=
  match acts s !! a with
  | Some x =>
      match a_wait x with
      | Some AwaitNextFrame => on_act a (act_frame true) s
      | _ => s
      end
  | None => s
  end.

Definition perform (h : haction) (s : state) : state :=
  match h with
  | StopPropagation => s
  | Resolve a => on_act a (act_transitioned (Some true)) s
  end.

(** A native [transitionend] event reaches [el]. *)
Definition transitionend (s : state) : state :=
  let '(ls, performed, _) := deliver (listeners s) in
  fold_left (fun s h => perform h s) performed (st_listeners (fun _ => ls) s).

(** The promise that [parent.completed()] returned is resolved. *)
Definition parent_settled (a : nat) (s : state) : state :=
  match acts s !! a with
  | Some x =>
      match a_wait x with
      | Some AwaitParent => on_act a (act_parent true) s
      | _ => s
      end
  | None => s
  end.

(** A child transition is mounted ([parent.count++]) or destroyed
    ([parent.count--]), or calls [parent.completed()]. *)
Definition child_subscribed (s : state) : state :=
  st_context (fun c => with_count (c_count c + 1) c) s.

Definition child_destroyed (s : state) : state :=
  st_context (fun c => with_count (c_count c - 1) c) s.

Definition child_reported (s : state) : state :=
  st_gates (completed (context s)) s.

(** The promise of an activation is fulfilled: the function returned. *)
Definition fulfilled (s : state) (a : nat) : bool :=
  match acts s !! a with
  | Some x => bool_decide (a_wait x = None) && negb (a_failed x)
              && bool_decide (a_rest x = [])
  | None => false
  end.

(** The activation is in flight: suspended at an [await]. *)
Definition in_flight (x : activation) : bool :=
  bool_decide (a_wait x <> None).
End Machine.

(** Truthiness of [show], a boolean or null. *)
Definition is_true (show : option bool) : bool :=
  match show with Some true => true | _ => false end.

(** [show === null ? getContext(key) : null]; the context found holds
    [appear] (read by the third script only) and the value of its store. *)
Definition find_parent (ps : Props) (ancestor : option (bool * option bool))
  : option (bool * option bool) :=
  match p_show ps with None => ancestor | Some _ => None end.

Definition has_parent (ps : Props) (ancestor : option (bool * option bool)) : bool :=
  bool_decide (find_parent ps ancestor <> None).

(** ** The first script of src/lib/Transition.svelte *)
Module Legacy.

Definition apply : list instr :=
  [ ChildrenCompleted;
    AddClasses [Base];
    AddClasses [From];
    AwaitNextFrame;
    TransitionEnd;
    RemoveClasses [From];
    AddClasses [To];
    AwaitTransitioned;
    RemoveClasses [Base];
    RemoveClasses [To];
    AwaitChildren ].

Definition enter : list instr :=
  [ ElDisplay ""; ElVisibility ""; Dispatch BeforeEnter ]
  ++ apply
  ++ [ AwaitApply; AwaitParent; Dispatch AfterEnter ].

Definition leave : list instr :=
  [ Dispatch BeforeLeave ]
  ++ apply
  ++ [ AwaitApply; ElVisibility "hidden"; AwaitParent; ElDisplay "none";
       Dispatch AfterLeave ].

(** [show ? enter() : leave()] *)
Definition animate (ps : Props) (hp : bool) (show : option bool)
    (s : state) : state :=
  if is_true show
  then start (p_unmount ps) hp true
         (enterClasses ps) (enterFromClasses ps) (enterToClasses ps) enter s
  else start (p_unmount ps) hp false
         (leaveClasses ps) (leaveFromClasses ps) (leaveToClasses ps) leave s.

(** [execute(show)]; the flag [initialized] is kept in [run]. *)
Definition execute (ps : Props) (hp : bool) (show : option bool)
    (s : state) : state :=
  if run s then
    st_run true (store_set show (animate ps hp show s))
  else
    let s1 := st_wrapper true s in
    if el s1 then
      let s2 :=
        st_el_display
          (if is_true show then (if p_appear ps then "none" else "")
           else (if p_appear ps then "" else "none")) s1 in
      let s3 := if p_appear ps then animate ps hp show s2 else s2 in
      st_run true (store_set show s3)
    else s1.

(** [update(show)]; the template renders the slot when
    [show || !unmount]. *)
Definition update (ps : Props) (hp : bool) (show : option bool)
    (s : state) : state :=
  execute ps hp show
    (st_mounted (Some (is_true show || negb (p_unmount ps))) s).

(** The component is created and its action runs; [kids] child
    transitions were mounted inside it before. *)
Definition transition (ps : Props) (ancestor : option (bool * option bool))
    (kids : Z) : state :=
  let content := is_true (p_show ps) || negb (p_unmount ps) in
  let s :=
    {| context := {| c_appear := p_appear ps; c_show := p_show ps;
                     c_count := kids; c_completed := Default |};
       gates := [];
       wrapper := is_true (p_show ps) && negb (p_appear ps);
       el_display := ""; el_visibility := "";
       mounted := Some content;
       el := content;
       run := false;
       executing := None;
       thens := [];
       classList := []; listeners := [];
       acts := []; log := [] |} in
  match find_parent ps ancestor with
  | Some (_, v) => execute ps true v s
  | None => execute ps false (p_show ps) s
  end.

End Legacy.

(** ** The second script of src/lib/Transition.svelte *)
Module Slots.

Definition apply (show : bool) : list instr :=
  [ EnsureMounted true;
    NewCompleted;
    ChildrenCompleted;
    SetShow show;
    AddClasses [Base];
    AddClasses [From];
    TransitionEnd;
    AwaitNextFrame;
    RemoveClasses [From];
    AddClasses [To];
    AwaitAll;
    AwaitParent;
    RemoveClasses [Base];
    RemoveClasses [To];
    ResolveCompleted ].

Definition enter : list instr :=
  [ Dispatch BeforeEnter; WrapperShow true ]
  ++ apply true
  ++ [ AwaitApply; Dispatch AfterEnter ].

Definition leave : list instr :=
  [ Dispatch BeforeLeave ]
  ++ apply false
  ++ [ AwaitApply; WrapperShow false; Unmount; Dispatch AfterLeave ].

Definition animate (ps : Props) (hp : bool) (show : option bool)
    (s : state) : state :=
  if is_true show
  then start (p_unmount ps) hp true
         (enterClasses ps) (enterFromClasses ps) (enterToClasses ps) enter s
  else start (p_unmount ps) hp false
         (leaveClasses ps) (leaveFromClasses ps) (leaveToClasses ps) leave s.

(** [if (run) { show ? enter() : leave() }; run = true] *)
Definition execute (ps : Props) (hp : bool) (show : option bool)
    (s : state) : state :=
  st_run true (if run s then animate ps hp show s else s).

Definition update (ps : Props) (hp : bool) (show : option bool)
    (s : state) : state :=
  execute ps hp show s.

Definition transition (ps : Props) (ancestor : option (bool * option bool))
    (kids : Z) : state :=
  let s :=
    {| context := {| c_appear := p_appear ps; c_show := p_show ps;
                     c_count := kids; c_completed := Default |};
       gates := [];
       wrapper := is_true (p_show ps) && negb (p_appear ps);
       el_display := ""; el_visibility := "";
       mounted := if negb (p_unmount ps) then Some true else p_show ps;
       el := false;
       run := p_appear ps;
       executing := None;
       thens := [];
       classList := []; listeners := [];
       acts := []; log := [] |} in
  match find_parent ps ancestor with
  | Some (_, v) => execute ps true v s
  | None => execute ps false (p_show ps) s
  end.

End Slots.

(** ** The script with runes *)
Module Runes.

Definition apply (show : bool) : list instr :=
  [ EnsureMounted false;
    NewCompleted;
    ChildrenCompleted;
    SetShow show;
    AddClasses [Base; From];
    TransitionEnd;
    AwaitNextFrame;
    RemoveClasses [From];
    AddClasses [To];
    AwaitAll;
    AwaitParent;
    RemoveClasses [Base; To];
    ResolveCompleted ].

Definition enter : list instr :=
  [ Dispatch BeforeEnter; WrapperShow true ]
  ++ apply true
  ++ [ AwaitApply; Dispatch AfterEnter ].

Definition leave : list instr :=
  [ Dispatch BeforeLeave ]
  ++ apply false
  ++ [ AwaitApply; WrapperShow false; Unmount; Dispatch AfterLeave ].

Definition animate (ps : Props) (hp : bool) (show : option bool)
    (s : state) : state :=
  if is_true show
  then start (p_unmount ps) hp true
         (enterClasses ps) (enterFromClasses ps) (enterToClasses ps) enter s
  else start (p_unmount ps) hp false
         (leaveClasses ps) (leaveFromClasses ps) (leaveToClasses ps) leave s.

(** [executing = run ? show ? enter() : leave() : Promise.resolve();
    run = true] *)
Definition execute (ps : Props) (hp : bool) (show : option bool)
    (s : state) : state :=
  st_run true
    (if run s
     then st_executing (Some (length (acts s))) (animate ps hp show s)
     else st_executing None s).

(** [executing.then(() => execute(show))] *)
Definition update (ps : Props) (hp : bool) (show : option bool)
    (s : state) : state :=
  st_thens (fun l => l ++ [(executing s, show)]) s.

Definition transition (ps : Props) (ancestor : option (bool * option bool))
    (kids : Z) : state :=
  let appear :=
    match find_parent ps ancestor with
    | Some (a, _) => a
    | None => p_appear ps
    end in
  let s :=
    {| context := {| c_appear := appear; c_show := p_show ps;
                     c_count := kids; c_completed := Default |};
       gates := [];
       wrapper := is_true (p_show ps) && negb appear;
       el_display := ""; el_visibility := "";
       mounted := Some (negb (p_unmount ps) || is_true (p_show ps));
       el := false;
       run := appear;
       executing := None;
       thens := [];
       classList := []; listeners := [];
       acts := []; log := [] |} in
  match find_parent ps ancestor with
  | Some (_, v) => execute ps true v s
  | None => execute ps false (p_show ps) s
  end.

End Runes.

(** ** One component instance driven by its host *)

Inductive script := FirstScript | SecondScript | RunesScript.

Inductive event :=
| Update (show : option bool)   (* the host calls update(show) of the action *)
| Notify (show : option bool)   (* the store of the parent calls execute(show) *)
| Then (k : nat)                (* microtask: a callback of executing.then *)
| Resume (a : nat)              (* microtask: an activation leaves its await *)
| Frame (a : nat)               (* the second animation frame fires *)
| TransitionEndEvent            (* a native transitionend reaches el *)
| ParentSettled (a : nat)       (* the promise of parent.completed() resolves *)
| ChildSubscribed               (* a child transition is mounted *)
| ChildDestroyed                (* a child transition is destroyed *)
| ChildReported.                (* a child calls context.completed() *)

Definition execute (sc : script) (ps : Props) (hp : bool)
    (show : option bool) (s : state) : state :=
  match sc with
  | FirstScript => Legacy.execute ps hp show s
  | SecondScript => Slots.execute ps hp show s
  | RunesScript => Runes.execute ps hp show s
  end.

Definition update (sc : script) (ps : Props) (hp : bool)
    (show : option bool) (s : state) : state :=
  match sc with
  | FirstScript => Legacy.update ps hp show s
  | SecondScript => Slots.update ps hp show s
  | RunesScript => Runes.update ps hp show s
  end.

Definition transition (sc : script) (ps : Props)
    (ancestor : option (bool * option bool)) (kids : Z) : state :=
  match sc with
  | FirstScript => Legacy.transition ps ancestor kids
  | SecondScript => Slots.transition ps ancestor kids
  | RunesScript => Runes.transition ps ancestor kids
  end.

(** A callback registered by [executing.then] runs once that promise is
    fulfilled. *)
Definition run_then (sc : script) (ps : Props) (hp : bool) (k : nat)
    (s : state) : state :=
  match thens s !! k with
  | Some (p, show) =>
      if match p with None => true | Some a => fulfilled s a end
      then execute sc ps hp show (st_thens (delete k) s)
      else s
  | None => s
  end.

Definition step (sc : script) (ps : Props) (hp : bool) (ev : event)
    (s : state) : state :=
  match ev with
  | Update show => update sc ps hp show s
  | Notify show => if hp then execute sc ps hp show s else s
  | Then k => run_then sc ps hp k s
  | Resume a => resume (p_unmount ps) hp a s
  | Frame a => frame a s
  | TransitionEndEvent => transitionend s
  | ParentSettled a => parent_settled a s
  | ChildSubscribed => child_subscribed s
  | ChildDestroyed => child_destroyed s
  | ChildReported => child_reported s
  end.

Definition steps (sc : script) (ps : Props) (hp : bool) (evs : list event)
    (s : state) : state :=
  fold_left (fun s ev => step sc ps hp ev s) evs s.

(** The component from its creation on: the action runs, then the host
    events arrive. *)
Definition lifetime (sc : script) (ps : Props)
    (ancestor : option (bool * option bool)) (kids : Z) (evs : list event)
  : state :=
  steps sc ps (has_parent ps ancestor) evs (transition sc ps ancestor kids).

(** ** Vocabulary of the statements below *)

(** The statement list that an activation of a script runs. *)
Definition program (sc : script) (show : bool) : list instr :=
  match sc with
  | FirstScript => if show then Legacy.enter else Legacy.leave
  | SecondScript => if show then Slots.enter else Slots.leave
  | RunesScript => if show then Runes.enter else Runes.leave
  end.

Fixpoint has_space (s : string) : bool :=
  match s with
  | EmptyString => false
  | String c r => Ascii.eqb c " " || has_space r
  end.

(** [tokens.join(' ')] *)
Fixpoint join (tokens : list string) : string :=
  match tokens with
  | [] => EmptyString
  | [w] => w
  | w :: ws => String.append w (String " " (join ws))
  end.

(** What the child transitions of a node do to its context. *)
Inductive child_event := Reports | Subscribes | Leaves.

Definition child_step (cg : Context * list gate) (ev : child_event)
  : Context * list gate :=
  match ev with
  | Reports => (cg.1, completed cg.1 cg.2)
  | Subscribes => (with_count (c_count cg.1 + 1) cg.1, cg.2)
  | Leaves => (with_count (c_count cg.1 - 1) cg.1, cg.2)
  end.

Global Instance child_event_eq_dec : EqDecision child_event.
Proof. solve_decision. Defined.

Definition tally (ev : child_event) (evs : list child_event) : Z :=
  Z.of_nat (length (List.filter (fun e => bool_decide (e = ev)) evs)).

(** The [await] an activation is suspended at, as a statement list. *)
Definition wait_list (x : activation) : list instr :=
  match a_wait x with Some i => [i] | None => [] end.

(** The class lists that [enter] and [leave] hand to [apply]. *)
Definition classes_of (ps : Props) (show : bool)
  : list string * list string * list string :=
  if show then (enterClasses ps, enterFromClasses ps, enterToClasses ps)
  else (leaveClasses ps, leaveFromClasses ps, leaveToClasses ps).

(** The awaits of the promise [transitioned] and of the promise of
    [childrenCompleted]. *)
Definition awaits_transition (i : instr) : bool :=
  bool_decide (i = AwaitAll \/ i = AwaitTransitioned).

Definition awaits_children (i : instr) : bool :=
  bool_decide (i = AwaitAll \/ i = AwaitChildren).

(** An activation follows the statement list of its script: what it has
    done and what is left make up [enter] or [leave]; its class lists
    are those of the props; and once it is past an await of a promise,
    that promise is resolved. *)
Definition follows (sc : script) (ps : Props) (gs : list gate)
    (x : activation) (rest : list instr) : Prop :=
  a_done x ++ rest = program sc (a_show x) /\
  (a_base x, a_from x, a_to x) = classes_of ps (a_show x) /\
  (forall w, In w (a_done x) ->
     (awaits_transition w = true -> a_transitioned x = Some true) /\
     (awaits_children w = true -> resolved gs (a_children x) = true)).

Definition inv (sc : script) (ps : Props) (s : state) : Prop :=
  forall a x, acts s !! a = Some x ->
    follows sc ps (gates s) x (wait_list x ++ a_rest x).

(** The same while activation [a] is running with [prog] to go. *)
Definition mid (sc : script) (ps : Props) (a : nat) (prog : list instr)
    (s : state) : Prop :=
  (exists x, acts s !! a = Some x /\ follows sc ps (gates s) x prog) /\
  forall b y, b <> a -> acts s !! b = Some y ->
    follows sc ps (gates s) y (wait_list y ++ a_rest y).

(** A promise that is resolved stays resolved. *)
Definition grows (gs gs' : list gate) : Prop :=
  forall p, resolved gs p = true -> resolved gs' p = true.

Definition is_setup (i : instr) : bool :=
  bool_decide (i = TransitionEnd \/ i = ChildrenCompleted).

(** No promise is made after it has been awaited. *)
Fixpoint setup_before_joint (seen : bool) (p : list instr) : bool :=
  match p with
  | [] => true
  | i :: r =>
      if awaits_transition i || awaits_children i
      then setup_before_joint true r
      else if seen && is_setup i then false
      else setup_before_joint seen r
  end.

(** [i] is reached before [j] in a statement list. *)
Fixpoint earlier (i j : instr) (p : list instr) : bool :=
  match p with
  | [] => true
  | k :: r =>
      if bool_decide (k = i) then true
      else if bool_decide (k = j) then false
      else earlier i j r
  end.

(** The [appear] that decides the first call of [execute]: the script
    with runes hands the setting of the parent context down to a child;
    the two older scripts read the prop of the component itself. *)
Definition effective_appear (sc : script) (ps : Props)
    (ancestor : option (bool * option bool)) : bool :=
  match sc, find_parent ps ancestor with
  | RunesScript, Some (pa, _) => pa
  | _, _ => p_appear ps
  end.

(** The host hands over an update only after the callback of the update
    before has run. *)
Fixpoint one_at_a_time (sc : script) (ps : Props) (hp : bool)
    (evs : list event) (s : state) : bool :=
  match evs with
  | [] => true
  | ev :: r =>
      match ev with
      | Update _ => bool_decide (thens s = [])
      | _ => true
      end && one_at_a_time sc ps hp r (step sc ps hp ev s)
  end.

Definition is_update (ev : event) : bool :=
  match ev with Update _ => true | _ => false end.

(** Props used in the examples. *)
Definition fade (show : option bool) (appear unmount : bool) : Props :=
  {| p_show := show; p_appear := appear; p_unmount := unmount;
     p_enter := "ease"; p_enterFrom := "opacity-0"; p_enterTo := "opacity-100";
     p_leave := None; p_leaveFrom := None; p_leaveTo := None |}.

(** At most one activation is in flight, it is the one [executing]
    holds, and the callback that waits, if any, waits for it. *)
Definition serial (s : state) : Prop :=
  (forall a x, acts s !! a = Some x -> a_wait x <> None ->
     executing s = Some a) /\
  (forall p v, In (p, v) (thens s) -> p = executing s) /\
  (length (thens s) <= 1)%nat.

(** What [childrenCompleted], called by activation [a] in state [s],
    has left in state [s']: nothing when the context counts no child, a
    fresh closure as [context.completed] otherwise. *)
Definition gate_made (a : nat) (s s' : state) : Prop :=
  if decide (c_count (context s) = 0)
  then c_completed (context s') = c_completed (context s) /\
       gates s' = gates s
  else c_completed (context s') = Closure (length (gates s)) /\
       gates s' = gates s ++ [fresh_gate a].

(** What a statement leaves alone in the running activation: the fields
    that only [run_sync] and [resume] write. *)
Definition keeps (x y : activation) : Prop :=
  a_show y = a_show x /\ a_base y = a_base x /\ a_from y = a_from x /\
  a_to y = a_to x /\ a_done y = a_done x /\ a_wait y = a_wait x /\
  a_rest y = a_rest x /\ a_failed y = a_failed x.

(** What a run of activation [a] leaves alone in the component. *)
Definition untouched (a : nat) (s s' : state) : Prop :=
  length (acts s') = length (acts s) /\
  (forall b, b <> a -> acts s' !! b = acts s !! b) /\
  thens s' = thens s /\ executing s' = executing s /\ run s' = run s /\
  (exists more, log s' = log s ++ more) /\
  c_count (context s') = c_count (context s).

Ltac decide_events :=
  repeat match goal with
  | |- context [bool_decide (?x = ?y)] =>
      let b := eval vm_compute in (bool_decide (x = y)) in
      change (bool_decide (x = y)) with b
  end.
(** ** Animation frames *)

(** A callback handed to [requestAnimationFrame]: [resolve] of the
    promise [p] of a call of [nextFrame], or [() => raf(cb)]. *)
Inductive callback :=
| ResolveFrame (p : nat)
| Raf (cb : callback).

(** [requestAnimationFrame(cb)]: the callback joins the list of the
    document. *)
Definition requestAnimationFrame (cb : callback) (q : list callback)
  : list callback :=
  q ++ [cb].

(** [new Promise(resolve => raf(() => raf(resolve)))] *)
Definition nextFrame (p : nat) (q : list callback) : list callback :=
  requestAnimationFrame (Raf (ResolveFrame p)) q.

(** The callbacks of one frame run in the order of their registration;
    what they register is called in the frame after.  The result is the
    list for the next frame and the promises resolved. *)
Fixpoint run_callbacks (cbs next : list callback) (resolved : list nat)
  : list callback * list nat :=
  match cbs with
  | [] => (next, resolved)
  | ResolveFrame p :: r => run_callbacks r next (resolved ++ [p])
  | Raf cb :: r => run_callbacks r (requestAnimationFrame cb next) resolved
  end.

Definition animation_frame (q : list callback) : list callback * list nat :=
  run_callbacks q [] [].

(** The promise that a callback resolves in the end. *)
Fixpoint target (cb : callback) : nat :=
  match cb with
  | ResolveFrame p => p
  | Raf cb => target cb
  end.

(** The promises that a list of callbacks resolves when it runs, and
    the callbacks that it registers. *)
Definition due (cbs : list callback) : list nat :=
  flat_map (fun cb => match cb with ResolveFrame p => [p] | Raf _ => [] end) cbs.

Definition later (cbs : list callback) : list callback :=
  flat_map (fun cb => match cb with ResolveFrame _ => [] | Raf c => [c] end) cbs.

(** ** The converter of the documentation page *)

Definition newline : ascii := "010"%char.

Fixpoint has_char (c : ascii) (s : string) : bool :=
  match s with
  | EmptyString => false
  | String d r => Ascii.eqb d c || has_char c r
  end.

(** [lines.join(sep)] with a one-character separator. *)
Fixpoint join_with (sep : ascii) (lines : list string) : string :=
  match lines with
  | [] => EmptyString
  | [w] => w
  | w :: ws => String.append w (String sep (join_with sep ws))
  end.

(** [value.split('\n').filter(line => line !== '  ').join('\n')] *)
Definition removeEmptyLines (value : string) : string :=
  join_with newline
    (List.filter (fun line => negb (String.eqb line "  "))
       (split newline value)).

(** The named groups of the match of the comment. *)
Record Groups := {
  m_description : string;
  m_enter : string;
  m_enterFrom : string;
  m_enterTo : string;
  m_leave : string;
  m_leaveFrom : string;
  m_leaveTo : string
}.

(** [x !== d ? x : nothing]: the value of a leave attribute that is
    written out. *)
Definition written (x d : string) : option string :=
  if String.eqb x d then None else Some x.

(** One line of the template, two spaces and
    [${x !== d ? `name=${x}` : ''}]. *)
Definition optional_line (name x d : string) : string :=
  String.append "  "
    match written x d with
    | Some v => String.append name (String.append "=" v)
    | None => ""
    end.

Definition line (s : string) (rest : string) : string :=
  String.append s (String newline rest).

(** The template literal of [result], before [removeEmptyLines]. *)
Definition template (g : Groups) : string :=
  line (String.append "<!-- " (String.append (m_description g) " -->"))
  (line "<Transition"
  (line (String.append "  enter=" (m_enter g))
  (line (String.append "  enterFrom=" (m_enterFrom g))
  (line (String.append "  enterTo=" (m_enterTo g))
  (line (optional_line "leave" (m_leave g) (m_enter g))
  (line (optional_line "leaveFrom" (m_leaveFrom g) (m_enterTo g))
  (line (optional_line "leaveTo" (m_leaveTo g) (m_enterFrom g))
  (line ">"
  "</Transition>")))))))).

(** [groups ? removeEmptyLines(`...`) : ''] *)
Definition result (groups : option Groups) : string :=
  match groups with
  | Some g => removeEmptyLines (template g)
  | None => ""
  end.

(** The props that the component gets from the markup of [result]:
    [value] reads the text of an attribute, and a leave attribute that
    is not written out leaves its prop at [null]. *)
Definition props_of (value : string -> string) (g : Groups) : Props :=
  {| p_show := None; p_appear := false; p_unmount := false;
     p_enter := value (m_enter g);
     p_enterFrom := value (m_enterFrom g);
     p_enterTo := value (m_enterTo g);
     p_leave := value <$> written (m_leave g) (m_enter g);
     p_leaveFrom := value <$> written (m_leaveFrom g) (m_enterTo g);
     p_leaveTo := value <$> written (m_leaveTo g) (m_enterFrom g) |}.

(** The lines that [result] is made of. *)
Definition written_line (name x d : string) : list string :=
  match written x d with
  | Some v => [String.append "  " (String.append name (String.append "=" v))]
  | None => []
  end.

Definition free_of_newline (g : Groups) : bool :=
  negb (has_char newline (m_description g)) &&
  negb (has_char newline (m_enter g)) &&
  negb (has_char newline (m_enterFrom g)) &&
  negb (has_char newline (m_enterTo g)) &&
  negb (has_char newline (m_leave g)) &&
  negb (has_char newline (m_leaveFrom g)) &&
  negb (has_char newline (m_leaveTo g)).

(** ** Vocabulary of the invariants *)

(** What [run_sync] makes of the outcome of a statement. *)
Definition settle (a : nat) (i : instr) (rest : list instr) (o : outcome)
    (s : state) : state :=
  match o with
  | Next => on_act a (act_done i) s
  | Suspend => on_act a (act_suspend i rest) s
  | Throw => on_act a (act_throw (i :: rest)) (st_log (Threw a i) s)
  end.

(** The component as its script block leaves it, before the action
    calls [execute] for the first time. *)
Definition initial (sc : script) (ps : Props)
    (ancestor : option (bool * option bool)) (kids : Z) : state :=
  let appear :=
    match sc, find_parent ps ancestor with
    | RunesScript, Some (a, _) => a
    | _, _ => p_appear ps
    end in
  {| context := {| c_appear := appear; c_show := p_show ps;
                   c_count := kids; c_completed := Default |};
     gates := [];
     wrapper := is_true (p_show ps) && negb appear;
     el_display := ""; el_visibility := "";
     mounted :=
       match sc with
       | FirstScript => Some (is_true (p_show ps) || negb (p_unmount ps))
       | SecondScript => if negb (p_unmount ps) then Some true else p_show ps
       | RunesScript => Some (negb (p_unmount ps) || is_true (p_show ps))
       end;
     el :=
       match sc with
       | FirstScript => is_true (p_show ps) || negb (p_unmount ps)
       | _ => false
       end;
     run := match sc with FirstScript => false | _ => appear end;
     executing := None;
     thens := [];
     classList := []; listeners := [];
     acts := []; log := [] |}.

(** The value that the first call of [execute] gets: the one of the
    store of the parent for a child, the prop otherwise. *)
Definition first_show (ps : Props) (ancestor : option (bool * option bool))
  : option bool :=
  match find_parent ps ancestor with
  | Some (_, v) => v
  | None => p_show ps
  end.

(** ** Failure of a statement *)


Definition is_ensure (i : instr) : bool :=
  match i with EnsureMounted _ => true | _ => false end.





(** The first script has found no element when its action ran and has
    started nothing since. *)
Definition idle (ps : Props) (s : state) : Prop :=
  acts s = [] /\ el s = false /\ run s = false /\ log s = [] /\
  listeners s = [] /\ gates s = [] /\ thens s = [] /\
  c_completed (context s) = Default /\ c_show (context s) = p_show ps.

(** The statements of a list up to the first [z], [z] included. *)
Fixpoint upto (z : instr) (p : list instr) : list instr :=
  match p with
  | [] => []
  | k :: r => if bool_decide (k = z) then [k] else k :: upto z r
  end.

(** The second script with [mounted] at [null]: no content, no element,
    and no activation beyond its first class mutation. *)
Definition never_mounts (s : state) : Prop :=
  mounted s = None /\ el s = false /\ classList s = [] /\
  (forall a x, acts s !! a = Some x ->
     a_el x = false /\ ~ In (AddClasses [Base]) (a_done x ++ wait_list x)) /\
  (forall a, ~ In (Reported a) (log s)).

(** A property of the component that every statement of an activation
    and every event keeps. *)
Record kept (sc : script) (ps : Props) (hp : bool) (P : state -> Prop)
  : Prop := {
  kept_exec : forall a i rest s s' o,
    mid sc ps a (i :: rest) s ->
    (exists x, acts s !! a = Some x /\ a_wait x = None) -> P s ->
    exec (p_unmount ps) hp a i (st_log (Did a i) s) = (s', o) ->
    P (settle a i rest o s');
  kept_return : forall a s,
    mid sc ps a [] s ->
    (exists x, acts s !! a = Some x /\ a_wait x = None) -> P s ->
    P (on_act a act_return s);
  kept_resume : forall a x i s,
    inv sc ps s -> P s -> acts s !! a = Some x -> a_wait x = Some i ->
    ready s x i = true ->
    P (wake i x (st_log (Resumed a i) (on_act a (act_done i) s)));
  kept_start : forall show s,
    inv sc ps s -> P s ->
    P (st_acts (fun l => l ++ [new_activation show (classes_of ps show).1.1
                                 (classes_of ps show).1.2
                                 (classes_of ps show).2
                                 (program sc show)]) s);
  kept_frame : forall a s, P s -> P (on_act a (act_frame true) s);
  kept_parent : forall a s, P s -> P (on_act a (act_parent true) s);
  kept_transitionend : forall s, inv sc ps s -> P s -> P (transitionend s);
  kept_count : forall n s,
    P s -> P (st_context (fun c => with_count n c) s);
  kept_reported : forall s, inv sc ps s -> P s -> P (child_reported s);
  kept_store : forall v s, P s -> P (store_set v s);
  kept_run : forall b s, P s -> P (st_run b s);
  kept_executing : forall e s, P s -> P (st_executing e s);
  kept_thens : forall f s, P s -> P (st_thens f s);
  kept_wrapper : forall b s, P s -> P (st_wrapper b s);
  kept_display : forall v s, P s -> P (st_el_display v s);
  kept_template : forall show s,
    sc = FirstScript -> P s ->
    P (st_mounted (Some (is_true show || negb (p_unmount ps))) s)
}.

(** [context.completed] is the closure of the gate made last, or the
    function of the initial context when no gate has been made. *)
Definition newest (s : state) : Prop :=
  match c_completed (context s) with
  | Default => gates s = []
  | Closure g => S g = length (gates s)
  end.

(** The gates of [old] are in [gs] as they were, but for the last. *)
Definition frozen (old gs : list gate) : Prop :=
  (length old <= length gs)%nat /\
  forall g, (S g < length old)%nat -> gs !! g = old !! g.

(** The events of an activation that runs alone, after the update that
    starts it: the microtasks run, the two frames pass and the
    transition ends. *)
Definition course (sc : script) : list event :=
  match sc with
  | FirstScript =>
      [Frame 0; Resume 0; TransitionEndEvent; Resume 0; Resume 0; Resume 0]
  | SecondScript =>
      [Resume 0; Frame 0; Resume 0; TransitionEndEvent; Resume 0; Resume 0]
  | RunesScript =>
      [Then 0; Resume 0; Frame 0; Resume 0; TransitionEndEvent; Resume 0;
       Resume 0]
  end.

(** The listener that [transitionEnd] registers for activation [a]. *)
Definition transition_listener (a : nat) : listener :=
  {| l_once := true; l_body := [StopPropagation; Resolve a] |}.

(** Every listener on the element is one of [transitionEnd]. *)
Definition single_fire (s : state) : Prop :=
  forall l, In l (listeners s) -> exists a, l = transition_listener a.

(** The values that the store has told its subscribers, oldest first. *)
Definition told (l : list entry) : list (option bool) :=
  flat_map (fun e => match e with Notified v => [v] | _ => [] end) l.

(** Every value of the list differs from the one before it. *)
Fixpoint changes (prev : option bool) (l : list (option bool)) : bool :=
  match l with
  | [] => true
  | v :: r => negb (bool_decide (v = prev)) && changes v r
  end.

(** The component has told its children every change of its store and
    nothing else. *)
Definition heard (ps : Props) (s : state) : Prop :=
  changes (p_show ps) (told (log s)) = true /\
  c_show (context s) = List.last (told (log s)) (p_show ps).

(** ** A parent and its child transitions *)

(** The calls of [parent.completed()] in a log. *)
Definition reported (l : list entry) : list nat :=
  flat_map (fun e => match e with Reported a => [a] | _ => [] end) l.

(** A component with the child transitions in its content.
    [w_promises] keeps, for every call of [parent.completed()], the
    child, its activation and the function that [context.completed] was
    then: the call returns the promise [completed] that this function
    has captured (second script and script with runes). *)
Record world := {
  w_parent : state;
  w_children : list state;
  w_promises : list (nat * nat * completed_fn)
}.

(** The promise that a call of [context.completed] has returned is
    resolved: [parentCompleted] of the activation that made the closure;
    the function of the initial context returns [undefined]. *)
Definition promise_resolved (p : state) (f : completed_fn) : bool :=
  match f with
  | Default => true
  | Closure g =>
      match gates p !! g with
      | Some gt =>
          match acts p !! g_owner gt with
          | Some x => a_completed x
          | None => false
          end
      | None => false
      end
  end.

Inductive wevent :=
| Host (v : option bool)          (* the host updates [show] of the parent *)
| InParent (ev : event)           (* a microtask, a frame or a transitionend
                                     of the parent *)
| InChild (c : nat) (ev : event)  (* the same of child [c] *)
| Settled (c a : nat).            (* the promise that activation [a] of child
                                     [c] got from the parent is resolved *)

Definition of_parent (ev : event) : bool :=
  match ev with
  | Then _ | Resume _ | Frame _ | TransitionEndEvent => true
  | _ => false
  end.

Definition of_child (ev : event) : bool :=
  match ev with
  | Resume _ | Frame _ | TransitionEndEvent => true
  | _ => false
  end.

Definition is_host (e : wevent) : bool :=
  match e with Host _ => true | _ => false end.

(** How often the host updates [show] of the parent. *)
Definition hosts (es : list wevent) : nat :=
  length (List.filter is_host es).

(** An activation that has called [parent.completed()]. *)
Definition is_reporter (y : activation) : bool :=
  existsb (fun i => bool_decide (i = AwaitParent)) (a_done y ++ wait_list y).

Definition reporters (s : state) : list activation :=
  List.filter is_reporter (acts s).

(** Every call of [parent.completed()] in the log was made by an
    activation that is at or past its [await parent.completed()]. *)
Definition counted (s : state) : Prop :=
  (length (reported (log s)) <= length (reporters s))%nat.

(** The counter of the gate of a parent with one gate at most. *)
Definition gate_count (s : state) : Z :=
  match gates s with
  | gt :: _ => g_count gt
  | [] => 0
  end.

(** A parent of [n] children with one activation at most.  Before the
    activation has called [childrenCompleted] there is no gate, the
    function of the context is the initial one and the store has told
    nothing; after, there is the one gate, [context.completed] is its
    closure, the promise of the activation is the one of the gate, the
    gate is resolved only when its counter has reached [n], and the
    store has told one value at most, in [set(show)]. *)
Definition single (n count : Z) (s : state) : Prop :=
  c_count (context s) = n /\ gate_count s = count /\
  match acts s with
  | [] =>
      gates s = [] /\ c_completed (context s) = Default /\ told (log s) = []
  | [x] =>
      (forall i, a_wait x = Some i ->
         i <> ChildrenCompleted /\ forall b, i <> SetShow b) /\
      ((~ In ChildrenCompleted (a_done x) /\ gates s = [] /\
        c_completed (context s) = Default /\ told (log s) = [])
       \/
       (In ChildrenCompleted (a_done x) /\
        exists gt, gates s = [gt] /\ c_completed (context s) = Closure 0 /\
          a_children x = OfGate 0 /\
          (g_resolved gt = true -> n <= g_count gt) /\
          (length (told (log s)) <= 1)%nat /\
          (told (log s) <> [] -> exists b, In (SetShow b) (a_done x))))
  | _ => False
  end.

(** The promise that activation [a] of child [c] got from the parent is
    resolved. *)
Definition awaited (c a : nat) (w : world) : bool :=
  existsb (fun '(c', a', f) =>
             Nat.eqb c' c && Nat.eqb a' a && promise_resolved (w_parent w) f)
    (w_promises w).

(** The calls of [parent.completed()] that the children have made. *)
Definition total (ks : list state) : Z :=
  fold_right (fun k t => Z.of_nat (length (reported (log k))) + t) 0 ks.

(** What an activation may have become of an earlier state [x] of it:
    it has done more; the promise of [parent.completed()] is not
    resolved for it unless it was for [x]; its own [completed] is
    resolved only when it was, or when it has called
    [resolveCompleted]; and, where a parent context was found, it is
    past [await parent.completed()] only when [x] was, or when the
    promise was resolved for [x]. *)
Definition onward (hp : bool) (x x' : activation) : Prop :=
  incl (a_done x) (a_done x') /\
  (a_parent x' = true -> a_parent x = true) /\
  (a_completed x' = true ->
   a_completed x = true \/ In ResolveCompleted (a_done x')) /\
  (hp = true -> In AwaitParent (a_done x') ->
   In AwaitParent (a_done x) \/ a_parent x = true).

(** An activation as [enter()] or [leave()] begins it. *)
Definition is_new (x : activation) : Prop :=
  a_done x = [] /\ a_parent x = false /\ a_completed x = false.

(** The activations of [t] are those of [s0] at a later time, and new
    ones after them. *)
Definition grown (hp : bool) (s0 t : state) : Prop :=
  (length (acts s0) <= length (acts t))%nat /\
  forall b x', acts t !! b = Some x' ->
    exists x, onward hp x x' /\
      (acts s0 !! b = Some x \/ (length (acts s0) <= b)%nat /\ is_new x).

(** The activation of the parent has called [resolveCompleted]. *)
Definition parent_done (p : state) : Prop :=
  exists x, acts p !! 0%nat = Some x /\ In ResolveCompleted (a_done x).

(** [completed] of an activation is resolved by [resolveCompleted]
    only. *)
Definition honest (p : state) : Prop :=
  forall a x, acts p !! a = Some x -> a_completed x = true ->
    In ResolveCompleted (a_done x).

(** No activation of the child has the promise of [parent.completed()]
    resolved, or is past the await of it, unless [D]. *)
Definition patient (D : Prop) (k : state) : Prop :=
  forall b y, acts k !! b = Some y ->
    a_parent y = true \/ In AwaitParent (a_done y) -> D.

(** Every call of [parent.completed()] has got the promise of the one
    gate, and no child goes on before that promise is resolved. *)
Definition orderly (w : world) : Prop :=
  (forall c a f, In (c, a, f) (w_promises w) -> f = Closure 0) /\
  honest (w_parent w) /\
  forall c k, w_children w !! c = Some k ->
    patient (parent_done (w_parent w)) k.

Section World.
(** The script, the props of the parent and those of the components in
    its content.  The parent keeps its content mounted, so that the
    children live as long as it does. *)
Variable sc : script.
Variable pp : Props.
Variable cps : list Props.

(** What [getContext(key)] hands to a child: [appear] and the value of
    the store of the context of the parent. *)
Definition above : option (bool * option bool) :=
  Some (p_appear pp, p_show pp).

(** An event of child [c]; every call of [parent.completed()] that the
    child makes on the way runs the function of the context of the
    parent. *)
Definition at_child (c : nat) (ev : event) (w : world) : world :=
  match w_children w !! c, cps !! c with
  | Some k, Some cp =>
      let k' := step sc cp (has_parent cp above) ev k in
      let calls := reported (drop (length (log k)) (log k')) in
      {| w_parent := fold_left (fun p _ => child_reported p) calls (w_parent w);
         w_children := <[c := k']> (w_children w);
         w_promises :=
           w_promises w
           ++ map (fun a => (c, a, c_completed (context (w_parent w)))) calls |}
  | _, _ => w
  end.

(** The store of the parent calls the subscribers, in the order of
    their subscription. *)
Definition broadcast (v : option bool) (w : world) : world :=
  fold_left (fun w c => at_child c (Notify v) w)
    (seq 0 (length (w_children w))) w.

(** An event of the parent; what its store tells on the way reaches
    every child. *)
Definition at_parent (ev : event) (w : world) : world :=
  let p' := step sc pp (has_parent pp None) ev (w_parent w) in
  fold_left (fun w v => broadcast v w)
    (told (drop (length (log (w_parent w))) (log p')))
    {| w_parent := p'; w_children := w_children w;
       w_promises := w_promises w |}.

Definition wstep (e : wevent) (w : world) : world :=
  match e with
  | Host v => at_parent (Update v) w
  | InParent ev => if of_parent ev then at_parent ev w else w
  | InChild c ev => if of_child ev then at_child c ev w else w
  | Settled c a =>
      if awaited c a w then at_child c (ParentSettled a) w else w
  end.

Definition wsteps (es : list wevent) (w : world) : world :=
  fold_left (fun w e => wstep e w) es w.

(** The family as it is created: every child that finds the context
    has raised [count] of the parent and has had [execute] called with
    the value of the store, by [subscribe]; the action of the parent has
    called [execute] with its prop. *)
Definition family : world :=
  {| w_parent :=
       transition sc pp None
         (Z.of_nat (length (List.filter (fun cp => has_parent cp above) cps)));
     w_children := map (fun cp => transition sc cp above 0) cps;
     w_promises := [] |}.

(** What a family keeps while the host has updated [show] of the parent
    [h] times at most, [h <= 1]. *)
Definition tidy (h : nat) (w : world) : Prop :=
  length (w_children w) = length cps /\
  inv sc pp (w_parent w) /\
  single (Z.of_nat (length cps)) (total (w_children w)) (w_parent w) /\
  run (w_parent w) = true /\
  (length (acts (w_parent w)) + length (thens (w_parent w)) <= h)%nat /\
  forall c cp k, cps !! c = Some cp -> w_children w !! c = Some k ->
    inv sc cp k /\ counted k /\ run k = true /\
    (length (acts k) <= length (told (log (w_parent w))))%nat.
End World.


(** * Properties *)

(** ** Class strings *)

Lemma truthy_spec (s : string) : truthy s = true <-> s <> "".
Proof.
  unfold truthy. rewrite negb_true_iff. split.
  - intros H ->. rewrite String.eqb_refl in H. discriminate.
  - intros H. apply String.eqb_neq. exact H.
Qed.

Lemma filter_truthy_nonempty (l : list string) :
  Forall (fun x => x <> "") (List.filter truthy l).
Proof.
  apply Forall_forall. intros x Hx. apply list_elem_of_In in Hx.
  apply filter_In in Hx. apply truthy_spec. tauto.
Qed.

Lemma classes_nonempty (s : string) : Forall (fun x => x <> "") (classes s).
Proof.
  unfold classes. destruct (truthy s).
  - apply filter_truthy_nonempty.
  - constructor.
Qed.

(** The guard of [classes] only saves the call: filtering the tokens of
    the empty string gives the empty list as well. *)
Lemma classes_split (s : string) : classes s = List.filter truthy (split " " s).
Proof.
  unfold classes. destruct (truthy s) eqn:E; [reflexivity|].
  unfold truthy in E. rewrite negb_false_iff in E. apply String.eqb_eq in E.
  subst. reflexivity.
Qed.

Lemma split_no_space (s : string) :
  Forall (fun x => has_space x = false) (split " " s).
Proof.
  induction s as [|c r IH]; simpl.
  - repeat constructor.
  - destruct (Ascii.eqb c " ") eqn:E.
    + constructor; [reflexivity | exact IH].
    + destruct (split " " r) as [|w ws] eqn:Er.
      * repeat constructor. simpl. rewrite E. reflexivity.
      * inversion IH; subst. constructor; [|assumption].
        simpl. rewrite E. simpl. assumption.
Qed.

Lemma split_not_nil (s : string) : split " " s <> [].
Proof.
  destruct s as [|c r]; simpl; [discriminate|].
  destruct (Ascii.eqb c " "); [discriminate|].
  destruct (split " " r); discriminate.
Qed.

(** [split] loses nothing: joining the tokens with spaces gives the
    string back. *)
Lemma join_cons (w : string) (ws : list string) :
  ws <> [] -> join (w :: ws) = String.append w (String " " (join ws)).
Proof. destruct ws; [congruence | reflexivity]. Qed.

Lemma join_split (s : string) : join (split " " s) = s.
Proof.
  induction s as [|c r IH]; [reflexivity|].
  simpl. destruct (Ascii.eqb c " ") eqn:E.
  - apply Ascii.eqb_eq in E. subst c.
    rewrite join_cons by apply split_not_nil. rewrite IH. reflexivity.
  - pose proof (split_not_nil r) as Hn.
    destruct (split " " r) as [|w ws]; [congruence|].
    destruct ws as [|w' ws].
    + simpl in *. rewrite IH. reflexivity.
    + rewrite join_cons by discriminate.
      rewrite join_cons in IH by discriminate.
      rewrite <- IH. reflexivity.
Qed.

Lemma classes_no_space (s : string) :
  Forall (fun x => has_space x = false) (classes s).
Proof.
  rewrite classes_split. pose proof (split_no_space s) as H.
  induction H as [|x l Hx Hl IH]; simpl; [constructor|].
  destruct (truthy x); [constructor|]; assumption.
Qed.

Example classes_spaces :
  classes " a  b " = ["a"; "b"] /\ classes "   " = [] /\
  classes "ease-out duration-300" = ["ease-out"; "duration-300"].
Proof. repeat split; reflexivity. Qed.

(** ** Derivation of the leave classes *)

(** C5: every leave field that is unset ([null]) takes its default on its
    own: [leave] from [enter], [leaveFrom] from [enterTo], [leaveTo] from
    [enterFrom]; a leave field that is supplied replaces its own default
    only, whatever the other two are; with enter "a", enterFrom "b",
    enterTo "c" and no leave field, the leave classes are a, c and b. *)
Theorem leave_classes_default
    (sh : option bool) (ap un : bool) (e ef et v : string)
    (l lf lt : option string) :
  let mk l lf lt :=
    {| p_show := sh; p_appear := ap; p_unmount := un;
       p_enter := e; p_enterFrom := ef; p_enterTo := et;
       p_leave := l; p_leaveFrom := lf; p_leaveTo := lt |} in
  (leaveClasses (mk None lf lt) = enterClasses (mk None lf lt) /\
   leaveFromClasses (mk l None lt) = enterToClasses (mk l None lt) /\
   leaveToClasses (mk l lf None) = enterFromClasses (mk l lf None)) /\
  (leaveClasses (mk (Some v) lf lt) = classes v /\
   leaveFromClasses (mk l (Some v) lt) = classes v /\
   leaveToClasses (mk l lf (Some v)) = classes v) /\
  (let abc :=
     {| p_show := sh; p_appear := ap; p_unmount := un;
        p_enter := "a"; p_enterFrom := "b"; p_enterTo := "c";
        p_leave := None; p_leaveFrom := None; p_leaveTo := None |} in
   leaveClasses abc = ["a"] /\ leaveFromClasses abc = ["c"] /\
   leaveToClasses abc = ["b"]).
Proof. repeat split. Qed.

(** The sentinel is [null], not the empty string: an empty [leave] is a
    supplied value and gives no classes. *)
Example leave_empty_string_is_set :
  leaveClasses
    {| p_show := None; p_appear := false; p_unmount := false;
       p_enter := "a"; p_enterFrom := "b"; p_enterTo := "c";
       p_leave := Some ""; p_leaveFrom := None; p_leaveTo := None |} = [].
Proof. reflexivity. Qed.

(** ** The wait for the native transition-completion signal *)

Lemma deliver_app (ls ms : list listener) :
  deliver (ls ++ ms) =
  (List.filter (fun l => negb (l_once l)) ls
     ++ List.filter (fun l => negb (l_once l)) ms,
   List.concat (List.map l_body ls) ++ List.concat (List.map l_body ms),
   existsb (fun h => match h with StopPropagation => true | _ => false end)
     (List.concat (List.map l_body ls) ++ List.concat (List.map l_body ms))).
Proof.
  unfold deliver. rewrite List.filter_app, List.map_app, List.concat_app.
  reflexivity.
Qed.

(** C7: with an empty class list [transitionEnd] registers no listener
    and returns a promise that is resolved already.  With a class list
    that is not empty it registers one [once] listener and returns a
    pending promise; the first [transitionend] event at the element runs
    that listener, which resolves the promise, takes the listener off the
    element, and stops at the element: no listener of an ancestor runs
    and the ancestors keep their listeners. *)
Theorem transitionEnd_single_fire
    (a : nat) (ls : list listener) (up : list (list listener))
    (t : string) (ts : list string) :
  transitionEnd a [] ls = (ls, Fulfilled) /\
  let mine := {| l_once := true; l_body := [StopPropagation; Resolve a] |} in
  transitionEnd a (t :: ts) ls = (ls ++ [mine], Pending) /\
  bubble ((ls ++ [mine]) :: up) =
    (List.filter (fun l => negb (l_once l)) ls :: up,
     List.concat (List.map l_body ls) ++ [StopPropagation; Resolve a]) /\
  ~ In mine (List.filter (fun l => negb (l_once l)) ls) /\
  bubble ([mine] :: up) = ([] :: up, [StopPropagation; Resolve a]).
Proof.
  split; [reflexivity|]. cbv zeta. split; [reflexivity|]. split.
  - cbn [bubble]. rewrite deliver_app. cbn [List.filter List.map List.concat
      l_once l_body negb app].
    rewrite List.app_nil_r.
    replace (existsb _ _) with true.
    + reflexivity.
    + symmetry. apply existsb_exists. exists StopPropagation. split; [|reflexivity].
      apply in_or_app. right. left. reflexivity.
  - split; [|reflexivity].
    intros H. apply filter_In in H. destruct H as [_ H]. discriminate H.
Qed.

(** ** The counting closure *)

Lemma completed_closure (c : Context) (gs : list gate) (g : nat) (gt : gate) :
  c_completed c = Closure g -> gs !! g = Some gt ->
  completed c gs = <[g := arrive c gt]> gs.
Proof.
  intros Hc Hg. unfold completed. rewrite Hc.
  apply list_eq. intros i. rewrite list_lookup_alter, list_lookup_insert.
  pose proof (lookup_lt_Some _ _ _ Hg) as Hlt.
  destruct (decide (g = i)) as [->|Hne].
  - rewrite Hg. rewrite decide_True by (split; [reflexivity | assumption]). reflexivity.
  - rewrite decide_False by tauto. reflexivity.
Qed.

Lemma iter_completed (c : Context) (gs : list gate) (g : nat) (gt : gate) (k : nat) :
  c_completed c = Closure g -> gs !! g = Some gt ->
  Nat.iter k (completed c) gs = <[g := Nat.iter k (arrive c) gt]> gs.
Proof.
  intros Hc Hg. induction k as [|k IH]; simpl.
  - symmetry. apply list_insert_id. exact Hg.
  - rewrite IH.
    rewrite (completed_closure c _ g (Nat.iter k (arrive c) gt) Hc).
    + apply list_insert_insert_eq.
    + apply list_lookup_insert_eq. eapply lookup_lt_Some. exact Hg.
Qed.

Lemma iter_arrive (c : Context) (a k : nat) :
  Nat.iter k (arrive c) (fresh_gate a) =
  {| g_owner := a; g_count := Z.of_nat k;
     g_resolved := bool_decide (0 < c_count c <= Z.of_nat k);
     g_fired := if bool_decide (0 < c_count c <= Z.of_nat k) then 1%nat else 0%nat |}.
Proof.
  induction k as [|k IH].
  - simpl. rewrite bool_decide_eq_false_2 by lia. reflexivity.
  - rewrite Nat.iter_succ, IH. unfold arrive. cbn [g_owner g_count g_resolved g_fired].
    f_equal.
    + lia.
    + destruct (Z.eqb_spec (Z.of_nat k + 1) (c_count c)) as [E|E].
      * rewrite orb_true_r. symmetry. apply bool_decide_eq_true_2. lia.
      * rewrite orb_false_r. apply bool_decide_ext. lia.
    + destruct (Z.eqb_spec (Z.of_nat k + 1) (c_count c)) as [E|E].
      * rewrite (bool_decide_eq_false_2 (0 < c_count c <= Z.of_nat k)) by lia.
        rewrite bool_decide_eq_true_2 by lia. reflexivity.
      * rewrite (bool_decide_ext (0 < c_count c <= Z.of_nat (S k))
                   (0 < c_count c <= Z.of_nat k)) by lia.
        reflexivity.
Qed.

(** C2: a gate made while the context counts N children.  With N = 0
    nothing is installed and the promise is resolved at once, without a
    call.  Otherwise the closure is installed, and after k calls of
    [context.completed()] the promise is resolved exactly when k has
    reached N; [resolve()] was called once then, and never before or
    again. *)
Theorem gate_resolves_at_Nth_report
    (a : nat) (c : Context) (gs : list gate) (k : nat) :
  let N := c_count c in
  let made := childrenCompleted a c gs in
  let after := Nat.iter k (completed made.1.1) made.1.2 in
  (if decide (N = 0)
   then made = (c, gs, Immediate)
   else made = (with_completed (Closure (length gs)) c,
                gs ++ [fresh_gate a], OfGate (length gs))) /\
  resolved after made.2 = bool_decide (N = 0 \/ 0 < N <= Z.of_nat k) /\
  (if decide (N = 0) then resolved made.1.2 made.2 = true
   else g_fired <$> after !! length gs =
        Some (if bool_decide (0 < N <= Z.of_nat k) then 1%nat else 0%nat)).
Proof.
  cbv zeta. unfold childrenCompleted.
  destruct (Z.eqb_spec (c_count c) 0) as [E|E].
  - rewrite !decide_True by assumption. cbn [fst snd].
    split; [reflexivity|]. split; [|reflexivity].
    simpl. symmetry. apply bool_decide_eq_true_2. left. assumption.
  - rewrite !decide_False by assumption. cbn [fst snd].
    split; [reflexivity|].
    rewrite (iter_completed _ _ (length gs) (fresh_gate a))
      by (reflexivity || apply list_lookup_middle; reflexivity).
    rewrite iter_arrive. cbn [c_count with_completed].
    assert (Hlt : (length gs < length (gs ++ [fresh_gate a]))%nat)
      by (rewrite length_app; simpl; lia).
    split.
    + unfold resolved. rewrite list_lookup_insert_eq by assumption.
      cbn [g_resolved]. apply bool_decide_ext. lia.
    + rewrite list_lookup_insert_eq by assumption. reflexivity.
Qed.

Lemma tally_snoc (ev e : child_event) (evs : list child_event) :
  tally ev (evs ++ [e]) = tally ev evs + (if bool_decide (e = ev) then 1 else 0).
Proof.
  unfold tally. rewrite List.filter_app, length_app. simpl.
  destruct (bool_decide (e = ev)); simpl; lia.
Qed.

(** The closure compares its counter with [context.count] as it is when
    the call is made. *)
Lemma gate_follows_context (evs : list child_event) (c : Context)
    (gs : list gate) (g : nat) (gt : gate) :
  c_completed c = Closure g -> gs !! g = Some gt ->
  let fin := fold_left child_step evs (c, gs) in
  c_completed fin.1 = Closure g /\
  c_count fin.1 = c_count c + tally Subscribes evs - tally Leaves evs /\
  exists gt', fin.2 !! g = Some gt' /\
    g_count gt' = g_count gt + tally Reports evs /\
    (g_resolved gt' = true <->
     g_resolved gt = true \/
     exists pre post, evs = pre ++ Reports :: post /\
       g_count gt + tally Reports pre + 1 =
       c_count c + tally Subscribes pre - tally Leaves pre).
Proof.
  intros Hc Hg. induction evs as [|e evs IH] using rev_ind.
  - simpl. split; [assumption|]. split; [unfold tally; simpl; lia|].
    exists gt. split; [assumption|]. split; [unfold tally; simpl; lia|].
    split; [tauto|].
    intros [H|(pre & post & H & _)]; [assumption|].
    destruct pre; discriminate.
  - cbv zeta in *. rewrite fold_left_app. simpl.
    destruct (fold_left child_step evs (c, gs)) as [c1 gs1].
    cbn [fst snd] in *.
    destruct IH as (Hc1 & Hn1 & gt1 & Hg1 & Hk1 & Hr1).
    rewrite !tally_snoc.
    destruct e; cbn [child_step fst snd with_count c_completed c_count].
    + (* a report *)
      rewrite (completed_closure c1 gs1 g gt1 Hc1 Hg1).
      decide_events.
      repeat split; [assumption | lia |].
      exists (arrive c1 gt1). split.
      { apply list_lookup_insert_eq. eapply lookup_lt_Some. exact Hg1. }
      split; [unfold arrive; simpl; lia|].
      unfold arrive; cbn [g_resolved]. rewrite orb_true_iff, Hr1. split.
      * intros [[H|(pre & post & -> & H)]|H].
        -- left. assumption.
        -- right. exists pre, (post ++ [Reports]). split; [|assumption].
           rewrite <- app_assoc. reflexivity.
        -- right. exists evs, []. split; [reflexivity|].
           apply Z.eqb_eq in H. lia.
      * intros [H|(pre & post & Heq & H)]; [left; left; assumption|].
        destruct post as [|p post _] using rev_ind.
        -- apply app_inj_tail in Heq. destruct Heq as [-> _].
           right. apply Z.eqb_eq. lia.
        -- rewrite app_comm_cons, app_assoc in Heq.
           apply app_inj_tail in Heq. destruct Heq as [-> _].
           left. right. exists pre, post. split; [reflexivity | assumption].
    + (* a child is mounted *)
      decide_events.
      repeat split; [assumption | lia |].
      exists gt1. repeat split; [assumption | lia | |].
      * rewrite Hr1. intros [H|(pre & post & -> & H)]; [left; assumption|].
        right. exists pre, (post ++ [Subscribes]). split; [|assumption].
        rewrite <- app_assoc. reflexivity.
      * rewrite Hr1. intros [H|(pre & post & Heq & H)]; [left; assumption|].
        destruct post as [|p post _] using rev_ind.
        -- apply app_inj_tail in Heq. destruct Heq as [_ Heq]. discriminate.
        -- rewrite app_comm_cons, app_assoc in Heq.
           apply app_inj_tail in Heq. destruct Heq as [-> _].
           right. exists pre, post. split; [reflexivity | assumption].
    + (* a child is destroyed *)
      decide_events.
      repeat split; [assumption | lia |].
      exists gt1. repeat split; [assumption | lia | |].
      * rewrite Hr1. intros [H|(pre & post & -> & H)]; [left; assumption|].
        right. exists pre, (post ++ [Leaves]). split; [|assumption].
        rewrite <- app_assoc. reflexivity.
      * rewrite Hr1. intros [H|(pre & post & Heq & H)]; [left; assumption|].
        destruct post as [|p post _] using rev_ind.
        -- apply app_inj_tail in Heq. destruct Heq as [_ Heq]. discriminate.
        -- rewrite app_comm_cons, app_assoc in Heq.
           apply app_inj_tail in Heq. destruct Heq as [-> _].
           right. exists pre, post. split; [reflexivity | assumption].
Qed.

Lemma tally_all_reports (evs : list child_event) :
  (forall e, In e evs -> e = Reports) ->
  tally Reports evs = Z.of_nat (length evs) /\
  tally Subscribes evs = 0 /\ tally Leaves evs = 0.
Proof.
  unfold tally. induction evs as [|e evs IH]; intros H; [repeat split|].
  rewrite (H e (or_introl eq_refl)) in *.
  destruct IH as (H1 & H2 & H3); [intros; apply H; right; assumption|].
  simpl in *. repeat split; [lia | assumption | assumption].
Qed.

(** C3, as the code has it: the gate of an activation is resolved by the
    first report at which the number of reports made to it equals the
    count of the context at that moment; a child that is mounted or
    destroyed while the activation is in flight changes the number of
    reports the gate needs.  When no child is mounted or destroyed in
    between, the gate needs the count it was created at. *)
Theorem gate_counts_against_live_count
    (a : nat) (c : Context) (gs : list gate) (evs : list child_event) :
  c_count c <> 0 ->
  let made := childrenCompleted a c gs in
  let fin := fold_left child_step evs (made.1.1, made.1.2) in
  (resolved fin.2 made.2 = true <->
   exists pre post, evs = pre ++ Reports :: post /\
     tally Reports pre + 1 =
     c_count c + tally Subscribes pre - tally Leaves pre) /\
  ((forall e, In e evs -> e = Reports) ->
   (resolved fin.2 made.2 = true <-> 0 < c_count c <= Z.of_nat (length evs))).
Proof.
  intros Hn. cbv zeta. unfold childrenCompleted.
  destruct (Z.eqb_spec (c_count c) 0) as [E|_]; [contradiction|].
  cbn [fst snd].
  pose proof (gate_follows_context evs (with_completed (Closure (length gs)) c)
                (gs ++ [fresh_gate a]) (length gs) (fresh_gate a) eq_refl
                (list_lookup_middle _ _ _ _ eq_refl)) as H.
  cbv zeta in H. destruct H as (_ & _ & gt' & Hg & _ & Hr).
  cbn [g_resolved g_count fresh_gate c_count with_completed] in Hr.
  assert (Hmain : resolved (fold_left child_step evs
             (with_completed (Closure (length gs)) c, gs ++ [fresh_gate a])).2
             (OfGate (length gs)) = true <->
           exists pre post, evs = pre ++ Reports :: post /\
             tally Reports pre + 1 =
             c_count c + tally Subscribes pre - tally Leaves pre).
  { unfold resolved. rewrite Hg, Hr. split.
    - intros [H|(pre & post & H1 & H2)]; [discriminate|].
      exists pre, post. split; [assumption | lia].
    - intros (pre & post & H1 & H2). right. exists pre, post.
      split; [assumption | lia]. }
  split; [exact Hmain|].
  intros Hall. rewrite Hmain. split.
  - intros (pre & post & -> & H).
    destruct (tally_all_reports pre) as (H1 & H2 & H3).
    { intros e He. apply Hall. apply in_or_app. left. assumption. }
    rewrite length_app. simpl. lia.
  - intros [Hpos Hle].
    exists (take (Z.to_nat (c_count c) - 1) evs),
           (drop (Z.to_nat (c_count c)) evs).
    assert (Hlen : (Z.to_nat (c_count c) - 1 < length evs)%nat) by lia.
    destruct (lookup_lt_is_Some_2 evs _ Hlen) as [e He].
    assert (e = Reports) as ->.
    { apply Hall. apply list_elem_of_In. eapply list_elem_of_lookup_2. exact He. }
    split.
    + rewrite <- (take_drop_middle evs (Z.to_nat (c_count c) - 1) Reports He) at 1.
      do 3 f_equal. lia.
    + destruct (tally_all_reports (take (Z.to_nat (c_count c) - 1) evs))
        as (H1 & H2 & H3).
      { intros e He'. apply Hall. apply list_elem_of_In.
        apply list_elem_of_In in He'. eapply subseteq_take. exact He'. }
      rewrite H1, H2, H3, length_take. lia.
Qed.

Lemma gate_counts_against_live_count_witness :
  let c := {| c_appear := false; c_show := Some true; c_count := 2;
              c_completed := Default |} in
  c_count c <> 0 /\
  resolved (fold_left child_step [Reports; Reports]
              ((childrenCompleted 0 c []).1.1, (childrenCompleted 0 c []).1.2)).2
    (childrenCompleted 0 c []).2 = true.
Proof.
  split; [discriminate|].
  destruct (gate_counts_against_live_count 0
              {| c_appear := false; c_show := Some true; c_count := 2;
                 c_completed := Default |} [] [Reports; Reports])
    as [[_ H] _]; [discriminate|].
  apply H. exists [Reports], []. split; reflexivity.
Defined.

(** C3 as stated fails: a gate created while the context counts two
    children is resolved by a single report once one child was destroyed,
    and is not resolved by two reports once a third child was mounted. *)
Lemma gate_does_not_keep_sampled_count :
  let c := {| c_appear := false; c_show := Some true; c_count := 2;
              c_completed := Default |} in
  let made := childrenCompleted 0 c [] in
  resolved (fold_left child_step [Leaves; Reports] (made.1.1, made.1.2)).2
    made.2 = true /\
  resolved (fold_left child_step [Subscribes; Reports; Reports]
              (made.1.1, made.1.2)).2 made.2 = false.
Proof. split; reflexivity. Qed.

(** ** How a statement changes the state *)


Lemma exec_effect (unmount hp : bool) (a : nat) (i : instr) (s s' : state)
    (o : outcome) :
  exec unmount hp a i s = (s', o) ->
  (exists f, acts s' = alter f a (acts s) /\
     forall x, keeps x (f x) /\
       (i <> TransitionEnd -> a_transitioned (f x) = a_transitioned x) /\
       (i <> ChildrenCompleted -> a_children (f x) = a_children x)) /\
  (exists more, gates s' = gates s ++ more) /\
  thens s' = thens s /\ executing s' = executing s /\ run s' = run s /\
  (o = Next -> awaits_transition i = false /\ awaits_children i = false) /\
  (exists more, log s' = log s ++ more /\
     ((forall b, i <> SetShow b) -> forall v, ~ In (Notified v) more)) /\
  c_count (context s') = c_count (context s) /\
  (i <> ChildrenCompleted ->
   gates s' = gates s /\ c_completed (context s') = c_completed (context s)).
Proof.
  unfold exec. intros H.
  assert (Hid : acts s = alter (fun x => x) a (acts s))
    by (symmetry; apply list_alter_id; reflexivity).
  destruct (acts s !! a) as [x|] eqn:Hx.
  2:{ inversion H; subst. split.
      - exists (fun x => x). split; [assumption|]. intros; repeat split.
      - split; [exists []; rewrite app_nil_r; reflexivity|].
        repeat split; try discriminate.
        exists []. rewrite app_nil_r. split; [reflexivity|]. intros _ ? []. }
  destruct i; simpl in H; unfold store_set, childrenCompleted in *;
    repeat case_match; simplify_eq/=.
  all: split; [ first [ exists (fun x => x); split; [exact Hid | intros; repeat split; congruence]
             | eexists; split; [reflexivity | intros; repeat split; congruence] ] | ].
  all: split; [ first [ exists []; rewrite app_nil_r; reflexivity | eexists; reflexivity ] | ].
  all: repeat split; try congruence.
  all: try first [ exists []; rewrite app_nil_r; split;
                     [reflexivity | intros _ ? []]
                 | eexists; split;
                     [reflexivity
                     | intros Hb ? Hin; simpl in Hin;
                       repeat (destruct Hin as [Hin|Hin]);
                       try discriminate Hin; try contradiction;
                       exfalso; eapply Hb; reflexivity ] ].
  all: match goal with
       | H : set _ _ = _ |- _ =>
           unfold set in H; case_decide; simplify_eq/=; reflexivity
       end.
Qed.

(** ** Activations follow their statement lists *)

Lemma setup_is_no_wait (i : instr) :
  is_setup i = true -> awaits_transition i || awaits_children i = false.
Proof.
  unfold is_setup. intros H. apply bool_decide_eq_true in H.
  destruct H as [->| ->]; reflexivity.
Qed.

Lemma setup_before_joint_spec (d : list instr) (seen : bool) (i : instr)
    (r : list instr) :
  setup_before_joint seen (d ++ i :: r) = true -> is_setup i = true ->
  seen = false /\
  forall w, In w d -> awaits_transition w || awaits_children w = false.
Proof.
  revert seen. induction d as [|j d IH]; intros seen H Hi; simpl in H.
  - rewrite (setup_is_no_wait i Hi), Hi in H.
    destruct seen; [discriminate|]. split; [reflexivity|]. intros w [].
  - destruct (awaits_transition j || awaits_children j) eqn:E.
    + apply IH in H; [|assumption]. destruct H; discriminate.
    + destruct (seen && is_setup j); [discriminate|].
      apply IH in H; [|assumption]. destruct H as [-> H].
      split; [reflexivity|]. intros w [<-|Hd]; [assumption | apply H; assumption].
Qed.

Lemma program_shape (sc : script) (show : bool) (d : list instr) (i : instr)
    (r : list instr) (w : instr) :
  d ++ i :: r = program sc show -> is_setup i = true -> In w d ->
  awaits_transition w = false /\ awaits_children w = false.
Proof.
  intros H Hi Hw.
  assert (Hp : setup_before_joint false (program sc show) = true)
    by (destruct sc, show; reflexivity).
  rewrite <- H in Hp.
  destruct (setup_before_joint_spec _ _ _ _ Hp Hi) as [_ Hd].
  apply orb_false_elim. apply Hd. assumption.
Qed.

Lemma grows_refl (gs : list gate) : grows gs gs.
Proof. intros p H. exact H. Qed.

Lemma grows_app (gs more : list gate) : grows gs (gs ++ more).
Proof.
  intros [| |g]; simpl; try done.
  destruct (gs !! g) as [gt|] eqn:E; [|discriminate].
  rewrite (lookup_app_l_Some _ _ _ _ E). done.
Qed.

Lemma grows_completed (c : Context) (gs : list gate) : grows gs (completed c gs).
Proof.
  unfold completed. destruct (c_completed c) as [|g]; [apply grows_refl|].
  intros [| |h]; simpl; try done.
  rewrite list_lookup_alter.
  destruct (gs !! h) as [gt|] eqn:E; [|discriminate].
  intros Hr. destruct (decide (g = h)) as [->|]; simpl; [|assumption].
  rewrite E. unfold arrive. simpl. rewrite Hr. reflexivity.
Qed.

Lemma follows_grows (sc : script) (ps : Props) (gs gs' : list gate)
    (x y : activation) (rest : list instr) :
  grows gs gs' -> a_done y = a_done x -> a_show y = a_show x ->
  a_base y = a_base x -> a_from y = a_from x -> a_to y = a_to x ->
  a_transitioned y = a_transitioned x \/ a_transitioned y = Some true ->
  a_children y = a_children x ->
  follows sc ps gs x rest -> follows sc ps gs' y rest.
Proof.
  intros Hg Hd Hs Hb Hf Ht Htr Hc (H1 & H2 & H3).
  unfold follows. rewrite Hd, Hs, Hb, Hf, Ht, Hc.
  split; [assumption|]. split; [assumption|]. intros w Hw.
  destruct (H3 w Hw) as [Ha Hb']. split.
  - intros Hwt. destruct Htr as [Htr | Htr]; rewrite Htr;
      [apply Ha; assumption | reflexivity].
  - intros Hwc. apply Hg. apply Hb'. assumption.
Qed.

Lemma inv_ext (sc : script) (ps : Props) (s s' : state) :
  acts s' = acts s -> gates s' = gates s -> inv sc ps s -> inv sc ps s'.
Proof. unfold inv. intros -> ->. done. Qed.

Lemma mid_ext (sc : script) (ps : Props) (a : nat) (prog : list instr)
    (s s' : state) :
  acts s' = acts s -> gates s' = gates s -> mid sc ps a prog s ->
  mid sc ps a prog s'.
Proof. unfold mid. intros -> ->. done. Qed.

(** One statement of a running activation. *)
Lemma exec_mid (sc : script) (ps : Props) (hp : bool) (a : nat) (i : instr)
    (rest : list instr) (s s' : state) (o : outcome) :
  mid sc ps a (i :: rest) s ->
  exec (p_unmount ps) hp a i s = (s', o) ->
  match o with
  | Next => mid sc ps a rest (on_act a (act_done i) s')
  | Suspend => inv sc ps (on_act a (act_suspend i rest) s')
  | Throw => inv sc ps (on_act a (act_throw (i :: rest)) s')
  end.
Proof.
  intros [(x & Hx & Hpre & Hcl & Hj) Hoth] He.
  destruct (exec_effect _ _ _ _ _ _ _ He)
    as ((f & Hacts & Hf) & (more & Hgs) & _ & _ & _ & Hnext & _).
  destruct (Hf x) as ((K1 & K2 & K3 & K4 & K5 & K6 & K7 & K8) & Ktr & Kch).
  assert (Hg : grows (gates s) (gates s'))
    by (rewrite Hgs; apply grows_app).
  assert (Hflags : forall w, In w (a_done x) ->
            (awaits_transition w = true -> a_transitioned (f x) = Some true) /\
            (awaits_children w = true ->
             resolved (gates s') (a_children (f x)) = true)).
  { intros w Hin.
    destruct (is_setup i) eqn:Hns.
    { destruct (program_shape _ _ _ _ _ w Hpre Hns Hin) as [-> ->].
      split; discriminate. }
    apply bool_decide_eq_false in Hns.
    rewrite Ktr, Kch by tauto. destruct (Hj w Hin) as [Ha Hb]. split.
    - assumption.
    - intros Hwc. apply Hg. apply Hb. assumption. }
  assert (Hother : forall g b y, b <> a ->
            acts (on_act a g s') !! b = Some y ->
            follows sc ps (gates s') y (wait_list y ++ a_rest y)).
  { intros g b y Hb Hy. simpl in Hy.
    rewrite list_lookup_alter_ne, Hacts, list_lookup_alter_ne in Hy by congruence.
    eapply follows_grows; [exact Hg | try reflexivity ..|]; [left; reflexivity|].
    apply (Hoth b); assumption. }
  assert (Hself : forall g, acts (on_act a g s') !! a = Some (g (f x))).
  { intros g. simpl. rewrite list_lookup_alter_eq, Hacts, list_lookup_alter_eq, Hx.
    reflexivity. }
  destruct o.
  - split.
    + exists (act_done i (f x)). split; [apply Hself|].
      unfold follows. simpl. rewrite K1, K2, K3, K4, K5.
      split; [rewrite <- app_assoc; exact Hpre|]. split; [assumption|].
      intros w Hin. apply in_app_or in Hin. destruct Hin as [Hin|[Hi|[]]].
      * apply Hflags. assumption.
      * subst w. destruct (Hnext eq_refl) as [-> ->]. split; discriminate.
    + intros b y Hb Hy. eapply Hother; eassumption.
  - intros b y Hy. destruct (decide (b = a)) as [->|Hb].
    + rewrite Hself in Hy. inversion Hy; subst y. clear Hy.
      unfold follows, wait_list. simpl. rewrite K1, K2, K3, K4, K5.
      split; [assumption|]. split; [assumption|]. exact Hflags.
    + eapply Hother; eassumption.
  - intros b y Hy. destruct (decide (b = a)) as [->|Hb].
    + rewrite Hself in Hy. inversion Hy; subst y. clear Hy.
      unfold follows, wait_list. simpl. rewrite K1, K2, K3, K4, K5.
      split; [assumption|]. split; [assumption|]. exact Hflags.
    + eapply Hother; eassumption.
Qed.

Lemma run_sync_inv (sc : script) (ps : Props) (hp : bool) (a : nat)
    (prog : list instr) (s : state) :
  mid sc ps a prog s -> inv sc ps (run_sync (p_unmount ps) hp a prog s).
Proof.
  revert s. induction prog as [|i rest IH]; intros s H; simpl.
  - destruct H as [(x & Hx & Hpre & Hcl & Hj) Hoth].
    rewrite app_nil_r in Hpre.
    intros b y Hy. simpl in Hy. destruct (decide (b = a)) as [->|Hb].
    + rewrite list_lookup_alter_eq, Hx in Hy. inversion Hy; subst y.
      unfold follows, wait_list. simpl. rewrite app_nil_r.
      split; [assumption|]. split; assumption.
    + rewrite list_lookup_alter_ne in Hy by congruence.
      apply (Hoth b); assumption.
  - destruct (exec (p_unmount ps) hp a i (st_log (Did a i) s)) as [s' o] eqn:He.
    pose proof (exec_mid sc ps hp a i rest _ s' o
                  (mid_ext sc ps a _ s (st_log (Did a i) s) eq_refl eq_refl H)
                  He) as Hm.
    destruct o; [apply IH; assumption | assumption |].
    eapply inv_ext; [| |exact Hm]; reflexivity.
Qed.

Lemma resume_inv (sc : script) (ps : Props) (hp : bool) (a : nat) (s : state) :
  inv sc ps s -> inv sc ps (resume (p_unmount ps) hp a s).
Proof.
  intros H. unfold resume.
  destruct (acts s !! a) as [x|] eqn:Hx; [|assumption].
  destruct (a_wait x) as [i|] eqn:Hw; [|assumption].
  destruct (ready s x i) eqn:Hr; [|assumption].
  apply run_sync_inv.
  eapply (mid_ext _ _ _ _ (on_act a (act_done i) s));
    [destruct i; reflexivity | destruct i; reflexivity |].
  destruct (H a x Hx) as (Hpre & Hcl & Hj).
  unfold wait_list in Hpre. rewrite Hw in Hpre. split.
  - exists (act_done i x). split.
    + simpl. rewrite list_lookup_alter_eq, Hx. reflexivity.
    + unfold follows. simpl. split; [rewrite <- app_assoc; exact Hpre|].
      split; [assumption|].
      intros w Hin. apply in_app_or in Hin. destruct Hin as [Hin|[Hi|[]]].
      * apply Hj. assumption.
      * subst w. split; intros Hi; apply bool_decide_eq_true in Hi;
          destruct Hi as [Hi|Hi]; subst i; simpl in Hr.
        -- apply andb_prop in Hr. destruct Hr as [H1 _].
           apply bool_decide_eq_true in H1. assumption.
        -- apply bool_decide_eq_true in Hr. assumption.
        -- apply andb_prop in Hr. destruct Hr as [_ H2]. assumption.
        -- assumption.
  - intros b y Hb Hy. simpl in Hy.
    rewrite list_lookup_alter_ne in Hy by congruence. apply (H b); assumption.
Qed.

Lemma start_inv (sc : script) (ps : Props) (hp : bool) (show : bool)
    (s : state) :
  inv sc ps s ->
  inv sc ps
    (start (p_unmount ps) hp show (classes_of ps show).1.1
       (classes_of ps show).1.2 (classes_of ps show).2 (program sc show) s).
Proof.
  intros H. unfold start. apply run_sync_inv. split.
  - eexists. split.
    + simpl. apply list_lookup_middle. reflexivity.
    + unfold follows. simpl. split; [reflexivity|]. split; [|intros w []].
      destruct (classes_of ps show) as [[? ?] ?]. reflexivity.
  - intros b y Hb Hy. simpl in Hy. simpl.
    apply lookup_app_Some in Hy. destruct Hy as [Hy|[Hlen Hy]].
    + apply (H b); assumption.
    + destruct (b - length (acts s))%nat eqn:E; [lia|]. discriminate Hy.
Qed.

Lemma on_act_inv (sc : script) (ps : Props) (a : nat)
    (f : activation -> activation) (s : state) :
  (forall x, keeps x (f x) /\
     (a_transitioned (f x) = a_transitioned x \/
      a_transitioned (f x) = Some true) /\
     a_children (f x) = a_children x) ->
  inv sc ps s -> inv sc ps (on_act a f s).
Proof.
  intros Hf H b y Hy. simpl in *.
  rewrite list_lookup_alter in Hy. destruct (decide (a = b)) as [->|Hb].
  - destruct (acts s !! b) as [x|] eqn:Hx; [|discriminate].
    inversion Hy; subst y.
    destruct (Hf x) as ((K1 & K2 & K3 & K4 & K5 & K6 & K7 & K8) & Ktr & Kch).
    unfold wait_list. rewrite K6, K7.
    eapply follows_grows; [apply grows_refl | try eassumption ..].
    apply (H b). assumption.
  - apply (H b). assumption.
Qed.

Lemma frame_inv (sc : script) (ps : Props) (a : nat) (s : state) :
  inv sc ps s -> inv sc ps (frame a s).
Proof.
  intros H. unfold frame. repeat case_match; try assumption.
  apply on_act_inv; [|assumption]. intros x. repeat split. left. reflexivity.
Qed.

Lemma parent_settled_inv (sc : script) (ps : Props) (a : nat) (s : state) :
  inv sc ps s -> inv sc ps (parent_settled a s).
Proof.
  intros H. unfold parent_settled. repeat case_match; try assumption.
  apply on_act_inv; [|assumption]. intros x. repeat split. left. reflexivity.
Qed.

Lemma perform_inv (sc : script) (ps : Props) (hs : list haction) (s : state) :
  inv sc ps s -> inv sc ps (fold_left (fun s h => perform h s) hs s).
Proof.
  revert s. induction hs as [|h hs IH]; intros s H; simpl; [assumption|].
  apply IH. destruct h; simpl; [assumption|].
  apply on_act_inv; [|assumption]. intros x. repeat split. right. reflexivity.
Qed.

Lemma transitionend_inv (sc : script) (ps : Props) (s : state) :
  inv sc ps s -> inv sc ps (transitionend s).
Proof.
  intros H. unfold transitionend.
  destruct (deliver (listeners s)) as [[ls performed] stopped].
  apply perform_inv. eapply inv_ext; [| |exact H]; reflexivity.
Qed.

Lemma child_reported_inv (sc : script) (ps : Props) (s : state) :
  inv sc ps s -> inv sc ps (child_reported s).
Proof.
  intros H a x Hx. simpl in *.
  eapply follows_grows; [apply grows_completed | try reflexivity ..|];
    [left; reflexivity|].
  apply (H a). assumption.
Qed.

Lemma animate_inv (sc : script) (ps : Props) (hp : bool) (show : option bool)
    (s : state) :
  inv sc ps s ->
  inv sc ps (match sc with
             | FirstScript => Legacy.animate ps hp show s
             | SecondScript => Slots.animate ps hp show s
             | RunesScript => Runes.animate ps hp show s
             end).
Proof.
  intros H.
  destruct sc; unfold Legacy.animate, Slots.animate, Runes.animate;
    destruct (is_true show).
  - apply (start_inv FirstScript ps hp true). assumption.
  - apply (start_inv FirstScript ps hp false). assumption.
  - apply (start_inv SecondScript ps hp true). assumption.
  - apply (start_inv SecondScript ps hp false). assumption.
  - apply (start_inv RunesScript ps hp true). assumption.
  - apply (start_inv RunesScript ps hp false). assumption.
Qed.

Lemma store_set_acts (v : option bool) (s : state) :
  acts (store_set v s) = acts s /\ gates (store_set v s) = gates s.
Proof. unfold store_set. destruct (set v (context s)) as [c []]; done. Qed.

Lemma execute_inv (sc : script) (ps : Props) (hp : bool) (show : option bool)
    (s : state) :
  inv sc ps s -> inv sc ps (execute sc ps hp show s).
Proof.
  intros H. destruct sc; simpl.
  - unfold Legacy.execute.
    pose proof (animate_inv FirstScript ps hp show) as Ha. simpl in Ha.
    assert (Hs : forall t, inv FirstScript ps t ->
                   inv FirstScript ps (st_run true (store_set show t))).
    { intros t Ht. eapply inv_ext; [| |exact Ht]; simpl; apply store_set_acts. }
    destruct (run s); [apply Hs, Ha, H|].
    destruct (el (st_wrapper true s)); [|exact H].
    destruct (p_appear ps); apply Hs; [apply Ha|]; exact H.
  - unfold Slots.execute.
    pose proof (animate_inv SecondScript ps hp show s H) as Ha. simpl in Ha.
    destruct (run s); [exact Ha | exact H].
  - unfold Runes.execute.
    pose proof (animate_inv RunesScript ps hp show s H) as Ha. simpl in Ha.
    destruct (run s); [exact Ha | exact H].
Qed.

Lemma step_inv (sc : script) (ps : Props) (hp : bool) (ev : event) (s : state) :
  inv sc ps s -> inv sc ps (step sc ps hp ev s).
Proof.
  intros H. destruct ev; simpl.
  - destruct sc; simpl.
    + unfold Legacy.update. apply (execute_inv FirstScript). exact H.
    + apply (execute_inv SecondScript). exact H.
    + exact H.
  - destruct hp; [apply execute_inv|]; exact H.
  - unfold run_then. destruct (thens s !! k) as [[p show]|]; [|exact H].
    case_match; [|exact H]. apply execute_inv. exact H.
  - apply resume_inv. exact H.
  - apply frame_inv. exact H.
  - apply transitionend_inv. exact H.
  - apply parent_settled_inv. exact H.
  - exact H.
  - exact H.
  - apply child_reported_inv. exact H.
Qed.

Lemma steps_inv (sc : script) (ps : Props) (hp : bool) (evs : list event)
    (s : state) :
  inv sc ps s -> inv sc ps (steps sc ps hp evs s).
Proof.
  revert s. induction evs as [|ev evs IH]; intros s H; simpl; [exact H|].
  apply IH. apply step_inv. exact H.
Qed.

Lemma transition_inv (sc : script) (ps : Props)
    (ancestor : option (bool * option bool)) (kids : Z) :
  inv sc ps (transition sc ps ancestor kids).
Proof.
  destruct sc; simpl;
    unfold Legacy.transition, Slots.transition, Runes.transition;
    destruct (find_parent ps ancestor) as [[pa v]|].
  - apply (execute_inv FirstScript). intros a x Hx. discriminate Hx.
  - apply (execute_inv FirstScript). intros a x Hx. discriminate Hx.
  - apply (execute_inv SecondScript). intros a x Hx. discriminate Hx.
  - apply (execute_inv SecondScript). intros a x Hx. discriminate Hx.
  - apply (execute_inv RunesScript). intros a x Hx. discriminate Hx.
  - apply (execute_inv RunesScript). intros a x Hx. discriminate Hx.
Qed.

(** Every activation of every script, at any time of the life of the
    component, follows its statement list. *)
Lemma lifetime_inv (sc : script) (ps : Props)
    (ancestor : option (bool * option bool)) (kids : Z) (evs : list event) :
  inv sc ps (lifetime sc ps ancestor kids evs).
Proof. apply steps_inv. apply transition_inv. Qed.

Lemma earlier_spec (i j : instr) (d r : list instr) :
  earlier i j (d ++ r) = true -> In j d -> In i d.
Proof.
  induction d as [|k d IH]; simpl; [tauto|]. intros H Hj.
  destruct (bool_decide (k = i)) eqn:Ei.
  - left. apply bool_decide_eq_true in Ei. assumption.
  - destruct (bool_decide (k = j)) eqn:Ej; [discriminate|].
    apply bool_decide_eq_false in Ej.
    destruct Hj as [Hj|Hj]; [contradiction|]. right. apply IH; assumption.
Qed.

(** Where [follows] holds, a statement that is done has all the
    statements before it done. *)
Lemma done_in_order (sc : script) (ps : Props) (gs : list gate)
    (x : activation) (rest : list instr) (i j : instr) :
  follows sc ps gs x rest ->
  earlier i j (program sc (a_show x)) = true ->
  In j (a_done x) -> In i (a_done x).
Proof.
  intros (Hpre & _) He. rewrite <- Hpre in He. eapply earlier_spec. exact He.
Qed.

(** ** Class names handed to the element *)

Lemma classes_of_nonempty (ps : Props) (show : bool) :
  Forall (fun n => n <> "") (classes_of ps show).1.1 /\
  Forall (fun n => n <> "") (classes_of ps show).1.2 /\
  Forall (fun n => n <> "") (classes_of ps show).2.
Proof. destruct show; simpl; repeat split; apply classes_nonempty. Qed.

(** C10: [classes] gives no class for the empty string; its tokens are
    never empty and hold no space, whatever spaces lead, trail or repeat
    in the string; and every class list that an activation hands to
    [classList.add] or [classList.remove] is made of such tokens. *)
Theorem classes_never_yields_empty_name
    (sc : script) (ps : Props) (ancestor : option (bool * option bool))
    (kids : Z) (evs : list event) (a : nat) (x : activation)
    (rs : list role) (str : string) :
  classes "" = [] /\
  Forall (fun n => n <> "" /\ has_space n = false) (classes str) /\
  (acts (lifetime sc ps ancestor kids evs) !! a = Some x ->
   Forall (fun n => n <> "") (names_of x rs)).
Proof.
  split; [reflexivity|]. split.
  - apply Forall_and. split; [apply classes_nonempty | apply classes_no_space].
  - intros Hx.
    destruct (lifetime_inv sc ps ancestor kids evs a x Hx) as (_ & Hcl & _).
    pose proof (classes_of_nonempty ps (a_show x)) as (Hb & Hf & Ht).
    rewrite <- Hcl in Hb, Hf, Ht. simpl in Hb, Hf, Ht.
    unfold names_of. induction rs as [|r rs IH]; simpl; [constructor|].
    apply Forall_app. split; [|exact IH]. destruct r; assumption.
Qed.

(** ** What a run of an activation leaves alone *)

Lemma untouched_refl (a : nat) (s : state) : untouched a s s.
Proof.
  repeat split. exists []. rewrite app_nil_r. reflexivity.
Qed.

Lemma untouched_trans (a : nat) (s1 s2 s3 : state) :
  untouched a s1 s2 -> untouched a s2 s3 -> untouched a s1 s3.
Proof.
  intros (A1 & A2 & A3 & A4 & A5 & (m1 & A6) & A7)
         (B1 & B2 & B3 & B4 & B5 & (m2 & B6) & B7).
  repeat split; try congruence.
  - intros b Hb. rewrite B2, A2 by assumption. reflexivity.
  - exists (m1 ++ m2). rewrite B6, A6, app_assoc. reflexivity.
Qed.

Lemma untouched_on_act (a : nat) (f : activation -> activation) (s : state) :
  untouched a s (on_act a f s).
Proof.
  repeat split; simpl.
  - apply length_alter.
  - intros b Hb. apply list_lookup_alter_ne. congruence.
  - exists []. rewrite app_nil_r. reflexivity.
Qed.

Lemma untouched_log (a : nat) (e : entry) (s : state) :
  untouched a s (st_log e s).
Proof. repeat split. exists [e]. reflexivity. Qed.

Lemma untouched_exec (unmount hp : bool) (a : nat) (i : instr) (s s' : state)
    (o : outcome) :
  exec unmount hp a i s = (s', o) -> untouched a s s'.
Proof.
  intros H. destruct (exec_effect _ _ _ _ _ _ _ H)
    as ((f & Hacts & _) & _ & H1 & H2 & H3 & _ & (m & H4 & _) & H5 & _).
  repeat split; try assumption.
  - rewrite Hacts. apply length_alter.
  - intros b Hb. rewrite Hacts. apply list_lookup_alter_ne. congruence.
  - exists m. assumption.
Qed.

Lemma run_sync_untouched (unmount hp : bool) (a : nat) (prog : list instr)
    (s : state) :
  untouched a s (run_sync unmount hp a prog s).
Proof.
  revert s. induction prog as [|i rest IH]; intros s; simpl.
  - apply untouched_on_act.
  - destruct (exec unmount hp a i (st_log (Did a i) s)) as [s' o] eqn:He.
    pose proof (untouched_trans a _ _ _ (untouched_log a (Did a i) s)
                  (untouched_exec _ _ _ _ _ _ _ He)) as H.
    destruct o.
    + eapply untouched_trans; [exact H|].
      eapply untouched_trans; [apply untouched_on_act | apply IH].
    + eapply untouched_trans; [exact H | apply untouched_on_act].
    + eapply untouched_trans; [exact H|].
      eapply untouched_trans; [apply untouched_log | apply untouched_on_act].
Qed.

(** Only [childrenCompleted] writes [context.completed], makes a gate
    and assigns the promise [children]. *)
Lemma run_sync_gates (unmount hp : bool) (a : nat) (prog : list instr)
    (s : state) :
  ~ In ChildrenCompleted prog ->
  gates (run_sync unmount hp a prog s) = gates s /\
  c_completed (context (run_sync unmount hp a prog s))
  = c_completed (context s) /\
  a_children <$> acts (run_sync unmount hp a prog s) !! a
  = a_children <$> acts s !! a.
Proof.
  revert s. induction prog as [|i rest IH]; intros s Hn; simpl.
  { repeat split. rewrite list_lookup_alter_eq. destruct (acts s !! a); done. }
  destruct (exec unmount hp a i (st_log (Did a i) s)) as [s' o] eqn:He.
  destruct (exec_effect _ _ _ _ _ _ _ He)
    as ((f & Hacts & Hf) & _ & _ & _ & _ & _ & _ & _ & Hg).
  assert (Hi : i <> ChildrenCompleted) by (intros ->; apply Hn; left; reflexivity).
  destruct (Hg Hi) as [Hg1 Hg2].
  assert (Hch : forall g, (forall y, a_children (g y) = a_children y) ->
            a_children <$> alter g a (acts s') !! a = a_children <$> acts s !! a).
  { intros g Hgy. rewrite list_lookup_alter_eq, Hacts. simpl.
    rewrite list_lookup_alter_eq. destruct (acts s !! a) as [y|]; [|done].
    simpl. rewrite Hgy. f_equal. apply Hf. assumption. }
  destruct o; simpl.
  - destruct (IH (on_act a (act_done i) s')) as (I1 & I2 & I3);
      [intros Hin; apply Hn; right; assumption|].
    rewrite I1, I2, I3. simpl. repeat split; try assumption.
    apply Hch. reflexivity.
  - repeat split; try assumption. apply Hch. reflexivity.
  - repeat split; try assumption. apply Hch. reflexivity.
Qed.

Lemma run_sync_next (unmount hp : bool) (a : nat) (i : instr)
    (rest : list instr) (s s' : state) :
  exec unmount hp a i (st_log (Did a i) s) = (s', Next) ->
  run_sync unmount hp a (i :: rest) s
  = run_sync unmount hp a rest (on_act a (act_done i) s').
Proof. intros H. simpl. rewrite H. reflexivity. Qed.

Lemma app_cons_unique (i : instr) (d r d' r' : list instr) :
  d ++ i :: r = d' ++ i :: r' -> ~ In i d' -> ~ In i r' -> d = d' /\ r = r'.
Proof.
  revert d'. induction d as [|k d IH]; intros [|k' d'] H Hd Hr; simpl in *.
  - inversion H. done.
  - inversion H; subst. tauto.
  - inversion H; subst. exfalso. apply Hr. apply in_or_app. right. left. reflexivity.
  - inversion H; subst. destruct (IH d') as [-> ->]; [assumption|tauto|assumption|].
    done.
Qed.

(** Only [set(show)] tells the subscribers of the store. *)
Lemma run_sync_quiet (unmount hp : bool) (a : nat) (prog : list instr)
    (s : state) :
  (forall b, ~ In (SetShow b) prog) ->
  exists more, log (run_sync unmount hp a prog s) = log s ++ more /\
    forall v, ~ In (Notified v) more.
Proof.
  revert s. induction prog as [|i rest IH]; intros s Hn; simpl.
  { exists []. rewrite app_nil_r. split; [reflexivity | intros v []]. }
  destruct (exec unmount hp a i (st_log (Did a i) s)) as [s' o] eqn:He.
  destruct (exec_effect _ _ _ _ _ _ _ He)
    as (_ & _ & _ & _ & _ & _ & (m & Hm & Hq) & _).
  assert (Hi : forall b, i <> SetShow b)
    by (intros b ->; apply (Hn b); left; reflexivity).
  simpl in Hm. destruct o; simpl.
  - destruct (IH (on_act a (act_done i) s')) as (m' & Hm' & Hq');
      [intros b Hin; apply (Hn b); right; assumption|].
    exists (Did a i :: m ++ m'). split.
    + rewrite Hm'. simpl. rewrite Hm, <- !app_assoc. reflexivity.
    + intros v [Hin|Hin]; [discriminate Hin|].
      apply in_app_or in Hin. destruct Hin as [Hin|Hin];
        [apply (Hq Hi v Hin) | apply (Hq' v Hin)].
  - exists (Did a i :: m). split.
    + rewrite Hm, <- app_assoc. reflexivity.
    + intros v [Hin|Hin]; [discriminate Hin | apply (Hq Hi v Hin)].
  - exists (Did a i :: m ++ [Threw a i]). split.
    + rewrite Hm, <- !app_assoc. reflexivity.
    + intros v [Hin|Hin]; [discriminate Hin|].
      apply in_app_or in Hin. destruct Hin as [Hin|[Hin|[]]];
        [apply (Hq Hi v Hin) | discriminate Hin].
Qed.

(** ** The gate and the broadcast *)

Lemma rest_after_mount (sc : script) (ps : Props) (gs : list gate)
    (x : activation) (st : bool) (r : list instr) :
  sc <> FirstScript ->
  follows sc ps gs x (EnsureMounted st :: r) ->
  exists tail,
    r = NewCompleted :: ChildrenCompleted :: SetShow (a_show x) :: tail /\
    ~ In ChildrenCompleted tail.
Proof.
  intros Hsc (Hpre & _).
  assert (Hin : In (EnsureMounted st) (program sc (a_show x)))
    by (rewrite <- Hpre; apply in_elt).
  destruct sc; [congruence| |]; destruct (a_show x); simpl in Hin, Hpre;
    (repeat (destruct Hin as [Hin|Hin]; [try discriminate Hin|]);
     [|contradiction]); inversion Hin; subst st.
  - apply (app_cons_unique _ _ _ [Dispatch BeforeEnter; WrapperShow true]) in Hpre.
    + destruct Hpre as [_ ->]. eexists. split; [reflexivity|].
      simpl. intuition discriminate.
    + simpl. intuition discriminate.
    + simpl. intuition discriminate.
  - apply (app_cons_unique _ _ _ [Dispatch BeforeLeave]) in Hpre.
    + destruct Hpre as [_ ->]. eexists. split; [reflexivity|].
      simpl. intuition discriminate.
    + simpl. intuition discriminate.
    + simpl. intuition discriminate.
  - apply (app_cons_unique _ _ _ [Dispatch BeforeEnter; WrapperShow true]) in Hpre.
    + destruct Hpre as [_ ->]. eexists. split; [reflexivity|].
      simpl. intuition discriminate.
    + simpl. intuition discriminate.
    + simpl. intuition discriminate.
  - apply (app_cons_unique _ _ _ [Dispatch BeforeLeave]) in Hpre.
    + destruct Hpre as [_ ->]. eexists. split; [reflexivity|].
      simpl. intuition discriminate.
    + simpl. intuition discriminate.
    + simpl. intuition discriminate.
Qed.

(** In the second script and in the script with runes an activation that
    comes back from [ensureMountedElement] makes its promise [completed],
    calls [childrenCompleted] and only then sets the store.  When the
    context counts at least one child, the call has installed a fresh
    closure with its counter at zero, owned by this activation, and the
    next report is counted by that closure and by no older one; when the
    context counts no child, [context.completed] is left as it was and
    the promise of the gate is resolved already. *)
Lemma apply_makes_gate_before_broadcast
    (sc : script) (ps : Props) (ancestor : option (bool * option bool))
    (kids : Z) (evs : list event) (a : nat) (x : activation) (st : bool) :
  sc <> FirstScript ->
  let hp := has_parent ps ancestor in
  let s := lifetime sc ps ancestor kids evs in
  acts s !! a = Some x ->
  a_wait x = Some (EnsureMounted st) ->
  let s' := step sc ps hp (Resume a) s in
  let g := length (gates s) in
  (exists more,
     log s' = log s ++ [Resumed a (EnsureMounted st); Did a NewCompleted;
                        Did a ChildrenCompleted; Did a (SetShow (a_show x))]
                    ++ more) /\
  (if decide (c_count (context s) = 0)
   then c_completed (context s') = c_completed (context s) /\
        gates s' = gates s /\
        a_children <$> acts s' !! a = Some Immediate
   else c_completed (context s') = Closure g /\
        gates s' = gates s ++ [fresh_gate a] /\
        a_children <$> acts s' !! a = Some (OfGate g) /\
        gates (step sc ps hp ChildReported s')
        = gates s ++ [arrive (context s') (fresh_gate a)]).
Proof.
  intros Hsc hp s Hx Hw s' g.
  pose proof (lifetime_inv sc ps ancestor kids evs a x Hx) as Hfol.
  unfold wait_list in Hfol. rewrite Hw in Hfol. simpl in Hfol.
  destruct (rest_after_mount sc ps _ x st _ Hsc Hfol) as (tail & Hrest & Htail).
  subst s'. cbn [step]. unfold resume. fold s. rewrite Hx, Hw. cbn [ready].
  rewrite Hrest.
  set (s1 := wake (EnsureMounted st) x
               (st_log (Resumed a (EnsureMounted st))
                  (on_act a (act_done (EnsureMounted st)) s))).
  assert (H1 : acts s1 !! a = Some (act_done (EnsureMounted st) x)).
  { subst s1. simpl. rewrite list_lookup_alter_eq, Hx. reflexivity. }
  assert (G1 : gates s1 = gates s /\ context s1 = context s /\
               log s1 = log s ++ [Resumed a (EnsureMounted st)]) by done.
  destruct G1 as (G1g & G1c & G1l). clearbody s1.
  (* const completed = new Promise(...) *)
  erewrite run_sync_next;
    [|unfold exec; cbn [acts st_log]; rewrite H1; reflexivity].
  set (s2 := on_act a (act_done NewCompleted)
               (on_act a (act_completed false) (st_log (Did a NewCompleted) s1))).
  assert (H2 : exists y, acts s2 !! a = Some y).
  { subst s2. cbn [acts on_act st_acts st_log].
    rewrite !list_lookup_alter_eq, H1. eexists. reflexivity. }
  destruct H2 as [y2 H2].
  assert (G2 : gates s2 = gates s /\ context s2 = context s /\
               log s2 = log s ++ [Resumed a (EnsureMounted st); Did a NewCompleted]).
  { subst s2. cbn [gates context log on_act st_acts st_log].
    rewrite G1g, G1c, G1l, <- app_assoc. done. }
  destruct G2 as (G2g & G2c & G2l). clearbody s2.
  (* const children = childrenCompleted(completed) *)
  destruct (childrenCompleted a (context s2) (gates s2)) as [[c3 gs3] p3] eqn:Hcc.
  erewrite run_sync_next;
    [|unfold exec; cbn [acts st_log context gates]; rewrite H2, Hcc; reflexivity].
  set (s3 := on_act a (act_done ChildrenCompleted)
               (on_act a (act_children p3)
                  (st_gates (fun _ => gs3)
                     (st_context (fun _ => c3) (st_log (Did a ChildrenCompleted) s2))))).
  assert (H3 : acts s3 !! a = Some (act_done ChildrenCompleted (act_children p3 y2))).
  { subst s3. cbn [acts on_act st_acts st_log st_gates st_context].
    rewrite !list_lookup_alter_eq, H2. reflexivity. }
  assert (G3 : gates s3 = gs3 /\ context s3 = c3 /\
               log s3 = log s ++ [Resumed a (EnsureMounted st); Did a NewCompleted;
                                  Did a ChildrenCompleted]).
  { subst s3. cbn [gates context log on_act st_acts st_log st_gates st_context].
    rewrite G2l, <- app_assoc. done. }
  destruct G3 as (G3g & G3c & G3l). clearbody s3.
  (* set(show) *)
  erewrite run_sync_next;
    [|unfold exec; cbn [acts st_log]; rewrite H3; reflexivity].
  set (s4 := on_act a (act_done (SetShow (a_show x)))
               (store_set (Some (a_show x)) (st_log (Did a (SetShow (a_show x))) s3))).
  destruct (run_sync_gates (p_unmount ps) hp a tail s4 Htail) as (T1 & T2 & T3).
  destruct (run_sync_untouched (p_unmount ps) hp a tail s4)
    as (_ & _ & _ & _ & _ & (more & T4) & T5).
  assert (L4 : exists m, log s4 = log s ++ [Resumed a (EnsureMounted st);
                 Did a NewCompleted; Did a ChildrenCompleted;
                 Did a (SetShow (a_show x))] ++ m).
  { subst s4. unfold store_set. cbn [context st_log].
    destruct (set _ _) as [c4 []]; cbn [log st_log st_context on_act st_acts];
      rewrite G3l, <- !app_assoc; simpl; eexists; reflexivity. }
  destruct L4 as [m L4].
  assert (C4 : c_completed (context s4) = c_completed c3 /\ gates s4 = gs3 /\
               c_count (context s4) = c_count c3).
  { subst s4. unfold store_set, set. cbn [context st_log].
    case_decide; cbn [gates context on_act st_acts st_log st_context];
      rewrite ?G3g, ?G3c; done. }
  destruct C4 as (C4c & C4g & C4n).
  assert (A4 : a_children <$> acts s4 !! a = Some p3).
  { subst s4. cbn [acts on_act st_acts]. rewrite list_lookup_alter_eq.
    destruct (store_set_acts (Some (a_show x)) (st_log (Did a (SetShow (a_show x))) s3))
      as [E _]. rewrite E. cbn [acts st_log]. rewrite H3. reflexivity. }
  clearbody s4. clear G3g G3c G3l H3.
  split.
  { exists (m ++ more). rewrite T4, L4, <- !app_assoc. reflexivity. }
  unfold childrenCompleted in Hcc. rewrite G2g, G2c in Hcc.
  destruct (Z.eqb_spec (c_count (context s)) 0) as [E|E];
    injection Hcc as Ec Eg Ep;
    rewrite <- Ec in C4c, C4n; rewrite <- Eg in C4g; rewrite <- Ep in A4;
    rewrite T1, T2, T3, C4c, C4g, A4.
  - rewrite decide_True by assumption. done.
  - rewrite decide_False by assumption.
    repeat split.
    cbn [step]. unfold child_reported. cbn [gates st_gates].
    rewrite T1, C4g.
    assert (Hctx : c_completed (context (run_sync (p_unmount ps) hp a tail s4))
                   = Closure (length (gates s))) by (rewrite T2, C4c; reflexivity).
    rewrite (completed_closure _ _ (length (gates s)) (fresh_gate a) Hctx)
      by (apply list_lookup_middle; reflexivity).
    apply list_eq. intros k. rewrite list_lookup_insert.
    destruct (decide (k < length (gates s))%nat) as [Hk|Hk].
    + rewrite decide_False by lia. rewrite !lookup_app_l by assumption. reflexivity.
    + destruct (decide (k = length (gates s))) as [->|Hne].
      * rewrite decide_True by (rewrite length_app; simpl; lia).
        rewrite list_lookup_middle by reflexivity. reflexivity.
      * rewrite decide_False by lia.
        rewrite !lookup_app_r by lia.
        destruct (k - length (gates s))%nat as [|n] eqn:En; [lia|]. reflexivity.
Qed.

(** In the first script [execute] sets the store after [enter()] or
    [leave()] has run up to its first [await]; [childrenCompleted()] is
    called before that [await]. *)
Lemma legacy_makes_gate_before_store
    (ps : Props) (hp : bool) (show : option bool) (s : state) :
  el s = true ->
  let a := length (acts s) in
  let g := length (gates s) in
  let s' := st_run true (store_set show (Legacy.animate ps hp show s)) in
  (exists l1 l2 l3,
     log s' = log s ++ l1 ++ [Did a ChildrenCompleted] ++ l2 ++ l3 /\
     (forall v, ~ In (Notified v) (l1 ++ l2)) /\
     (l3 = [] \/ l3 = [Notified show])) /\
  (if decide (c_count (context s) = 0)
   then c_completed (context s') = c_completed (context s) /\
        gates s' = gates s
   else c_completed (context s') = Closure g /\
        gates s' = gates s ++ [fresh_gate a]).
Proof.
  intros Hel a g.
  assert (Hrun : forall tail,
            ~ In ChildrenCompleted tail -> (forall b, ~ In (SetShow b) tail) ->
            forall pre seen s0,
            (forall i, In i pre ->
               exists v, i = ElDisplay v \/ i = ElVisibility v \/
                         i = Dispatch BeforeEnter \/ i = Dispatch BeforeLeave) ->
            (exists y, acts s0 !! a = Some y) -> el s0 = true ->
            gates s0 = gates s -> context s0 = context s ->
            log s0 = log s ++ map (Did a) seen ->
            let t := run_sync (p_unmount ps) hp a
                       (pre ++ ChildrenCompleted :: tail) s0 in
            (exists l2,
               log t = log s ++ map (Did a) (seen ++ pre)
                             ++ [Did a ChildrenCompleted] ++ l2
               /\ forall v, ~ In (Notified v) l2) /\
            (if decide (c_count (context s) = 0)
             then c_completed (context t) = c_completed (context s) /\
                  gates t = gates s
             else c_completed (context t) = Closure g /\
                  gates t = gates s ++ [fresh_gate a])).
  { intros tail Htail Hquiet.
    induction pre as [|i pre IH]; intros seen s0 Hpre [y H0] G0e G0g G0c G0l.
    - (* childrenCompleted() *)
      cbn [app]. rewrite app_nil_r.
      destruct (childrenCompleted a (context s0) (gates s0)) as [[c1 gs1] p1] eqn:Hcc.
      cbv zeta.
      erewrite run_sync_next;
        [|unfold exec; cbn [acts st_log context gates]; rewrite H0, Hcc; reflexivity].
      set (s1 := on_act a (act_done ChildrenCompleted)
                   (on_act a (act_children p1)
                      (st_gates (fun _ => gs1)
                         (st_context (fun _ => c1)
                            (st_log (Did a ChildrenCompleted) s0))))).
      assert (G1 : gates s1 = gs1 /\ context s1 = c1 /\
                   log s1 = log s0 ++ [Did a ChildrenCompleted]) by done.
      destruct G1 as (G1g & G1c & G1l). clearbody s1.
      destruct (run_sync_gates (p_unmount ps) hp a tail s1 Htail) as (T1 & T2 & _).
      destruct (run_sync_quiet (p_unmount ps) hp a tail s1 Hquiet) as (l2 & T3 & T4).
      unfold childrenCompleted in Hcc. rewrite G0g, G0c in Hcc.
      rewrite T1, T2, T3, G1l, G0l, G1g, G1c. split.
      { exists l2. split; [|assumption]. rewrite <- !app_assoc. reflexivity. }
      destruct (Z.eqb_spec (c_count (context s)) 0) as [E|E];
        injection Hcc as <- <- _.
      + rewrite decide_True by assumption. done.
      + rewrite decide_False by assumption. done.
    - destruct (Hpre i (or_introl eq_refl)) as (v & Hi).
      assert (Hstep : exists s1,
                exec (p_unmount ps) hp a i (st_log (Did a i) s0) = (s1, Next) /\
                acts s1 = acts s0 /\ el s1 = true /\ gates s1 = gates s0 /\
                context s1 = context s0 /\ log s1 = log s0 ++ [Did a i]).
      { destruct Hi as [->|[->|[->| ->]]]; unfold exec; cbn [acts st_log el];
          rewrite H0, ?G0e; eexists; (split; [reflexivity|]); done. }
      destruct Hstep as (s1 & He & S1 & S2 & S3 & S4 & S5).
      cbn [app]. cbv zeta. rewrite (run_sync_next _ _ _ _ _ _ _ He).
      specialize (IH (seen ++ [i]) (on_act a (act_done i) s1)).
      cbv zeta in IH. rewrite <- app_assoc in IH. apply IH.
      + intros j Hj. apply Hpre. right. assumption.
      + simpl. rewrite list_lookup_alter_eq, S1, H0. eexists. reflexivity.
      + assumption.
      + simpl. congruence.
      + simpl. congruence.
      + simpl. rewrite S5, G0l, map_app, <- app_assoc. reflexivity. }
  assert (Hanim : let t := Legacy.animate ps hp show s in
            (exists l1 l2,
               log t = log s ++ l1 ++ [Did a ChildrenCompleted] ++ l2 /\
               forall v, ~ In (Notified v) (l1 ++ l2)) /\
            (if decide (c_count (context s) = 0)
             then c_completed (context t) = c_completed (context s) /\
                  gates t = gates s
             else c_completed (context t) = Closure g /\
                  gates t = gates s ++ [fresh_gate a])).
  { cbv zeta. unfold Legacy.animate, start. fold a.
    destruct (is_true show).
    - destruct (Hrun
        [AddClasses [Base]; AddClasses [From]; AwaitNextFrame; TransitionEnd;
         RemoveClasses [From]; AddClasses [To]; AwaitTransitioned;
         RemoveClasses [Base]; RemoveClasses [To]; AwaitChildren; AwaitApply;
         AwaitParent; Dispatch AfterEnter]
        ltac:(simpl; intuition discriminate)
        ltac:(intros b; simpl; intuition discriminate)
        [ElDisplay ""; ElVisibility ""; Dispatch BeforeEnter] []
        (st_acts (fun l => l ++ [new_activation true (enterClasses ps)
                                   (enterFromClasses ps) (enterToClasses ps)
                                   Legacy.enter]) s))
        as [(l2 & Hl & Hq) Hg]; try done.
      + intros i [<-|[<-|[<-|[]]]]; exists ""; tauto.
      + eexists. simpl. apply list_lookup_middle. reflexivity.
      + simpl. rewrite app_nil_r. reflexivity.
      + split; [|exact Hg]. eexists _, l2. split; [exact Hl|].
        intros v Hin. apply in_app_or in Hin. destruct Hin as [Hin|Hin].
        * simpl in Hin. intuition discriminate.
        * apply (Hq v Hin).
    - destruct (Hrun
        [AddClasses [Base]; AddClasses [From]; AwaitNextFrame; TransitionEnd;
         RemoveClasses [From]; AddClasses [To]; AwaitTransitioned;
         RemoveClasses [Base]; RemoveClasses [To]; AwaitChildren; AwaitApply;
         ElVisibility "hidden"; AwaitParent; ElDisplay "none";
         Dispatch AfterLeave]
        ltac:(simpl; intuition discriminate)
        ltac:(intros b; simpl; intuition discriminate)
        [Dispatch BeforeLeave] []
        (st_acts (fun l => l ++ [new_activation false (leaveClasses ps)
                                   (leaveFromClasses ps) (leaveToClasses ps)
                                   Legacy.leave]) s))
        as [(l2 & Hl & Hq) Hg]; try done.
      + intros i [<-|[]]; exists ""; tauto.
      + eexists. simpl. apply list_lookup_middle. reflexivity.
      + simpl. rewrite app_nil_r. reflexivity.
      + split; [|exact Hg]. eexists _, l2. split; [exact Hl|].
        intros v Hin. apply in_app_or in Hin. destruct Hin as [Hin|Hin].
        * simpl in Hin. intuition discriminate.
        * apply (Hq v Hin). }
  cbv zeta in Hanim. destruct Hanim as [(l1 & l2 & Hl & Hq) Hg].
  cbv zeta. unfold store_set, set.
  destruct (decide (c_show (context (Legacy.animate ps hp show s)) = show)); simpl.
  - split; [|exact Hg]. exists l1, l2, []. rewrite app_nil_r.
    split; [exact Hl|]. split; [exact Hq | left; reflexivity].
  - split; [|exact Hg]. exists l1, l2, [Notified show].
    split; [|split; [exact Hq | right; reflexivity]].
    rewrite Hl, <- !app_assoc. reflexivity.
Qed.

(** ** The order of the class mutations *)

Example runes_enter_statements :
  program RunesScript true =
  [ Dispatch BeforeEnter; WrapperShow true; EnsureMounted false; NewCompleted;
    ChildrenCompleted; SetShow true; AddClasses [Base; From]; TransitionEnd;
    AwaitNextFrame; RemoveClasses [From]; AddClasses [To]; AwaitAll;
    AwaitParent; RemoveClasses [Base; To]; ResolveCompleted; AwaitApply;
    Dispatch AfterEnter ].
Proof. reflexivity. Qed.

(** In the second script and in the script with runes an activation runs
    its statements in the order of [enter] or [leave]; when it has
    removed the base and to classes it has added base and from, waited
    for the two frames, swapped from for to and left the joint wait, and
    both promises of the joint wait are resolved: the one of the native
    transitionend and the one of the gate of the children. *)
Lemma cleanup_follows_joint_wait
    (sc : script) (ps : Props) (ancestor : option (bool * option bool))
    (kids : Z) (evs : list event) (a : nat) (x : activation) :
  sc <> FirstScript ->
  let s := lifetime sc ps ancestor kids evs in
  acts s !! a = Some x ->
  a_done x ++ wait_list x ++ a_rest x = program sc (a_show x) /\
  (In (RemoveClasses [Base; To]) (a_done x) \/
   In (RemoveClasses [Base]) (a_done x) \/
   In (RemoveClasses [To]) (a_done x) ->
   (In (AddClasses [Base; From]) (a_done x) \/
    In (AddClasses [Base]) (a_done x) /\ In (AddClasses [From]) (a_done x)) /\
   In AwaitNextFrame (a_done x) /\
   In (RemoveClasses [From]) (a_done x) /\
   In (AddClasses [To]) (a_done x) /\
   In AwaitAll (a_done x) /\
   a_transitioned x = Some true /\
   resolved (gates s) (a_children x) = true).
Proof.
  intros Hsc s Hx.
  pose proof (lifetime_inv sc ps ancestor kids evs a x Hx) as Hfol.
  split; [apply Hfol|]. intros Hrm.
  assert (Hall : forall i, i = AwaitAll \/ i = AwaitNextFrame \/
                   i = RemoveClasses [From] \/ i = AddClasses [To] ->
                   In i (a_done x)).
  { intros i Hi.
    destruct Hrm as [Hrm|[Hrm|Hrm]];
      (eapply done_in_order; [exact Hfol| |exact Hrm]);
      destruct sc; [congruence| | |congruence| | |congruence| |];
      destruct (a_show x); destruct Hi as [->|[->|[->| ->]]]; reflexivity. }
  assert (Hadd : In (AddClasses [Base; From]) (a_done x) \/
                 In (AddClasses [Base]) (a_done x) /\
                 In (AddClasses [From]) (a_done x)).
  { destruct sc; [congruence| |].
    - right. split;
        (destruct Hrm as [Hrm|[Hrm|Hrm]];
         (eapply done_in_order; [exact Hfol| |exact Hrm]);
         destruct (a_show x); reflexivity).
    - left.
      destruct Hrm as [Hrm|[Hrm|Hrm]];
        (eapply done_in_order; [exact Hfol| |exact Hrm]);
        destruct (a_show x); reflexivity. }
  split; [exact Hadd|].
  split; [apply Hall; tauto|]. split; [apply Hall; tauto|].
  split; [apply Hall; tauto|]. split; [apply Hall; tauto|].
  destruct Hfol as (_ & _ & Hw).
  destruct (Hw AwaitAll (Hall AwaitAll (or_introl eq_refl))) as [H1 H2].
  split; [apply H1 | apply H2]; reflexivity.
Qed.

(** In all three scripts an activation calls [parent.completed()] only
    when its own gate is resolved: the reports travel upwards one level
    at a time. *)
Lemma report_follows_own_gate
    (sc : script) (ps : Props) (ancestor : option (bool * option bool))
    (kids : Z) (evs : list event) (a : nat) (x : activation) :
  let s := lifetime sc ps ancestor kids evs in
  acts s !! a = Some x ->
  In AwaitParent (a_done x ++ wait_list x) ->
  resolved (gates s) (a_children x) = true.
Proof.
  intros s Hx Hin.
  pose proof (lifetime_inv sc ps ancestor kids evs a x Hx) as Hfol.
  destruct Hfol as (Hpre & Hcl & Hw).
  set (w := match sc with FirstScript => AwaitChildren | _ => AwaitAll end).
  assert (He : earlier w AwaitParent (program sc (a_show x)) = true)
    by (destruct sc, (a_show x); reflexivity).
  rewrite <- Hpre, app_assoc in He.
  pose proof (earlier_spec _ _ _ _ He Hin) as Hw'.
  apply in_app_or in Hw'. destruct Hw' as [Hw'|Hw'].
  - destruct (Hw w Hw') as [_ H2]. apply H2. destruct sc; reflexivity.
  - apply in_app_or in Hin. destruct Hin as [Hin|Hin].
    + rewrite <- app_assoc in He.
      pose proof (earlier_spec _ _ _ _ He Hin) as Hw''.
      destruct (Hw w Hw'') as [_ H2]. apply H2. destruct sc; reflexivity.
    + unfold wait_list in Hw', Hin. destruct (a_wait x) as [i|]; [|contradiction].
      destruct Hw' as [Hi|[]]. destruct Hin as [Hin|[]].
      rewrite Hin in Hi. subst w. destruct sc; discriminate Hi.
Qed.

(** C1 on the first script: the parent of one child enters.  When its
    own transition has ended it takes the base and to classes off the
    element and only then waits for the gate, which is not resolved: the
    child has not reported. *)
Theorem legacy_cleanup_precedes_gate :
  let s := lifetime FirstScript (fade (Some false) false false) None 1
             [Update (Some true); Frame 0; Resume 0; TransitionEndEvent;
              Resume 0] in
  exists x, acts s !! 0%nat = Some x /\
    a_done x =
      [ ElDisplay ""; ElVisibility ""; Dispatch BeforeEnter; ChildrenCompleted;
        AddClasses [Base]; AddClasses [From]; AwaitNextFrame; TransitionEnd;
        RemoveClasses [From]; AddClasses [To]; AwaitTransitioned;
        RemoveClasses [Base]; RemoveClasses [To] ] /\
    a_wait x = Some AwaitChildren /\
    a_children x = OfGate 0 /\
    resolved (gates s) (a_children x) = false /\
    classList s = [].
Proof. vm_compute. eexists. repeat split. Qed.

(** The same events in the script with runes: the classes stay on the
    element until the child has reported. *)
Example runes_cleanup_waits_for_gate :
  let before := lifetime RunesScript (fade (Some false) false false) None 1
                  [Update (Some true); Then 0; Resume 0; Frame 0; Resume 0;
                   TransitionEndEvent; Resume 0] in
  let after := steps RunesScript (fade (Some false) false false) false
                 [ChildReported; Resume 0] before in
  classList before = ["ease"; "opacity-100"] /\ classList after = [].
Proof. vm_compute. split; reflexivity. Qed.

(** ** The first call of [execute] and the later ones *)

Lemma store_set_untouched (a : nat) (v : option bool) (s : state) :
  untouched a s (store_set v s).
Proof.
  unfold store_set, set. case_decide; simpl; repeat split.
  - exists []. rewrite app_nil_r. reflexivity.
  - exists [Notified v]. reflexivity.
Qed.

Lemma start_acts (unmount hp show : bool) (base from to : list string)
    (prog : list instr) (s : state) :
  let s' := start unmount hp show base from to prog s in
  length (acts s') = S (length (acts s)) /\
  (forall b, (b < length (acts s))%nat -> acts s' !! b = acts s !! b) /\
  (exists x, acts s' !! length (acts s) = Some x /\ a_show x = show) /\
  thens s' = thens s /\ executing s' = executing s /\ run s' = run s.
Proof.
  unfold start.
  set (s1 := st_acts (fun l => l ++ [new_activation show base from to prog]) s).
  pose proof (run_sync_untouched unmount hp (length (acts s)) prog s1)
    as (U1 & U2 & U3 & U4 & U5 & _).
  cbv zeta. repeat split.
  - rewrite U1. subst s1. simpl. rewrite length_app. simpl. lia.
  - intros b Hb. rewrite U2 by lia. subst s1. simpl.
    apply lookup_app_l. assumption.
  - assert (Hl : (length (acts s) < length (acts (run_sync unmount hp
                    (length (acts s)) prog s1)))%nat).
    { rewrite U1. subst s1. simpl. rewrite length_app. simpl. lia. }
    destruct (lookup_lt_is_Some_2 _ _ Hl) as [x Hx]. exists x.
    split; [assumption|].
    (* the show of an activation is never written *)
    clear U1 U2 U3 U4 U5 Hl.
    assert (Hgen : forall p t y, acts t !! length (acts s) = Some y ->
              a_show y = show ->
              forall z, acts (run_sync unmount hp (length (acts s)) p t)
                          !! length (acts s) = Some z -> a_show z = show).
    { induction p as [|i r IH]; intros t y Hy Hs z Hz; simpl in Hz.
      - rewrite list_lookup_alter_eq, Hy in Hz. inversion Hz. assumption.
      - destruct (exec unmount hp (length (acts s)) i
                    (st_log (Did (length (acts s)) i) t)) as [t' o] eqn:He.
        destruct (exec_effect _ _ _ _ _ _ _ He) as ((f & Hacts & Hf) & _).
        assert (Hy' : acts t' !! length (acts s) = Some (f y)).
        { rewrite Hacts. simpl. rewrite list_lookup_alter_eq, Hy. reflexivity. }
        assert (Hfy : a_show (f y) = show)
          by (destruct (Hf y) as ((K & _) & _); congruence).
        destruct o.
        + eapply (IH _ (act_done i (f y))); [|exact Hfy|exact Hz].
          simpl. rewrite list_lookup_alter_eq, Hy'. reflexivity.
        + simpl in Hz. rewrite list_lookup_alter_eq, Hy' in Hz.
          inversion Hz. assumption.
        + simpl in Hz. rewrite list_lookup_alter_eq, Hy' in Hz.
          inversion Hz. assumption. }
    eapply (Hgen prog s1 (new_activation show base from to prog));
      [|reflexivity|exact Hx].
    subst s1. simpl. apply list_lookup_middle. reflexivity.
  - rewrite U3. reflexivity.
  - rewrite U4. reflexivity.
  - rewrite U5. reflexivity.
Qed.

Lemma animate_acts (sc : script) (ps : Props) (hp : bool) (show : option bool)
    (s : state) :
  let s' := match sc with
            | FirstScript => Legacy.animate ps hp show s
            | SecondScript => Slots.animate ps hp show s
            | RunesScript => Runes.animate ps hp show s
            end in
  length (acts s') = S (length (acts s)) /\
  (forall b, (b < length (acts s))%nat -> acts s' !! b = acts s !! b) /\
  (exists x, acts s' !! length (acts s) = Some x /\ a_show x = is_true show) /\
  thens s' = thens s /\ executing s' = executing s /\ run s' = run s.
Proof.
  destruct sc; unfold Legacy.animate, Slots.animate, Runes.animate;
    destruct (is_true show); apply start_acts.
Qed.

(** Once [run] is set it stays set. *)
Lemma step_run (sc : script) (ps : Props) (hp : bool) (ev : event) (s : state) :
  run s = true -> run (step sc ps hp ev s) = true.
Proof.
  intros H.
  assert (Hex : forall v t, run t = true -> run (execute sc ps hp v t) = true).
  { intros v t Ht. destruct sc; simpl.
    - unfold Legacy.execute. rewrite Ht. reflexivity.
    - reflexivity.
    - reflexivity. }
  destruct ev; simpl.
  - destruct sc; simpl; [apply (Hex show (st_mounted _ s)) |
                         apply (Hex show s) | ]; assumption.
  - destruct hp; [apply Hex|]; assumption.
  - unfold run_then. repeat case_match; try assumption; apply Hex; assumption.
  - unfold resume. repeat case_match; try assumption.
    destruct (run_sync_untouched (p_unmount ps) hp a (a_rest a0)
                (wake i a0 (st_log (Resumed a i) (on_act a (act_done i) s))))
      as (_ & _ & _ & _ & -> & _).
    destruct i; assumption.
  - unfold frame. repeat case_match; assumption.
  - unfold transitionend. destruct (deliver (listeners s)) as [[ls hs] st].
    assert (Hf : forall l t, run t = true ->
              run (fold_left (fun s h => perform h s) l t) = true).
    { induction l as [|h l IH]; intros t Ht; simpl; [assumption|].
      apply IH. destruct h; assumption. }
    apply Hf. assumption.
  - unfold parent_settled. repeat case_match; assumption.
  - assumption.
  - assumption.
  - assumption.
Qed.

Lemma steps_run (sc : script) (ps : Props) (hp : bool) (evs : list event)
    (s : state) :
  run s = true -> run (steps sc ps hp evs s) = true.
Proof.
  revert s. induction evs as [|ev evs IH]; intros s H; simpl; [assumption|].
  apply IH. apply step_run. assumption.
Qed.

Lemma transition_run (sc : script) (ps : Props)
    (ancestor : option (bool * option bool)) (kids : Z) :
  sc = FirstScript /\ is_true (p_show ps) || negb (p_unmount ps) = false \/
  run (transition sc ps ancestor kids) = true.
Proof.
  destruct sc; simpl.
  - unfold Legacy.transition, Legacy.execute. simpl.
    destruct (is_true (p_show ps) || negb (p_unmount ps)) eqn:E;
      [right | left; done].
    destruct (find_parent ps ancestor) as [[? ?]|]; reflexivity.
  - right. unfold Slots.transition.
    destruct (find_parent ps ancestor) as [[? ?]|]; reflexivity.
  - right. unfold Runes.transition.
    destruct (find_parent ps ancestor) as [[? ?]|]; reflexivity.
Qed.

(** C6, as the code has it.  The first call of [execute] starts [enter]
    or [leave] only if the setting that the script reads is true: the
    prop [appear] of the component in the two older scripts and for a
    top-level component; the [appear] of the parent context for a child
    in the script with runes.  After that call every call of [execute]
    starts [enter] for a true [show] and [leave] otherwise (in the first
    script provided the wrapped element was there when the action ran).
    A component with [appear] false and [show] true dispatches nothing
    when its action runs: its wrapper lays the content out and the
    content is rendered. *)
Theorem first_execute_needs_appear
    (sc : script) (ps : Props) (ancestor : option (bool * option bool))
    (kids : Z) (evs : list event) (show : option bool) :
  let hp := has_parent ps ancestor in
  let s0 := transition sc ps ancestor kids in
  let s := lifetime sc ps ancestor kids evs in
  let s' := execute sc ps hp show s in
  (acts s0 <> [] -> effective_appear sc ps ancestor = true) /\
  (effective_appear sc ps ancestor = false ->
   forall a sig, ~ In (Did a (Dispatch sig)) (log s0)) /\
  (sc = FirstScript /\ is_true (p_show ps) || negb (p_unmount ps) = false \/
   length (acts s') = S (length (acts s)) /\
   exists x, acts s' !! length (acts s) = Some x /\
     a_show x = is_true show /\
     a_done x ++ wait_list x ++ a_rest x = program sc (is_true show)) /\
  (p_appear ps = false -> p_show ps = Some true ->
   acts s0 = [] /\ (forall a sig, ~ In (Did a (Dispatch sig)) (log s0)) /\
   wrapper s0 = true /\ rendered s0 = true).
Proof.
  cbv zeta.
  assert (Hfirst : effective_appear sc ps ancestor = false ->
            acts (transition sc ps ancestor kids) = [] /\
            forall a sig, ~ In (Did a (Dispatch sig))
                            (log (transition sc ps ancestor kids))).
  { unfold effective_appear. intros He.
    destruct sc; simpl;
      unfold Legacy.transition, Slots.transition, Runes.transition,
        Legacy.execute, Slots.execute, Runes.execute;
      destruct (find_parent ps ancestor) as [[pa v]|]; simpl; rewrite ?He;
      repeat case_match; simpl;
      unfold store_set, set; simpl; repeat case_decide; simpl;
      (split; [reflexivity|]); intros a sig Hin;
      repeat (destruct Hin as [Hin|Hin]; [discriminate Hin|]); contradiction. }
  split.
  { intros Hne. destruct (effective_appear sc ps ancestor) eqn:E; [reflexivity|].
    destruct (Hfirst eq_refl) as [H _]. contradiction. }
  split; [intros He; apply Hfirst; assumption|].
  split.
  - destruct (transition_run sc ps ancestor kids) as [H|Hrun]; [left; exact H|].
    right.
    pose proof (steps_run sc ps (has_parent ps ancestor) evs _ Hrun) as Hr.
    fold (lifetime sc ps ancestor kids evs) in Hr.
    set (s := lifetime sc ps ancestor kids evs) in *.
    assert (Hinv : inv sc ps (execute sc ps (has_parent ps ancestor) show s))
      by (apply execute_inv; apply lifetime_inv).
    assert (Hacts : length (acts (execute sc ps (has_parent ps ancestor) show s))
                    = S (length (acts s)) /\
                    exists x, acts (execute sc ps (has_parent ps ancestor) show s)
                                !! length (acts s) = Some x /\
                              a_show x = is_true show).
    { pose proof (animate_acts sc ps (has_parent ps ancestor) show) as Ha.
      destruct sc; simpl;
        unfold Legacy.execute, Slots.execute, Runes.execute; rewrite Hr; simpl.
      - destruct (store_set_acts show
                    (Legacy.animate ps (has_parent ps ancestor) show s)) as [-> _].
        destruct (Ha s) as (A1 & _ & A3 & _). split; assumption.
      - destruct (Ha s) as (A1 & _ & A3 & _). split; assumption.
      - destruct (Ha s) as (A1 & _ & A3 & _). split; assumption. }
    destruct Hacts as [Hlen (x & Hx & Hs)]. split; [assumption|].
    exists x. split; [assumption|]. split; [assumption|].
    destruct (Hinv _ _ Hx) as (Hpre & _). rewrite Hs in Hpre. exact Hpre.
  - intros Hap Hsh.
    assert (He : effective_appear sc ps ancestor = false).
    { unfold effective_appear, find_parent. rewrite Hsh, Hap.
      destruct sc; reflexivity. }
    destruct (Hfirst He) as [H1 H2]. split; [assumption|]. split; [assumption|].
    destruct sc; simpl;
      unfold Legacy.transition, Slots.transition, Runes.transition,
        Legacy.execute, Slots.execute, Runes.execute, find_parent;
      rewrite Hsh, Hap; simpl;
      unfold store_set, set; simpl; repeat case_decide; simpl;
      try congruence; split; try reflexivity;
      unfold rendered; simpl; destruct (p_unmount ps); reflexivity.
Qed.

(** C6 as stated fails in the script with runes: a child whose own
    [appear] is false runs [enter] at its first [execute] when the
    context of its parent has [appear] set. *)
Lemma runes_child_animates_on_parent_appear :
  let ps := fade None false false in
  let s0 := transition RunesScript ps (Some (true, Some true)) 0 in
  p_appear ps = false /\ acts s0 <> [] /\
  In (Did 0 (Dispatch BeforeEnter)) (log s0).
Proof. vm_compute. repeat split; [discriminate | left; reflexivity]. Qed.

Lemma first_execute_needs_appear_witness :
  acts (transition SecondScript (fade (Some true) true false) None 0) <> [] /\
  effective_appear SecondScript (fade (Some true) true false) None = true.
Proof.
  assert (H : acts (transition SecondScript (fade (Some true) true false) None 0)
              <> []) by (vm_compute; discriminate).
  split; [exact H|].
  exact (proj1 (first_execute_needs_appear SecondScript
                  (fade (Some true) true false) None 0 [] None) H).
Defined.

(** ** Unmounted content *)

Lemma quiet_until_update (sc : script) (ps : Props)
    (ancestor : option (bool * option bool)) (kids : Z) (evs : list event) :
  p_unmount ps = true -> p_show ps = Some false -> p_appear ps = false ->
  forallb (fun ev => negb (is_update ev)) evs = true ->
  exists n, lifetime sc ps ancestor kids evs
            = st_context (with_count n) (transition sc ps ancestor kids).
Proof.
  destruct ps as [sh ap un e ef et l lf lt]. simpl. intros -> -> -> Hq.
  unfold lifetime.
  change (has_parent _ ancestor) with false.
  set (ps := {| p_show := Some false; p_appear := false; p_unmount := true;
                p_enter := e; p_enterFrom := ef; p_enterTo := et;
                p_leave := l; p_leaveFrom := lf; p_leaveTo := lt |}).
  assert (Hgen : forall l n,
            forallb (fun ev => negb (is_update ev)) l = true ->
            exists m,
              steps sc ps false l
                (st_context (with_count n) (transition sc ps ancestor kids))
              = st_context (with_count m) (transition sc ps ancestor kids)).
  { clear evs Hq. induction l0 as [|ev l0 IH]; intros n Hq;
      [exists n; reflexivity|].
    simpl in Hq. apply andb_prop in Hq. destruct Hq as [Hev Hq].
    cbn [steps fold_left].
    assert (Hstep : exists m,
              step sc ps false ev
                (st_context (with_count n) (transition sc ps ancestor kids))
              = st_context (with_count m) (transition sc ps ancestor kids)).
    { destruct ev; try discriminate Hev; destruct sc;
        first [ exists n; vm_compute; reflexivity
              | exists (n + 1); vm_compute; reflexivity
              | exists (n - 1); vm_compute; reflexivity ]. }
    destruct Hstep as [m ->]. apply IH. assumption. }
  destruct (Hgen evs kids Hq) as [m Hm]. exists m. rewrite <- Hm.
  f_equal. destruct sc; vm_compute; reflexivity.
Qed.

(** C8, as the code has it: a component created with [unmount] true,
    [show] false and [appear] false does not render its content, and the
    content stays out of the tree whatever frames, events, microtasks and
    children come, until the host hands over an update; the update to
    [show] true renders it. *)
Theorem unmounted_content_absent_until_update
    (sc : script) (ps : Props) (ancestor : option (bool * option bool))
    (kids : Z) (evs : list event) :
  p_unmount ps = true -> p_show ps = Some false -> p_appear ps = false ->
  forallb (fun ev => negb (is_update ev)) evs = true ->
  rendered (lifetime sc ps ancestor kids evs) = false /\
  rendered (lifetime sc ps ancestor kids (evs ++ [Update (Some true); Then 0]))
  = true.
Proof.
  intros Hu Hs Ha Hq.
  destruct (quiet_until_update sc ps ancestor kids evs Hu Hs Ha Hq) as [n Hn].
  assert (Hp : has_parent ps ancestor = false)
    by (unfold has_parent, find_parent; rewrite Hs; reflexivity).
  unfold lifetime, steps in *. rewrite fold_left_app, Hn, Hp. clear Hn Hq Hp evs.
  destruct ps as [sh ap un e ef et l lf lt]. simpl in Hu, Hs, Ha. subst.
  split; destruct sc; vm_compute; reflexivity.
Qed.

Lemma unmounted_content_absent_until_update_witness :
  rendered (lifetime RunesScript (fade (Some false) false true) None 1
              [ChildSubscribed; TransitionEndEvent]) = false /\
  rendered (lifetime RunesScript (fade (Some false) false true) None 1
              ([ChildSubscribed; TransitionEndEvent]
               ++ [Update (Some true); Then 0])) = true.
Proof.
  apply (unmounted_content_absent_until_update RunesScript
           (fade (Some false) false true) None 1
           [ChildSubscribed; TransitionEndEvent]); reflexivity.
Defined.

(** C8 as stated fails when [appear] is set: the first [execute] runs
    [leave], and [ensureMountedElement] renders the content although
    [show] is false. *)
Lemma appear_mounts_hidden_content :
  let ps := fade (Some false) true true in
  p_unmount ps = true /\ p_show ps = Some false /\
  rendered (transition RunesScript ps None 0) = true /\
  rendered (transition SecondScript ps None 0) = true.
Proof. vm_compute. repeat split. Qed.

(** ** Updates of a top-level component *)

(** A step that keeps [executing], the callbacks and every [await] keeps
    the activations serial. *)
Lemma serial_keeps (s s' : state) :
  (forall b y', acts s' !! b = Some y' ->
     exists y, acts s !! b = Some y /\ a_wait y' = a_wait y) ->
  thens s' = thens s -> executing s' = executing s ->
  serial s -> serial s'.
Proof.
  intros Hacts Ht He (K1 & K2 & K3). unfold serial. rewrite Ht, He.
  split; [|split; assumption].
  intros b y' Hy' Hw. destruct (Hacts b y' Hy') as (y & Hy & Heq).
  apply (K1 b y Hy). rewrite <- Heq. assumption.
Qed.

Lemma serial_on_act (a : nat) (f : activation -> activation) (s : state) :
  (forall x, a_wait (f x) = a_wait x) -> serial s -> serial (on_act a f s).
Proof.
  intros Hf. apply serial_keeps; try reflexivity.
  intros b y' Hy'. simpl in Hy'. rewrite list_lookup_alter in Hy'.
  destruct (decide (a = b)) as [->|Hne].
  - destruct (acts s !! b) as [y|]; [|discriminate]. inversion Hy'.
    exists y. split; [reflexivity | apply Hf].
  - exists y'. split; [assumption | reflexivity].
Qed.

Lemma serial_perform (hs : list haction) (s : state) :
  serial s -> serial (fold_left (fun s h => perform h s) hs s).
Proof.
  revert s. induction hs as [|h hs IH]; intros s H; simpl; [assumption|].
  apply IH. destruct h; simpl; [assumption|].
  apply serial_on_act; [reflexivity | assumption].
Qed.

Lemma serial_resume (unmount hp : bool) (a : nat) (s : state) :
  serial s -> serial (resume unmount hp a s).
Proof.
  intros (K1 & K2 & K3). unfold resume.
  destruct (acts s !! a) as [x|] eqn:Hx; [|done].
  destruct (a_wait x) as [i|] eqn:Hw; [|done].
  destruct (ready s x i); [|done].
  set (s1 := wake i x (st_log (Resumed a i) (on_act a (act_done i) s))).
  destruct (run_sync_untouched unmount hp a (a_rest x) s1)
    as (_ & U2 & U3 & U4 & _).
  assert (E1 : thens s1 = thens s /\ executing s1 = executing s /\
               forall b, b <> a -> acts s1 !! b = acts s !! b).
  { subst s1. destruct i; simpl; repeat split;
      intros other Hother; apply list_lookup_alter_ne; congruence. }
  destruct E1 as (E1 & E2 & E3).
  unfold serial. rewrite U3, U4, E1, E2. split; [|split; assumption].
  intros b y Hy Hwy. destruct (decide (b = a)) as [->|Hb].
  - apply (K1 a x Hx). rewrite Hw. discriminate.
  - rewrite U2, E3 in Hy by assumption. apply (K1 b y Hy Hwy).
Qed.

(** With no activation in flight, [execute] leaves at most the one it
    starts in flight. *)
Lemma serial_execute (ps : Props) (hp : bool) (show : option bool) (s : state) :
  (forall a x, acts s !! a = Some x -> a_wait x = None) ->
  thens s = [] ->
  serial (Runes.execute ps hp show s).
Proof.
  intros Hidle Ht. unfold Runes.execute. destruct (run s).
  - destruct (animate_acts RunesScript ps hp show s)
      as (A1 & A2 & _ & A4 & _). simpl in A1, A2, A4.
    unfold serial. simpl. rewrite A4, Ht. split; [|split; [intros p v []|simpl; lia]].
    intros a x Hx Hw.
    destruct (decide (a < length (acts s))%nat) as [Hlt|Hge].
    + rewrite A2 in Hx by assumption. rewrite (Hidle a x Hx) in Hw. contradiction.
    + pose proof (lookup_lt_Some _ _ _ Hx) as Hl. rewrite A1 in Hl.
      f_equal. lia.
  - unfold serial. simpl. rewrite Ht. split; [|split; [intros p v []|simpl; lia]].
    intros a x Hx Hw. rewrite (Hidle a x Hx) in Hw. contradiction.
Qed.

Lemma serial_run_then (ps : Props) (k : nat) (s : state) :
  serial s -> serial (run_then RunesScript ps false k s).
Proof.
  intros (K1 & K2 & K3). unfold run_then.
  destruct (thens s !! k) as [[p show]|] eqn:Hk; [|done].
  destruct (match p with None => true | Some a => fulfilled s a end) eqn:Hr;
    [|done].
  simpl. apply serial_execute.
  - (* the promise the callback waited for is [executing], and it is
       fulfilled: nothing is in flight *)
    intros a x Hx. simpl in Hx.
    destruct (a_wait x) as [i|] eqn:Hw; [|reflexivity]. exfalso.
    assert (He : executing s = Some a) by (apply (K1 a x Hx); congruence).
    assert (Hp : p = executing s).
    { apply (K2 p show). apply list_elem_of_In.
      eapply list_elem_of_lookup_2. exact Hk. }
    rewrite Hp, He in Hr. unfold fulfilled in Hr. rewrite Hx, Hw in Hr.
    discriminate Hr.
  - simpl. destruct (thens s) as [|t [|t' ts]]; simpl in *.
    + destruct k; discriminate.
    + destruct k as [|k]; [reflexivity|]. destruct k; discriminate.
    + lia.
Qed.

Lemma serial_step (ps : Props) (ev : event) (s : state) :
  match ev with Update _ => thens s = [] | _ => True end ->
  serial s -> serial (step RunesScript ps false ev s).
Proof.
  intros Hc H. destruct ev; simpl.
  - destruct H as (K1 & K2 & K3). unfold Runes.update, serial. simpl.
    rewrite Hc. simpl. split; [assumption|]. split; [|lia].
    intros p v [Hin|[]]. inversion Hin. reflexivity.
  - assumption.
  - apply serial_run_then. assumption.
  - apply serial_resume. assumption.
  - unfold frame. repeat case_match; try assumption.
    apply serial_on_act; [reflexivity | assumption].
  - unfold transitionend. destruct (deliver (listeners s)) as [[ls hs] stp].
    apply serial_perform. revert H. apply serial_keeps; try reflexivity.
    intros b y Hy. exists y. split; [assumption | reflexivity].
  - unfold parent_settled. repeat case_match; try assumption.
    apply serial_on_act; [reflexivity | assumption].
  - revert H. apply serial_keeps; try reflexivity.
    intros b y Hy. exists y. split; [assumption | reflexivity].
  - revert H. apply serial_keeps; try reflexivity.
    intros b y Hy. exists y. split; [assumption | reflexivity].
  - revert H. apply serial_keeps; try reflexivity.
    intros b y Hy. exists y. split; [assumption | reflexivity].
Qed.

Lemma serial_steps (ps : Props) (evs : list event) (s : state) :
  one_at_a_time RunesScript ps false evs s = true ->
  serial s -> serial (steps RunesScript ps false evs s).
Proof.
  revert s. induction evs as [|ev evs IH]; intros s Hc H; simpl; [assumption|].
  simpl in Hc. apply andb_prop in Hc. destruct Hc as [Hev Hc].
  apply IH; [assumption|]. apply serial_step; [|assumption].
  destruct ev; try exact I. apply bool_decide_eq_true in Hev. assumption.
Qed.

(** C4, as the script with runes has it: [update] starts nothing, it
    chains a callback on the promise [executing]; the callback runs
    [execute] only when that promise is fulfilled.  If the host hands
    over an update only when the callback of the update before has run,
    at most one activation of a top-level component is in flight at any
    time, so the class mutations of two activations never interleave. *)
Theorem runes_updates_are_serialized
    (ps : Props) (kids : Z) (evs : list event) (a b : nat) (x y : activation)
    (v : option bool) (k c : nat) :
  one_at_a_time RunesScript ps false evs (transition RunesScript ps None kids)
  = true ->
  let s := lifetime RunesScript ps None kids evs in
  (acts s !! a = Some x -> acts s !! b = Some y ->
   a_wait x <> None -> a_wait y <> None -> a = b) /\
  (acts (step RunesScript ps false (Update v) s) = acts s /\
   log (step RunesScript ps false (Update v) s) = log s /\
   thens (step RunesScript ps false (Update v) s)
   = thens s ++ [(executing s, v)]) /\
  (thens s !! k = Some (Some c, v) -> fulfilled s c = false ->
   step RunesScript ps false (Then k) s = s).
Proof.
  intros Hcalm s.
  assert (Hf : find_parent ps None = None)
    by (unfold find_parent; destruct (p_show ps); reflexivity).
  assert (Hp : has_parent ps None = false)
    by (unfold has_parent; rewrite Hf; reflexivity).
  assert (Hs : serial s).
  { subst s. unfold lifetime. rewrite Hp. apply serial_steps; [assumption|].
    simpl. unfold Runes.transition.
    rewrite Hf. apply serial_execute; [|reflexivity].
    intros a0 x0 H0. discriminate H0. }
  split; [|split].
  - intros Hx Hy Hwx Hwy. destruct Hs as (K1 & _).
    pose proof (K1 a x Hx Hwx) as Ha. pose proof (K1 b y Hy Hwy) as Hb.
    congruence.
  - repeat split.
  - intros Hk Hnot. simpl. unfold run_then. rewrite Hk, Hnot. reflexivity.
Qed.

(** C9, as the code has it.  In the second script and in the script with
    runes an activation that comes back from [ensureMountedElement]
    calls [childrenCompleted] and only then sets the store; in the first
    script [execute] sets the store after [enter()] or [leave()] has
    called [childrenCompleted()].  The call installs a fresh closure,
    owned by the activation and with its counter at zero, when the
    context counts at least one child, and the report that follows is
    counted by that closure and by no older one; when the context counts
    no child it leaves [context.completed] as it was. *)
Theorem gate_is_made_before_the_broadcast
    (sc : script) (ps : Props) (ancestor : option (bool * option bool))
    (kids : Z) (evs : list event) (a : nat) (x : activation) (st : bool)
    (hp' : bool) (show : option bool) (t : state) :
  let hp := has_parent ps ancestor in
  let s := lifetime sc ps ancestor kids evs in
  (sc <> FirstScript -> acts s !! a = Some x ->
   a_wait x = Some (EnsureMounted st) ->
   let s' := step sc ps hp (Resume a) s in
   (exists more,
      log s' = log s ++ [Resumed a (EnsureMounted st); Did a NewCompleted;
                         Did a ChildrenCompleted; Did a (SetShow (a_show x))]
                     ++ more) /\
   gate_made a s s' /\
   (c_count (context s) <> 0 ->
    a_children <$> acts s' !! a = Some (OfGate (length (gates s))) /\
    gates (step sc ps hp ChildReported s')
    = gates s ++ [arrive (context s') (fresh_gate a)])) /\
  (run t = true -> el t = true ->
   let t' := Legacy.execute ps hp' show t in
   (exists l1 l2 l3,
      log t' = log t ++ l1 ++ [Did (length (acts t)) ChildrenCompleted]
                     ++ l2 ++ l3 /\
      (forall v, ~ In (Notified v) (l1 ++ l2)) /\
      (l3 = [] \/ l3 = [Notified show])) /\
   gate_made (length (acts t)) t t').
Proof.
  cbv zeta. split.
  - intros Hsc Hx Hw.
    destruct (apply_makes_gate_before_broadcast sc ps ancestor kids evs a x st
                Hsc Hx Hw) as [Hlog Hg].
    split; [exact Hlog|]. unfold gate_made.
    destruct (decide (c_count (context (lifetime sc ps ancestor kids evs)) = 0))
      as [E|E].
    + split; [tauto | contradiction].
    + split; [tauto|]. intros _. tauto.
  - intros Hrun Hel. unfold Legacy.execute. rewrite Hrun.
    apply (legacy_makes_gate_before_store ps hp' show t Hel).
Qed.

Lemma gate_is_made_before_the_broadcast_witness :
  let ps := fade (Some false) false false in
  let s := lifetime RunesScript ps None 1 [Update (Some true); Then 0] in
  gate_made 0 s (step RunesScript ps false (Resume 0) s) /\
  gate_made 0 (transition FirstScript ps None 1)
    (Legacy.execute ps false (Some true) (transition FirstScript ps None 1)).
Proof.
  cbv zeta.
  assert (Hx : exists x,
            acts (lifetime RunesScript (fade (Some false) false false) None 1
                    [Update (Some true); Then 0]) !! 0%nat = Some x /\
            a_wait x = Some (EnsureMounted false))
    by (vm_compute; eexists; split; reflexivity).
  destruct Hx as (x & Hx & Hw).
  split.
  - apply (proj1 (gate_is_made_before_the_broadcast RunesScript
                    (fade (Some false) false false) None 1
                    [Update (Some true); Then 0] 0 x false false None
                    (transition FirstScript (fade (Some false) false false)
                       None 1)));
      [discriminate | exact Hx | exact Hw].
  - apply (proj2 (gate_is_made_before_the_broadcast RunesScript
                    (fade (Some false) false false) None 1
                    [Update (Some true); Then 0] 0 x false false (Some true)
                    (transition FirstScript (fade (Some false) false false)
                       None 1))); reflexivity.
Defined.

(** C9 as stated fails for an activation that starts while the context
    counts no child.  A component enters with one child, which reports;
    the child is destroyed and the component leaves.  The leave installs
    nothing: [context.completed] is still the closure of the enter, and
    when a child is mounted during the leave and reports, the report is
    counted by that stale closure. *)
Lemma childless_activation_keeps_old_gate :
  let ps := fade (Some true) true false in
  let s := lifetime RunesScript ps None 1
             [Resume 0; Frame 0; Resume 0; TransitionEndEvent; ChildReported;
              Resume 0; Resume 0; ChildDestroyed; Update (Some false); Then 0;
              Resume 1] in
  In (Did 1 ChildrenCompleted) (log s) /\ In (Notified (Some false)) (log s) /\
  c_completed (context s) = Closure 0 /\
  g_owner <$> gates s !! 0%nat = Some 0%nat /\
  a_children <$> acts s !! 1%nat = Some Immediate /\
  g_count <$> gates s !! 0%nat = Some 1 /\
  g_count <$> gates (steps RunesScript ps false
                       [ChildSubscribed; ChildReported] s) !! 0%nat = Some 2.
Proof.
  vm_compute. repeat split; repeat (first [left; reflexivity | right]).
Qed.

Lemma runes_updates_are_serialized_witness :
  let ps := fade (Some false) false false in
  let evs := [Update (Some true); Then 0; Resume 0; Update (Some false);
              Frame 0; Resume 0] in
  one_at_a_time RunesScript ps false evs (transition RunesScript ps None 0)
  = true /\
  acts (step RunesScript ps false (Update (Some true))
          (lifetime RunesScript ps None 0 evs))
  = acts (lifetime RunesScript ps None 0 evs).
Proof.
  split; [reflexivity|].
  exact (proj1 (proj1 (proj2
    (runes_updates_are_serialized (fade (Some false) false false) 0
       [Update (Some true); Then 0; Resume 0; Update (Some false);
        Frame 0; Resume 0] 0 0
       (new_activation true [] [] [] []) (new_activation true [] [] [] [])
       (Some true) 0 0 eq_refl)))).
Defined.

(** C4 as stated fails in both scripts of src/lib/Transition.svelte:
    [update] calls [execute] at once.  After an update to true and an
    update to false the enter and the leave are both in flight, and the
    element carries the from classes of both. *)
Lemma older_scripts_start_updates_at_once :
  let ps := fade (Some false) false false in
  let first := lifetime FirstScript ps None 0
                 [Update (Some true); Update (Some false)] in
  let second := lifetime SecondScript ps None 0
                  [Update (Some true); Update (Some false); Resume 0; Resume 1] in
  map a_wait (acts first) = [Some AwaitNextFrame; Some AwaitNextFrame] /\
  classList first = ["ease"; "opacity-0"; "opacity-100"] /\
  map a_wait (acts second) = [Some AwaitNextFrame; Some AwaitNextFrame] /\
  classList second = ["ease"; "opacity-0"; "opacity-100"].
Proof. vm_compute. repeat split. Qed.

(** The script with runes chains every callback on the promise that
    [executing] holds when [update] is called: two updates that arrive
    during one activation are chained on the same promise, and their
    activations overlap. *)
Example runes_two_waiting_updates_overlap :
  let ps := fade (Some false) false false in
  let evs := [Update (Some true); Then 0; Resume 0; Update (Some false);
              Update (Some true); Frame 0; Resume 0; TransitionEndEvent;
              Resume 0; Resume 0; Then 0; Then 0; Resume 1; Resume 2] in
  let s := lifetime RunesScript ps None 0 evs in
  one_at_a_time RunesScript ps false evs (transition RunesScript ps None 0)
  = false /\
  map a_wait (acts s) = [None; Some AwaitNextFrame; Some AwaitNextFrame] /\
  classList s = ["ease"; "opacity-100"; "opacity-0"].
Proof. vm_compute. repeat split. Qed.

Lemma classes_never_yields_empty_name_witness :
  let s := lifetime RunesScript (fade (Some true) true false) None 0 [] in
  exists x, acts s !! 0%nat = Some x /\
    Forall (fun n => n <> "") (names_of x [Base; From]).
Proof.
  cbv zeta.
  assert (Hx : exists x,
            acts (lifetime RunesScript (fade (Some true) true false) None 0 [])
              !! 0%nat = Some x) by (vm_compute; eexists; reflexivity).
  destruct Hx as (x & Hx). exists x. split; [exact Hx|].
  exact (proj2 (proj2 (classes_never_yields_empty_name RunesScript
                         (fade (Some true) true false) None 0 [] 0 x
                         [Base; From] "")) Hx).
Defined.

(** ** The class list of the element *)

Lemma mem_In (x : string) (l : list string) : mem x l = true <-> In x l.
Proof.
  unfold mem. rewrite existsb_exists. split.
  - intros (y & Hy & E). apply String.eqb_eq in E. subst. assumption.
  - intros H. exists x. split; [assumption | apply String.eqb_refl].
Qed.

Lemma mem_false (x : string) (l : list string) : mem x l = false <-> ~ In x l.
Proof.
  rewrite <- mem_In. destruct (mem x l); split; congruence.
Qed.

Lemma addClasses_app (names more : list string) (cl : list string) :
  addClasses (names ++ more) cl = addClasses more (addClasses names cl).
Proof.
  revert cl. induction names as [|x r IH]; intros cl; simpl; [reflexivity|].
  apply IH.
Qed.

Lemma addClasses_In (names cl : list string) (x : string) :
  In x (addClasses names cl) <-> In x cl \/ In x names.
Proof.
  revert cl. induction names as [|y r IH]; intros cl; simpl; [tauto|].
  rewrite IH. destruct (mem y cl) eqn:E.
  - apply mem_In in E. split; [tauto|]. intros [H|[->|H]]; tauto.
  - rewrite in_app_iff. simpl. tauto.
Qed.

Lemma addClasses_NoDup (names cl : list string) :
  List.NoDup cl -> List.NoDup (addClasses names cl).
Proof.
  revert cl. induction names as [|y r IH]; intros cl H; simpl; [assumption|].
  apply IH. destruct (mem y cl) eqn:E; [assumption|].
  apply mem_false in E. apply NoDup_ListNoDup, NoDup_app.
  split; [apply NoDup_ListNoDup; assumption|]. split.
  - intros x Hx Hy. apply list_elem_of_In in Hx, Hy.
    destruct Hy as [<-|[]]. contradiction.
  - apply NoDup_singleton.
Qed.

Lemma addClasses_extends (names cl : list string) :
  exists more, addClasses names cl = cl ++ more.
Proof.
  revert cl. induction names as [|y r IH]; intros cl; simpl.
  - exists []. rewrite app_nil_r. reflexivity.
  - destruct (mem y cl).
    + apply IH.
    + destruct (IH (cl ++ [y])) as [more ->]. exists ([y] ++ more).
      rewrite app_assoc. reflexivity.
Qed.

Lemma removeClasses_In (names cl : list string) (x : string) :
  In x (removeClasses names cl) <-> In x cl /\ ~ In x names.
Proof.
  unfold removeClasses. rewrite filter_In, negb_true_iff, mem_false. tauto.
Qed.

Lemma removeClasses_app (names more cl : list string) :
  removeClasses (names ++ more) cl = removeClasses more (removeClasses names cl).
Proof.
  unfold removeClasses. induction cl as [|x cl IH]; simpl; [reflexivity|].
  unfold mem in *. rewrite existsb_app.
  destruct (existsb (String.eqb x) names); simpl; [exact IH|].
  destruct (existsb (String.eqb x) more); simpl; [exact IH|].
  rewrite IH. reflexivity.
Qed.

Lemma removeClasses_absent (names cl : list string) :
  (forall x, In x names -> ~ In x cl) -> removeClasses names cl = cl.
Proof.
  intros H. unfold removeClasses. induction cl as [|x cl IH]; simpl; [reflexivity|].
  destruct (mem x names) eqn:E.
  - apply mem_In in E. exfalso. apply (H x E). left. reflexivity.
  - simpl. rewrite IH; [reflexivity|]. intros y Hy Hin. apply (H y Hy).
    right. assumption.
Qed.

Lemma removeClasses_added (names extra cl : list string) :
  removeClasses names (cl ++ extra) =
  removeClasses names cl ++ removeClasses names extra.
Proof. apply List.filter_app. Qed.

Lemma removeClasses_addClasses (names cl : list string) :
  removeClasses names (addClasses names cl) = removeClasses names cl.
Proof.
  assert (G : forall done todo cl,
            removeClasses (done ++ todo) (addClasses todo cl) =
            removeClasses (done ++ todo) cl).
  { intros done todo. revert done.
    induction todo as [|y r IH]; intros done cl0; simpl; [reflexivity|].
    replace (done ++ y :: r) with ((done ++ [y]) ++ r)
      by (rewrite <- app_assoc; reflexivity).
    rewrite IH. destruct (mem y cl0); [reflexivity|].
    rewrite removeClasses_added.
    replace (removeClasses ((done ++ [y]) ++ r) [y]) with (@nil string).
    - apply app_nil_r.
    - unfold removeClasses. simpl.
      replace (mem y ((done ++ [y]) ++ r)) with true; [reflexivity|].
      symmetry. apply mem_In. rewrite !in_app_iff. simpl. tauto. }
  apply (G []).
Qed.

(** What [classList.add] does to the class list: the names handed over
    are in the list afterwards, nothing else has joined, no name is in it
    twice, and the classes that were there keep their places: the new
    ones come after them. *)
Theorem addClasses_adds_once (names cl : list string) :
  (forall x, In x (addClasses names cl) <-> In x cl \/ In x names) /\
  (List.NoDup cl -> List.NoDup (addClasses names cl)) /\
  (exists more, addClasses names cl = cl ++ more) /\
  addClasses names (addClasses names cl) = addClasses names cl.
Proof.
  split; [intros x; apply addClasses_In|].
  split; [apply addClasses_NoDup|].
  split; [apply addClasses_extends|].
  assert (G : forall names cl, (forall x, In x names -> In x cl) ->
            addClasses names cl = cl).
  { clear. induction names as [|y r IH]; intros cl H; simpl; [reflexivity|].
    replace (mem y cl) with true
      by (symmetry; apply mem_In, H; left; reflexivity).
    apply IH. intros x Hx. apply H. right. assumption. }
  apply G. intros x Hx. apply addClasses_In. right. assumption.
Qed.

(** Adding class names and removing them again gives the class list
    back as it was, in the same order, when the element had none of the
    names before; a name that the element had of its own is lost with
    them. *)
Theorem removeClasses_undoes_addClasses (names cl : list string) :
  removeClasses names (addClasses names cl) = removeClasses names cl /\
  ((forall x, In x names -> ~ In x cl) ->
   removeClasses names (addClasses names cl) = cl) /\
  (forall x, In x names -> ~ In x (removeClasses names (addClasses names cl))).
Proof.
  split; [apply removeClasses_addClasses|]. split.
  - intros H. rewrite removeClasses_addClasses. apply removeClasses_absent, H.
  - intros x Hx Hin. apply removeClasses_In in Hin. tauto.
Qed.

(** ** Lines and tokens *)

Lemma has_space_has_char (s : string) : has_space s = has_char " " s.
Proof. induction s as [|c r IH]; simpl; [reflexivity|]. rewrite IH. reflexivity. Qed.

Lemma join_join_with (ws : list string) : join ws = join_with " " ws.
Proof.
  induction ws as [|w ws IH]; [reflexivity|].
  destruct ws as [|w' ws]; [reflexivity|].
  change (join (w :: w' :: ws)) with (String.append w (String " " (join (w' :: ws)))).
  rewrite IH. reflexivity.
Qed.

Lemma split_free (sep : ascii) (s : string) :
  has_char sep s = false -> split sep s = [s].
Proof.
  induction s as [|c r IH]; simpl; [reflexivity|]. intros H.
  apply orb_false_iff in H. destruct H as [Hc Hr].
  rewrite Hc, (IH Hr). reflexivity.
Qed.

Lemma split_append (sep : ascii) (a b : string) :
  has_char sep a = false ->
  split sep (String.append a (String sep b)) = a :: split sep b.
Proof.
  induction a as [|c r IH]; simpl; intros H.
  - rewrite Ascii.eqb_refl. reflexivity.
  - apply orb_false_iff in H. destruct H as [Hc Hr].
    rewrite Hc, (IH Hr). reflexivity.
Qed.

Lemma split_nonempty (sep : ascii) (s : string) : split sep s <> [].
Proof.
  destruct s as [|c r]; simpl; [discriminate|].
  destruct (Ascii.eqb c sep); [discriminate|].
  destruct (split sep r); discriminate.
Qed.

Lemma split_free_of_sep (sep : ascii) (s : string) :
  Forall (fun x => has_char sep x = false) (split sep s).
Proof.
  induction s as [|c r IH]; simpl.
  - repeat constructor.
  - destruct (Ascii.eqb c sep) eqn:E.
    + constructor; [reflexivity | exact IH].
    + destruct (split sep r) as [|w ws] eqn:Er.
      * repeat constructor. simpl. rewrite E. reflexivity.
      * inversion IH; subst. constructor; [|assumption].
        simpl. rewrite E. simpl. assumption.
Qed.

Lemma join_with_cons (sep : ascii) (w : string) (ws : list string) :
  ws <> [] ->
  join_with sep (w :: ws) = String.append w (String sep (join_with sep ws)).
Proof. destruct ws; [congruence | reflexivity]. Qed.

Lemma split_join_with (sep : ascii) (ws : list string) :
  ws <> [] -> Forall (fun x => has_char sep x = false) ws ->
  split sep (join_with sep ws) = ws.
Proof.
  induction ws as [|w ws IH]; [congruence|]. intros _ H.
  inversion H as [|? ? Hw Hws]; subst.
  destruct ws as [|w' ws].
  - simpl. apply split_free. assumption.
  - rewrite join_with_cons by discriminate.
    rewrite split_append by assumption.
    rewrite IH; [reflexivity | discriminate | assumption].
Qed.

Lemma join_with_split (sep : ascii) (s : string) :
  join_with sep (split sep s) = s.
Proof.
  induction s as [|c r IH]; [reflexivity|].
  simpl. destruct (Ascii.eqb c sep) eqn:E.
  - apply Ascii.eqb_eq in E. subst c.
    rewrite join_with_cons by apply split_nonempty. rewrite IH. reflexivity.
  - pose proof (split_nonempty sep r) as Hn.
    destruct (split sep r) as [|w ws]; [congruence|].
    destruct ws as [|w' ws].
    + simpl in *. rewrite IH. reflexivity.
    + rewrite join_with_cons by discriminate.
      rewrite join_with_cons in IH by discriminate.
      rewrite <- IH. reflexivity.
Qed.

Lemma filter_idem {A} (f : A -> bool) (l : list A) :
  List.filter f (List.filter f l) = List.filter f l.
Proof.
  induction l as [|x l IH]; simpl; [reflexivity|].
  destruct (f x) eqn:E; simpl; [rewrite E, IH|]; auto.
Qed.

Lemma filter_all {A} (f : A -> bool) (l : list A) :
  Forall (fun x => f x = true) l -> List.filter f l = l.
Proof.
  induction 1 as [|x l Hx Hl IH]; simpl; [reflexivity|].
  rewrite Hx, IH. reflexivity.
Qed.

(** The class list of a string is a fixed point: written out with single
    spaces and read again by [classes], it is the same list. *)
Theorem classes_of_joined_classes (s : string) :
  classes (join (classes s)) = classes s.
Proof.
  rewrite (classes_split (join (classes s))), join_join_with.
  destruct (classes s) as [|w ws] eqn:E; [reflexivity|].
  rewrite split_join_with.
  - rewrite <- E. rewrite classes_split. apply filter_idem.
  - discriminate.
  - rewrite <- E. pose proof (classes_no_space s) as H.
    eapply Forall_impl; [exact H|]. simpl. intros x Hx.
    rewrite <- has_space_has_char. exact Hx.
Qed.

(** ** The converter page *)

Lemma removeEmptyLines_kept (value : string) :
  let kept := List.filter (fun l => negb (String.eqb l "  "))
                (split newline value) in
  (kept <> [] -> split newline (removeEmptyLines value) = kept) /\
  (kept = [] -> removeEmptyLines value = "").
Proof.
  intros kept. unfold removeEmptyLines. fold kept. split.
  - intros Hne. apply split_join_with; [exact Hne|].
    pose proof (split_free_of_sep newline value) as H.
    apply Forall_forall. intros x Hx. apply list_elem_of_In in Hx.
    apply filter_In in Hx. destruct Hx as [Hx _].
    rewrite Forall_forall in H. apply H. apply list_elem_of_In. exact Hx.
  - intros ->. reflexivity.
Qed.

(** [removeEmptyLines] takes out the lines that are exactly two spaces
    and no other line: an empty line, or a line of one or three spaces,
    stays.  The lines left keep their order; a text without such a line
    comes back unchanged; a text of such lines only gives the empty
    string; and a second pass changes nothing. *)
Theorem removeEmptyLines_two_space_lines_only (value : string) :
  let kept := List.filter (fun l => negb (String.eqb l "  "))
                (split newline value) in
  (kept <> [] -> split newline (removeEmptyLines value) = kept) /\
  (kept = [] -> removeEmptyLines value = "") /\
  (~ In "  " (split newline value) -> removeEmptyLines value = value) /\
  removeEmptyLines (removeEmptyLines value) = removeEmptyLines value /\
  removeEmptyLines (join_with newline ["a"; ""; " "; "  "; "   "; "b"]) =
    join_with newline ["a"; ""; " "; "   "; "b"].
Proof.
  intros kept. pose proof (removeEmptyLines_kept value) as [H1 H2].
  fold kept in H1, H2. split; [exact H1|]. split; [exact H2|]. split.
  - intros Hno. unfold removeEmptyLines. rewrite filter_all.
    + apply join_with_split.
    + apply Forall_forall. intros x Hx. apply list_elem_of_In in Hx.
      apply negb_true_iff. apply String.eqb_neq. intros ->. contradiction.
  - split; [|reflexivity].
    destruct kept as [|k ks] eqn:E.
    + rewrite H2 by reflexivity. reflexivity.
    + unfold removeEmptyLines at 1. rewrite H1 by discriminate.
      rewrite <- E. unfold kept. rewrite filter_idem. reflexivity.
Qed.

Lemma has_char_append (c : ascii) (a b : string) :
  has_char c (String.append a b) = has_char c a || has_char c b.
Proof.
  induction a as [|d r IH]; simpl; [reflexivity|].
  rewrite IH. apply orb_assoc.
Qed.

Lemma template_lines (g : Groups) :
  template g =
  join_with newline
    [ String.append "<!-- " (String.append (m_description g) " -->");
      "<Transition";
      String.append "  enter=" (m_enter g);
      String.append "  enterFrom=" (m_enterFrom g);
      String.append "  enterTo=" (m_enterTo g);
      optional_line "leave" (m_leave g) (m_enter g);
      optional_line "leaveFrom" (m_leaveFrom g) (m_enterTo g);
      optional_line "leaveTo" (m_leaveTo g) (m_enterFrom g);
      ">";
      "</Transition>" ].
Proof. reflexivity. Qed.

Lemma optional_line_free (name x d : string) :
  has_char newline name = false -> has_char newline x = false ->
  has_char newline (optional_line name x d) = false.
Proof.
  intros Hn Hx. unfold optional_line, written.
  destruct (String.eqb x d); [reflexivity|].
  rewrite !has_char_append, Hn, Hx. reflexivity.
Qed.

Lemma optional_line_kept (name x d : string) :
  List.filter (fun l => negb (String.eqb l "  ")) [optional_line name x d] =
  written_line name x d.
Proof.
  unfold optional_line, written_line, written.
  destruct (String.eqb x d); [reflexivity|].
  simpl. destruct name; reflexivity.
Qed.

(** The markup that the converter shows: the comment, the three enter
    attributes, a leave attribute for each leave value that differs from
    the value it would default to, and the closing lines; no line of two
    spaces is left where an attribute is not written. *)
Theorem result_writes_only_differing_leave (g : Groups) :
  free_of_newline g = true ->
  result (Some g) =
  join_with newline
    ([ String.append "<!-- " (String.append (m_description g) " -->");
       "<Transition";
       String.append "  enter=" (m_enter g);
       String.append "  enterFrom=" (m_enterFrom g);
       String.append "  enterTo=" (m_enterTo g) ]
     ++ written_line "leave" (m_leave g) (m_enter g)
     ++ written_line "leaveFrom" (m_leaveFrom g) (m_enterTo g)
     ++ written_line "leaveTo" (m_leaveTo g) (m_enterFrom g)
     ++ [ ">"; "</Transition>" ]).
Proof.
  unfold free_of_newline. rewrite !andb_true_iff, !negb_true_iff.
  intros ((((((Hd & He) & Hef) & Het) & Hl) & Hlf) & Hlt).
  unfold result, removeEmptyLines. rewrite template_lines.
  rewrite split_join_with; [|discriminate|].
  - f_equal.
    change (?a :: ?b :: ?c :: ?d :: ?e :: ?f :: ?g' :: ?h :: ?r)
      with ([a; b; c; d; e] ++ [f] ++ [g'] ++ [h] ++ r).
    rewrite !List.filter_app, !optional_line_kept. reflexivity.
  - repeat constructor;
      rewrite ?has_char_append, ?Hd, ?He, ?Hef, ?Het; try reflexivity;
      apply optional_line_free; (reflexivity || assumption).
Qed.

Lemma result_writes_only_differing_leave_witness :
  result (Some {| m_description := "Modal panel";
                  m_enter := "ease-out"; m_enterFrom := "opacity-0";
                  m_enterTo := "opacity-100"; m_leave := "ease-in";
                  m_leaveFrom := "opacity-100"; m_leaveTo := "opacity-0" |}) =
  join_with newline
    [ "<!-- Modal panel -->"; "<Transition"; "  enter=ease-out";
      "  enterFrom=opacity-0"; "  enterTo=opacity-100"; "  leave=ease-in";
      ">"; "</Transition>" ].
Proof.
  exact (result_writes_only_differing_leave
           {| m_description := "Modal panel";
              m_enter := "ease-out"; m_enterFrom := "opacity-0";
              m_enterTo := "opacity-100"; m_leave := "ease-in";
              m_leaveFrom := "opacity-100"; m_leaveTo := "opacity-0" |}
           eq_refl).
Defined.

(** Leaving out a leave attribute loses nothing: the component that
    reads the markup of the converter derives, for every leave field,
    the class list of the value that was in the comment, whether the
    attribute was written out or left to its default. *)
Theorem converter_keeps_leave_classes (value : string -> string) (g : Groups) :
  leaveClasses (props_of value g) = classes (value (m_leave g)) /\
  leaveFromClasses (props_of value g) = classes (value (m_leaveFrom g)) /\
  leaveToClasses (props_of value g) = classes (value (m_leaveTo g)) /\
  enterClasses (props_of value g) = classes (value (m_enter g)) /\
  enterFromClasses (props_of value g) = classes (value (m_enterFrom g)) /\
  enterToClasses (props_of value g) = classes (value (m_enterTo g)).
Proof.
  assert (H : forall x d, or_default (value <$> written x d) (value d) = value x).
  { intros x d. unfold written. destruct (String.eqb x d) eqn:E; simpl.
    - apply String.eqb_eq in E. subst. reflexivity.
    - reflexivity. }
  unfold leaveClasses, leaveFromClasses, leaveToClasses, props_of; simpl.
  rewrite !H. repeat split.
Qed.

(** ** The two-frame barrier *)

Lemma run_callbacks_spec (cbs next : list callback) (done : list nat) :
  run_callbacks cbs next done = (next ++ later cbs, done ++ due cbs).
Proof.
  revert next done. induction cbs as [|cb r IH]; intros next done; simpl.
  - rewrite !app_nil_r. reflexivity.
  - destruct cb as [p|cb]; rewrite IH; unfold requestAnimationFrame;
      rewrite <- ?app_assoc; reflexivity.
Qed.

Lemma later_target (p : nat) (cbs : list callback) :
  Forall (fun cb => target cb <> p) cbs ->
  Forall (fun cb => target cb <> p) (later cbs).
Proof.
  induction 1 as [|cb r Hcb Hr IH]; simpl; [constructor|].
  destruct cb as [q|cb]; simpl; [assumption|]. constructor; assumption.
Qed.

Lemma due_target (p : nat) (cbs : list callback) :
  Forall (fun cb => target cb <> p) cbs -> ~ In p (due cbs).
Proof.
  induction 1 as [|cb r Hcb Hr IH]; simpl; [tauto|].
  destruct cb as [q|cb]; simpl in *; [|assumption].
  intros [E|H]; [congruence | tauto].
Qed.

(** The promise of [nextFrame] is not resolved in the animation frame
    that follows the call: it is resolved in the one after, once, and
    nothing of the call is left in the list of callbacks then.  Class
    names swapped after [await nextFrame()] are therefore never swapped
    in the frame in which the first ones were put on the element. *)
Theorem nextFrame_resolves_in_second_frame (p : nat) (q : list callback) :
  Forall (fun cb => target cb <> p) q ->
  let first := animation_frame (nextFrame p q) in
  let second := animation_frame first.1 in
  ~ In p first.2 /\
  count_occ Nat.eq_dec second.2 p = 1%nat /\
  Forall (fun cb => target cb <> p) second.1.
Proof.
  intros Hq first second. unfold second, first, animation_frame, nextFrame.
  unfold requestAnimationFrame. rewrite run_callbacks_spec. simpl.
  rewrite run_callbacks_spec. simpl.
  unfold later, due. rewrite !flat_map_app. simpl. rewrite !app_nil_r.
  fold (later q) (due q). fold (later (later q)) (due (later q)).
  pose proof (later_target p q Hq) as H1.
  pose proof (later_target p _ H1) as H2.
  split; [apply due_target; assumption|]. split; [|assumption].
  rewrite count_occ_app. simpl.
  destruct (Nat.eq_dec p p) as [_|N]; [|congruence].
  pose proof (due_target p _ H1) as H3.
  apply (count_occ_not_In Nat.eq_dec) in H3. rewrite H3. reflexivity.
Qed.

Lemma nextFrame_resolves_in_second_frame_witness :
  let q := nextFrame 0 [] in
  let first := animation_frame (nextFrame 1 q) in
  let second := animation_frame first.1 in
  ~ In 1%nat first.2 /\
  count_occ Nat.eq_dec second.2 1%nat = 1%nat /\
  Forall (fun cb => target cb <> 1%nat) second.1.
Proof.
  apply (nextFrame_resolves_in_second_frame 1 (nextFrame 0 [])).
  repeat constructor. simpl. lia.
Defined.

(** ** Induction on the life of a component *)

Lemma transition_initial (sc : script) (ps : Props)
    (ancestor : option (bool * option bool)) (kids : Z) :
  transition sc ps ancestor kids =
  execute sc ps (has_parent ps ancestor) (first_show ps ancestor)
    (initial sc ps ancestor kids).
Proof.
  unfold has_parent, first_show, initial.
  destruct sc; simpl;
    unfold Legacy.transition, Slots.transition, Runes.transition;
    destruct (find_parent ps ancestor) as [[pa v]|]; reflexivity.
Qed.

Lemma initial_inv (sc : script) (ps : Props)
    (ancestor : option (bool * option bool)) (kids : Z) :
  inv sc ps (initial sc ps ancestor kids).
Proof. intros a x Hx. discriminate Hx. Qed.

Lemma run_sync_cons (unmount hp : bool) (a : nat) (i : instr)
    (rest : list instr) (s : state) :
  run_sync unmount hp a (i :: rest) s =
  let '(s', o) := exec unmount hp a i (st_log (Did a i) s) in
  match o with
  | Next => run_sync unmount hp a rest (settle a i rest o s')
  | _ => settle a i rest o s'
  end.
Proof.
  simpl. destruct (exec unmount hp a i (st_log (Did a i) s)) as [s' []];
    reflexivity.
Qed.

Lemma resume_mid (sc : script) (ps : Props) (a : nat) (x : activation)
    (i : instr) (s : state) :
  inv sc ps s -> acts s !! a = Some x -> a_wait x = Some i ->
  ready s x i = true ->
  mid sc ps a (a_rest x)
    (wake i x (st_log (Resumed a i) (on_act a (act_done i) s))).
Proof.
  intros H Hx Hw Hr.
  eapply (mid_ext _ _ _ _ (on_act a (act_done i) s));
    [destruct i; reflexivity | destruct i; reflexivity |].
  destruct (H a x Hx) as (Hpre & Hcl & Hj).
  unfold wait_list in Hpre. rewrite Hw in Hpre. split.
  - exists (act_done i x). split.
    + simpl. rewrite list_lookup_alter_eq, Hx. reflexivity.
    + unfold follows. simpl. split; [rewrite <- app_assoc; exact Hpre|].
      split; [assumption|].
      intros w Hin. apply in_app_or in Hin. destruct Hin as [Hin|[Hi|[]]].
      * apply Hj. assumption.
      * subst w. split; intros Hi; apply bool_decide_eq_true in Hi;
          destruct Hi as [Hi|Hi]; subst i; simpl in Hr.
        -- apply andb_prop in Hr. destruct Hr as [H1 _].
           apply bool_decide_eq_true in H1. assumption.
        -- apply bool_decide_eq_true in Hr. assumption.
        -- apply andb_prop in Hr. destruct Hr as [_ H2]. assumption.
        -- assumption.
  - intros b y Hb Hy. simpl in Hy.
    rewrite list_lookup_alter_ne in Hy by congruence. apply (H b); assumption.
Qed.

Lemma start_mid (sc : script) (ps : Props) (show : bool) (s : state) :
  inv sc ps s ->
  mid sc ps (length (acts s)) (program sc show)
    (st_acts (fun l => l ++ [new_activation show (classes_of ps show).1.1
                               (classes_of ps show).1.2 (classes_of ps show).2
                               (program sc show)]) s).
Proof.
  intros H. split.
  - eexists. split.
    + simpl. apply list_lookup_middle. reflexivity.
    + unfold follows. simpl. split; [reflexivity|]. split; [|intros w []].
      destruct (classes_of ps show) as [[? ?] ?]. reflexivity.
  - intros b y Hb Hy. simpl in Hy. simpl.
    apply lookup_app_Some in Hy. destruct Hy as [Hy|[Hlen Hy]].
    + apply (H b); assumption.
    + destruct (b - length (acts s))%nat eqn:E; [lia|]. discriminate Hy.
Qed.

Lemma animate_start (sc : script) (ps : Props) (hp : bool)
    (show : option bool) (s : state) :
  match sc with
  | FirstScript => Legacy.animate ps hp show s
  | SecondScript => Slots.animate ps hp show s
  | RunesScript => Runes.animate ps hp show s
  end =
  start (p_unmount ps) hp (is_true show) (classes_of ps (is_true show)).1.1
    (classes_of ps (is_true show)).1.2 (classes_of ps (is_true show)).2
    (program sc (is_true show)) s.
Proof.
  destruct sc; unfold Legacy.animate, Slots.animate, Runes.animate;
    destruct (is_true show); reflexivity.
Qed.

Section Reach.
Variables (sc : script) (ps : Props) (hp : bool).
Variable P : state -> Prop.

Hypothesis P_exec : forall a i rest s s' o,
  mid sc ps a (i :: rest) s ->
  (exists x, acts s !! a = Some x /\ a_wait x = None) -> P s ->
  exec (p_unmount ps) hp a i (st_log (Did a i) s) = (s', o) ->
  P (settle a i rest o s').
Hypothesis P_return : forall a s,
  mid sc ps a [] s ->
  (exists x, acts s !! a = Some x /\ a_wait x = None) -> P s ->
  P (on_act a act_return s).
Hypothesis P_resume : forall a x i s,
  inv sc ps s -> P s -> acts s !! a = Some x -> a_wait x = Some i ->
  ready s x i = true ->
  P (wake i x (st_log (Resumed a i) (on_act a (act_done i) s))).
Hypothesis P_start : forall show s,
  inv sc ps s -> P s ->
  P (st_acts (fun l => l ++ [new_activation show (classes_of ps show).1.1
                               (classes_of ps show).1.2 (classes_of ps show).2
                               (program sc show)]) s).
Hypothesis P_frame : forall a s, P s -> P (on_act a (act_frame true) s).
Hypothesis P_parent : forall a s, P s -> P (on_act a (act_parent true) s).
Hypothesis P_transitionend : forall s, inv sc ps s -> P s -> P (transitionend s).
Hypothesis P_count : forall n s,
  P s -> P (st_context (fun c => with_count n c) s).
Hypothesis P_reported : forall s, inv sc ps s -> P s -> P (child_reported s).
Hypothesis P_store : forall v s, P s -> P (store_set v s).
Hypothesis P_run : forall b s, P s -> P (st_run b s).
Hypothesis P_executing : forall e s, P s -> P (st_executing e s).
Hypothesis P_thens : forall f s, P s -> P (st_thens f s).
Hypothesis P_wrapper : forall b s, P s -> P (st_wrapper b s).
Hypothesis P_display : forall v s, P s -> P (st_el_display v s).
Hypothesis P_template : forall show s,
  sc = FirstScript -> P s ->
  P (st_mounted (Some (is_true show || negb (p_unmount ps))) s).

Lemma run_sync_keeps (a : nat) (prog : list instr) (s : state) :
  mid sc ps a prog s ->
  (exists x, acts s !! a = Some x /\ a_wait x = None) -> P s ->
  P (run_sync (p_unmount ps) hp a prog s).
Proof.
  revert s. induction prog as [|i rest IH]; intros s Hm Hr Hp.
  - apply P_return; assumption.
  - rewrite run_sync_cons.
    destruct (exec (p_unmount ps) hp a i (st_log (Did a i) s)) as [s' o] eqn:He.
    pose proof (P_exec a i rest s s' o Hm Hr Hp He) as Hp'.
    pose proof (exec_mid sc ps hp a i rest _ s' o
                  (mid_ext sc ps a _ s (st_log (Did a i) s) eq_refl eq_refl Hm)
                  He) as Hm'.
    destruct o; [|assumption|assumption].
    apply IH; [assumption| |assumption].
    destruct (exec_effect _ _ _ _ _ _ _ He) as ((f & Hacts & _) & _).
    destruct Hr as (x & Hx & _). exists (act_done i (f x)). split; [|reflexivity].
    simpl. rewrite list_lookup_alter_eq, Hacts, list_lookup_alter_eq. simpl.
    rewrite Hx. reflexivity.
Qed.

Lemma resume_keeps (a : nat) (s : state) :
  inv sc ps s -> P s -> P (resume (p_unmount ps) hp a s).
Proof.
  intros Hi Hp. unfold resume.
  destruct (acts s !! a) as [x|] eqn:Hx; [|assumption].
  destruct (a_wait x) as [i|] eqn:Hw; [|assumption].
  destruct (ready s x i) eqn:Hr; [|assumption].
  apply run_sync_keeps.
  - apply resume_mid; assumption.
  - exists (act_done i x). split; [|reflexivity].
    destruct i; simpl; rewrite list_lookup_alter_eq, Hx; reflexivity.
  - apply P_resume; assumption.
Qed.

Lemma animate_keeps (show : option bool) (s : state) :
  inv sc ps s -> P s ->
  P (match sc with
     | FirstScript => Legacy.animate ps hp show s
     | SecondScript => Slots.animate ps hp show s
     | RunesScript => Runes.animate ps hp show s
     end).
Proof.
  intros Hi Hp. rewrite animate_start. unfold start.
  apply run_sync_keeps; [apply start_mid; assumption | | apply P_start; assumption].
  eexists. split; [simpl; apply list_lookup_middle; reflexivity | reflexivity].
Qed.

Lemma execute_keeps (show : option bool) (s : state) :
  inv sc ps s -> P s -> P (execute sc ps hp show s).
Proof.
  intros Hi Hp. pose proof (animate_keeps show) as Ha.
  pose proof (animate_inv sc ps hp show) as Hai.
  destruct sc; simpl.
  - unfold Legacy.execute. destruct (run s).
    + apply P_run, P_store, Ha; assumption.
    + destruct (el (st_wrapper true s)) eqn:Hel; [|apply P_wrapper; assumption].
      destruct (p_appear ps).
      * apply P_run, P_store, Ha; [|apply P_display, P_wrapper; assumption].
        eapply inv_ext; [| |exact Hi]; reflexivity.
      * apply P_run, P_store, P_display, P_wrapper; assumption.
  - unfold Slots.execute. apply P_run. destruct (run s); [|assumption].
    apply Ha; assumption.
  - unfold Runes.execute. apply P_run. destruct (run s).
    + apply P_executing, Ha; assumption.
    + apply P_executing; assumption.
Qed.

Lemma step_keeps (ev : event) (s : state) :
  inv sc ps s -> P s -> P (step sc ps hp ev s).
Proof.
  intros Hi Hp. destruct ev; simpl.
  - pose proof (execute_keeps show) as He. destruct sc; simpl.
    + unfold Legacy.update. apply He.
      * eapply inv_ext; [| |exact Hi]; reflexivity.
      * apply P_template; [reflexivity | assumption].
    + apply He; assumption.
    + unfold Runes.update. apply P_thens. assumption.
  - pose proof (execute_keeps show s Hi Hp) as He.
    destruct hp; assumption.
  - unfold run_then. destruct (thens s !! k) as [[p show]|]; [|assumption].
    case_match; [|assumption]. apply execute_keeps.
    + eapply inv_ext; [| |exact Hi]; reflexivity.
    + apply P_thens. assumption.
  - apply resume_keeps; assumption.
  - unfold frame. repeat case_match; try assumption. apply P_frame. assumption.
  - apply P_transitionend; assumption.
  - unfold parent_settled. repeat case_match; try assumption.
    apply P_parent. assumption.
  - apply P_count. assumption.
  - apply P_count. assumption.
  - apply P_reported; assumption.
Qed.

Lemma steps_keeps (evs : list event) (s : state) :
  inv sc ps s -> P s -> inv sc ps (steps sc ps hp evs s) /\ P (steps sc ps hp evs s).
Proof.
  revert s. induction evs as [|ev evs IH]; intros s Hi Hp; simpl; [tauto|].
  apply IH; [apply step_inv | apply step_keeps]; assumption.
Qed.

(** A property that every statement and every event keeps holds for the
    whole life of the component, once the component is created with it. *)
Lemma lifetime_keeps (ancestor : option (bool * option bool)) (kids : Z)
    (evs : list event) :
  hp = has_parent ps ancestor ->
  P (initial sc ps ancestor kids) ->
  P (lifetime sc ps ancestor kids evs).
Proof.
  intros Hhp Hinit. unfold lifetime. rewrite <- Hhp.
  apply steps_keeps; [apply transition_inv|].
  rewrite transition_initial, <- Hhp.
  apply execute_keeps; [apply initial_inv | assumption].
Qed.

End Reach.

Lemma transitionend_keeps (P : state -> Prop) :
  (forall f s, P s -> P (st_listeners f s)) ->
  (forall a s, P s -> P (on_act a (act_transitioned (Some true)) s)) ->
  forall s, P s -> P (transitionend s).
Proof.
  intros Hl Ht s Hp. unfold transitionend.
  destruct (deliver (listeners s)) as [[ls performed] stopped].
  assert (G : forall hs t, P t -> P (fold_left (fun s h => perform h s) hs t)).
  { induction hs as [|h hs IH]; intros t Ht'; simpl; [assumption|].
    apply IH. destruct h; simpl; [assumption | apply Ht; assumption]. }
  apply G, Hl, Hp.
Qed.

Lemma kept_steps (sc : script) (ps : Props) (hp : bool) (P : state -> Prop)
    (evs : list event) (s : state) :
  kept sc ps hp P -> inv sc ps s -> P s -> P (steps sc ps hp evs s).
Proof.
  intros [] Hi Hp. apply (steps_keeps sc ps hp P); assumption.
Qed.

Lemma kept_lifetime (sc : script) (ps : Props)
    (ancestor : option (bool * option bool)) (kids : Z) (P : state -> Prop)
    (evs : list event) :
  kept sc ps (has_parent ps ancestor) P ->
  P (initial sc ps ancestor kids) ->
  P (lifetime sc ps ancestor kids evs).
Proof.
  intros [] Hp.
  apply (lifetime_keeps sc ps (has_parent ps ancestor) P); auto.
Qed.

(** ** What the operations leave alone *)

Lemma store_set_frame (v : option bool) (s : state) :
  mounted (store_set v s) = mounted s /\ el (store_set v s) = el s /\
  classList (store_set v s) = classList s /\
  listeners (store_set v s) = listeners s /\
  wrapper (store_set v s) = wrapper s /\
  c_count (context (store_set v s)) = c_count (context s) /\
  c_completed (context (store_set v s)) = c_completed (context s).
Proof.
  unfold store_set, set. destruct (decide (c_show (context s) = v));
    repeat split.
Qed.

Lemma transitionend_frame (s : state) :
  mounted (transitionend s) = mounted s /\ el (transitionend s) = el s /\
  classList (transitionend s) = classList s /\
  context (transitionend s) = context s /\
  gates (transitionend s) = gates s /\ log (transitionend s) = log s /\
  wrapper (transitionend s) = wrapper s /\
  length (acts (transitionend s)) = length (acts s).
Proof.
  unfold transitionend.
  destruct (deliver (listeners s)) as [[ls performed] stopped].
  set (t := st_listeners (fun _ => ls) s).
  change (mounted s) with (mounted t). change (el s) with (el t).
  change (classList s) with (classList t). change (context s) with (context t).
  change (gates s) with (gates t). change (log s) with (log t).
  change (wrapper s) with (wrapper t). change (acts s) with (acts t).
  clearbody t. revert t.
  induction performed as [|h hs IH]; intros t; simpl; [repeat split|].
  destruct (IH (perform h t)) as (H1 & H2 & H3 & H4 & H5 & H6 & H7 & H8).
  rewrite H1, H2, H3, H4, H5, H6, H7, H8.
  destruct h; simpl; repeat split. apply length_alter.
Qed.

Lemma exec_mounted (unmount hp : bool) (a : nat) (i : instr) (s s' : state)
    (o : outcome) :
  exec unmount hp a i s = (s', o) ->
  el s' = el s /\ (unmount = false -> mounted s' = mounted s).
Proof.
  unfold exec. intros H.
  destruct (acts s !! a) as [x|]; [|inversion H; subst; destruct i; repeat split].
  destruct i; simpl in H; unfold store_set, set, childrenCompleted in *;
    repeat case_match; simplify_eq/=; repeat split; try congruence.
  all: intros ->; discriminate.
Qed.

Lemma settle_frame (a : nat) (i : instr) (rest : list instr) (o : outcome)
    (s : state) :
  mounted (settle a i rest o s) = mounted s /\ el (settle a i rest o s) = el s /\
  classList (settle a i rest o s) = classList s /\
  listeners (settle a i rest o s) = listeners s /\
  wrapper (settle a i rest o s) = wrapper s /\
  context (settle a i rest o s) = context s /\
  gates (settle a i rest o s) = gates s.
Proof. destruct o; repeat split. Qed.

(** Without [unmount] the content that the component wraps is in the
    tree from the creation of the component on and is never taken out,
    whatever the host, the frames, the transitions and the children do:
    hiding is left to the wrapper and to the style of the element. *)
Theorem content_stays_mounted (sc : script) (ps : Props)
    (ancestor : option (bool * option bool)) (kids : Z) (evs : list event) :
  p_unmount ps = false ->
  mounted (lifetime sc ps ancestor kids evs) = Some true.
Proof.
  intros Hu.
  apply (lifetime_keeps sc ps (has_parent ps ancestor)
           (fun s => mounted s = Some true));
    try reflexivity; try (intros; simpl; assumption).
  - intros a i rest s s' o _ _ Hp He.
    destruct (settle_frame a i rest o s') as [-> _].
    destruct (exec_mounted _ _ _ _ _ _ _ He) as (_ & Hm).
    rewrite (Hm Hu). exact Hp.
  - intros a x i s _ Hp _ _ _. destruct i; exact Hp.
  - intros s _ Hp. destruct (transitionend_frame s) as [-> _]. exact Hp.
  - intros v s Hp. destruct (store_set_frame v s) as [-> _]. exact Hp.
  - intros show s _ _. simpl. rewrite Hu, orb_true_r. reflexivity.
  - destruct sc; simpl; rewrite Hu; simpl; rewrite ?orb_true_r; reflexivity.
Qed.

Lemma content_stays_mounted_witness :
  mounted (lifetime RunesScript (fade (Some true) true false) None 0
             [Resume 0; Frame 0; Resume 0; TransitionEndEvent; Resume 0;
              Resume 0; Update (Some false); Then 0; Resume 1; Frame 1;
              Resume 1; TransitionEndEvent; Resume 1; Resume 1]) = Some true.
Proof.
  apply (content_stays_mounted RunesScript (fade (Some true) true false)).
  reflexivity.
Defined.

(** With [unmount] a leave takes the content out once it is over. *)
Example unmount_takes_content_out :
  mounted (lifetime SecondScript (fade (Some true) false true) None 0
             [Update (Some false); Resume 0; Frame 0; Resume 0;
              TransitionEndEvent; Resume 0; Resume 0]) = Some false.
Proof. vm_compute. reflexivity. Qed.

(** ** Statements that need the element *)









(** ** The first script without an element *)

Lemma idle_execute (ps : Props) (hp : bool) (show : option bool) (s : state) :
  idle ps s -> idle ps (Legacy.execute ps hp show s).
Proof.
  intros (H1 & H2 & H3 & H4 & H5 & H6 & H7 & H8 & H9).
  unfold Legacy.execute. rewrite H3. simpl. rewrite H2.
  repeat split; assumption.
Qed.

Lemma idle_step (ps : Props) (hp : bool) (ev : event) (s : state) :
  idle ps s -> idle ps (step FirstScript ps hp ev s).
Proof.
  intros H. pose proof H as (H1 & H2 & H3 & H4 & H5 & H6 & H7 & H8 & H9).
  destruct ev; simpl.
  - unfold Legacy.update. apply idle_execute. repeat split; assumption.
  - destruct hp; [apply idle_execute|]; exact H.
  - unfold run_then. rewrite H7. exact H.
  - unfold resume. rewrite H1. exact H.
  - unfold frame. rewrite H1. exact H.
  - unfold transitionend. rewrite H5. simpl. repeat split; assumption.
  - unfold parent_settled. rewrite H1. exact H.
  - repeat split; assumption.
  - repeat split; assumption.
  - unfold child_reported, completed. repeat split; try assumption.
    simpl. rewrite H8. assumption.
Qed.

(** The first script takes the wrapped element once, when its action
    runs.  A component that is created hidden with [unmount] has no
    content then: [execute] throws at [el.style] before it has set
    [initialized], on the first call and on every later one.  Such a
    component never starts an enter or a leave, dispatches nothing and
    never tells its children a new value, whatever the host does; the
    template alone puts the content in the tree and takes it out. *)
Theorem first_script_without_element_never_starts (ps : Props)
    (ancestor : option (bool * option bool)) (kids : Z) (evs : list event) :
  p_unmount ps = true -> is_true (p_show ps) = false ->
  let s := lifetime FirstScript ps ancestor kids evs in
  acts s = [] /\ run s = false /\ log s = [] /\
  c_show (context s) = p_show ps.
Proof.
  intros Hu Hs s.
  assert (G : forall evs t, idle ps t ->
            idle ps (steps FirstScript ps (has_parent ps ancestor) evs t)).
  { clear. induction evs as [|ev evs IH]; intros t Ht; simpl; [exact Ht|].
    apply IH, idle_step, Ht. }
  assert (Hi : idle ps s).
  { unfold s, lifetime. apply G. rewrite transition_initial.
    simpl. apply idle_execute. unfold initial. simpl. rewrite Hu, Hs.
    repeat split. }
  destruct Hi as (H1 & H2 & H3 & H4 & H5 & H6 & H7 & H8 & H9). tauto.
Qed.

Lemma first_script_without_element_never_starts_witness :
  let s := lifetime FirstScript (fade (Some false) true true) None 0
             [Update (Some true); Frame 0; Resume 0; Update (Some false)] in
  acts s = [] /\ run s = false /\ log s = [] /\
  c_show (context s) = Some false.
Proof.
  apply (first_script_without_element_never_starts
           (fade (Some false) true true) None 0
           [Update (Some true); Frame 0; Resume 0; Update (Some false)]);
    reflexivity.
Defined.

(** ** The second script with [mounted] at [null] *)

Lemma upto_spec (z i : instr) (d r : list instr) :
  ~ In z d -> In i (upto z (d ++ i :: r)).
Proof.
  induction d as [|k d IH]; simpl; intros H.
  - destruct (bool_decide (i = z)); left; reflexivity.
  - destruct (bool_decide (k = z)) eqn:E.
    + apply bool_decide_eq_true in E. tauto.
    + right. apply IH. tauto.
Qed.

Lemma exec_unmounted (hp : bool) (a : nat) (i : instr) (show : bool)
    (s s' : state) (o : outcome) (x : activation) :
  exec true hp a i s = (s', o) -> acts s !! a = Some x ->
  mounted s = None -> el s = false ->
  In i (upto (AddClasses [Base]) (program SecondScript show)) ->
  mounted s' = None /\ el s' = false /\ classList s' = classList s /\
  (i = AddClasses [Base] -> o = Throw) /\
  (o = Suspend -> is_ensure i = true) /\
  (exists f, acts s' = alter f a (acts s) /\ a_done (f x) = a_done x /\
     a_el (f x) = (if is_ensure i then false else a_el x)) /\
  (forall b, In (Reported b) (log s') -> In (Reported b) (log s)).
Proof.
  unfold exec. intros H Hx Hm Hel Hi. rewrite Hx in H.
  assert (Hid : acts s = alter (fun x => x) a (acts s))
    by (symmetry; apply list_alter_id; reflexivity).
  destruct show; simpl in Hi;
    repeat (destruct Hi as [<-|Hi]; [simpl in H|]); try destruct Hi.
  all: unfold store_set, set, childrenCompleted, rendered in *;
    rewrite ?Hel, ?Hm in H; simpl in H;
    repeat case_match; simplify_eq/=.
  all: repeat split; try assumption; try discriminate; try reflexivity.
  all: try (exists (fun x => x); split; [exact Hid|]; split; reflexivity).
  all: try (eexists; split; [reflexivity|]; split; reflexivity).
  all: intros b Hb;
    first [ exact Hb
          | apply in_app_or in Hb; destruct Hb as [Hb|[Hb|[]]];
            [exact Hb | discriminate] ].
Qed.

Lemma never_mounts_ext (s s' : state) :
  mounted s' = mounted s -> el s' = el s -> classList s' = classList s ->
  acts s' = acts s ->
  (forall b, In (Reported b) (log s') -> In (Reported b) (log s)) ->
  never_mounts s -> never_mounts s'.
Proof.
  unfold never_mounts. intros -> -> -> -> Hl (H1 & H2 & H3 & H4 & H5).
  split; [exact H1|]. split; [exact H2|]. split; [exact H3|].
  split; [exact H4|]. intros b Hb. apply (H5 b), Hl, Hb.
Qed.

Lemma never_mounts_on_act (a : nat) (g : activation -> activation) (s : state) :
  (forall x, a_done (g x) = a_done x /\ a_el (g x) = a_el x /\
     (a_wait (g x) = a_wait x \/ a_wait (g x) = None)) ->
  never_mounts s -> never_mounts (on_act a g s).
Proof.
  intros Hg (H1 & H2 & H3 & H4 & H5).
  split; [exact H1|]. split; [exact H2|]. split; [exact H3|].
  split; [|exact H5].
  intros b x H. simpl in H. rewrite list_lookup_alter in H.
  destruct (decide (a = b)) as [->|Hb]; [|apply (H4 b x H)].
  destruct (acts s !! b) as [y|] eqn:Hy; [|discriminate].
  inversion H; subst x. destruct (Hg y) as (E1 & E2 & E3).
  split; [rewrite E2; apply (H4 b y Hy)|].
  unfold wait_list. rewrite E1. intros Hin.
  apply (proj2 (H4 b y Hy)). unfold wait_list.
  destruct E3 as [<- | E3]; [exact Hin|].
  rewrite E3, app_nil_r in Hin. apply in_or_app. left. exact Hin.
Qed.

Lemma never_mounts_exec (ps : Props) (hp : bool) (a : nat) (i : instr)
    (rest : list instr) (s s' : state) (o : outcome) :
  p_unmount ps = true ->
  mid SecondScript ps a (i :: rest) s -> never_mounts s ->
  exec (p_unmount ps) hp a i (st_log (Did a i) s) = (s', o) ->
  never_mounts (settle a i rest o s').
Proof.
  intros Hu [(x & Hx & Hpre & _) _] (H1 & H2 & H3 & H4 & H5) Hex.
  rewrite Hu in Hex.
  assert (Hno : ~ In (AddClasses [Base]) (a_done x)).
  { intros Hin. apply (proj2 (H4 a x Hx)). apply in_or_app. left. exact Hin. }
  assert (Hi : In i (upto (AddClasses [Base]) (program SecondScript (a_show x))))
    by (rewrite <- Hpre; apply upto_spec, Hno).
  destruct (exec_unmounted _ _ _ _ _ _ _ x Hex Hx H1 H2 Hi)
    as (E1 & E2 & E3 & E4 & E5 & (f & Hacts & Hfd & Hfe) & E6).
  simpl in E3, Hacts.
  assert (Hlog : forall b, ~ In (Reported b) (log s')).
  { intros b Hb. apply E6 in Hb. simpl in Hb. apply in_app_or in Hb.
    destruct Hb as [Hb|[Hb|[]]]; [exact (H5 b Hb) | discriminate]. }
  assert (Hlook : forall g b y,
            acts (on_act a g s') !! b = Some y ->
            (b = a /\ y = g (f x)) \/ (b <> a /\ acts s !! b = Some y)).
  { intros g b y Hy. simpl in Hy. rewrite Hacts in Hy.
    destruct (decide (b = a)) as [->|Hb].
    - left. rewrite !list_lookup_alter_eq, Hx in Hy.
      inversion Hy. split; reflexivity.
    - right. rewrite !list_lookup_alter_ne in Hy by congruence.
      split; assumption. }
  assert (Hel : a_el (f x) = false).
  { rewrite Hfe. destruct (is_ensure i); [reflexivity | apply (H4 a x Hx)]. }
  destruct o; unfold never_mounts; simpl.
  - split; [exact E1|]. split; [exact E2|]. split; [congruence|].
    split; [|exact Hlog].
    intros b y Hy. destruct (Hlook _ _ _ Hy) as [[-> ->]|[Hb Hy']];
      [|apply (H4 b y Hy')].
    simpl. split; [exact Hel|]. unfold wait_list. simpl.
    rewrite app_nil_r, Hfd. intros Hin. apply in_app_or in Hin.
    destruct Hin as [Hin|[Hin|[]]]; [exact (Hno Hin)|].
    specialize (E4 Hin). discriminate.
  - split; [exact E1|]. split; [exact E2|]. split; [congruence|].
    split; [|exact Hlog].
    intros b y Hy. destruct (Hlook _ _ _ Hy) as [[-> ->]|[Hb Hy']];
      [|apply (H4 b y Hy')].
    simpl. split; [exact Hel|]. unfold wait_list. simpl.
    rewrite Hfd. intros Hin. apply in_app_or in Hin.
    destruct Hin as [Hin|[Hin|[]]]; [exact (Hno Hin)|].
    specialize (E4 Hin). discriminate.
  - split; [exact E1|]. split; [exact E2|]. split; [congruence|]. split.
    + intros b y Hy. destruct (Hlook _ _ _ Hy) as [[-> ->]|[Hb Hy']];
        [|apply (H4 b y Hy')].
      simpl. split; [exact Hel|]. unfold wait_list. simpl.
      rewrite app_nil_r, Hfd. exact Hno.
    + intros b Hb. simpl in Hb. apply in_app_or in Hb.
      destruct Hb as [Hb|[Hb|[]]]; [exact (Hlog b Hb) | discriminate].
Qed.

Lemma never_mounts_lifetime (ps : Props)
    (ancestor : option (bool * option bool)) (kids : Z) (evs : list event) :
  p_show ps = None -> p_unmount ps = true ->
  never_mounts (lifetime SecondScript ps ancestor kids evs).
Proof.
  intros Hs Hu.
  apply (lifetime_keeps SecondScript ps (has_parent ps ancestor) never_mounts);
    try reflexivity;
    try (intros; eapply never_mounts_ext; [| | | | |eassumption];
         try reflexivity; intros ? Hb; exact Hb).
  - intros a i rest s s' o Hm _. apply never_mounts_exec; assumption.
  - intros a s _ _ H. apply never_mounts_on_act; [|exact H].
    intros x. repeat split. right. reflexivity.
  - intros a x i s _ (H1 & H2 & H3 & H4 & H5) Hx Hw _.
    assert (Hsame :
      mounted (wake i x (st_log (Resumed a i) (on_act a (act_done i) s)))
        = mounted s /\
      classList (wake i x (st_log (Resumed a i) (on_act a (act_done i) s)))
        = classList s /\
      acts (wake i x (st_log (Resumed a i) (on_act a (act_done i) s)))
        = alter (act_done i) a (acts s) /\
      log (wake i x (st_log (Resumed a i) (on_act a (act_done i) s)))
        = log s ++ [Resumed a i] /\
      el (wake i x (st_log (Resumed a i) (on_act a (act_done i) s)))
        = if is_ensure i then a_el x else el s)
      by (destruct i; repeat split).
    destruct Hsame as (E1 & E2 & E3 & E4 & E5).
    unfold never_mounts. rewrite E1, E2, E3, E4, E5.
    split; [exact H1|]. split.
    { destruct (is_ensure i); [apply (H4 a x Hx) | exact H2]. }
    split; [exact H3|]. split.
    + intros b y Hy. rewrite list_lookup_alter in Hy.
      destruct (decide (a = b)) as [->|Hb]; [|apply (H4 b y Hy)].
      rewrite Hx in Hy. inversion Hy; subst y. simpl.
      split; [apply (H4 b x Hx)|]. unfold wait_list. simpl.
      rewrite app_nil_r. intros Hin. apply (proj2 (H4 b x Hx)).
      unfold wait_list. rewrite Hw. exact Hin.
    + intros b Hb. apply in_app_or in Hb.
      destruct Hb as [Hb|[Hb|[]]]; [exact (H5 b Hb) | discriminate].
  - intros show s _ (H1 & H2 & H3 & H4 & H5).
    split; [exact H1|]. split; [exact H2|]. split; [exact H3|].
    split; [|exact H5].
    intros b y Hy. simpl in Hy. apply lookup_app_Some in Hy.
    destruct Hy as [Hy|[Hlen Hy]]; [apply (H4 b); exact Hy|].
    destruct (b - length (acts s))%nat; [|discriminate].
    inversion Hy; subst y. simpl. split; [reflexivity|]. intros [].
  - intros a s H. apply never_mounts_on_act; [|exact H].
    intros x. repeat split. left. reflexivity.
  - intros a s H. apply never_mounts_on_act; [|exact H].
    intros x. repeat split. left. reflexivity.
  - intros s _. apply transitionend_keeps.
    + intros f t H. eapply never_mounts_ext; [| | | | |exact H];
        try reflexivity. intros ? Hb; exact Hb.
    + intros a t H. apply never_mounts_on_act; [|exact H].
      intros x. repeat split. left. reflexivity.
  - intros v s H. destruct (store_set_frame v s) as (E1 & E2 & E3 & _).
    eapply never_mounts_ext;
      [exact E1|exact E2|exact E3|apply store_set_acts| |exact H].
    intros b Hb. unfold store_set, set in Hb.
    destruct (decide (c_show (context s) = v)); [exact Hb|].
    simpl in Hb. apply in_app_or in Hb.
    destruct Hb as [Hb|[Hb|[]]]; [exact Hb | discriminate].
  - discriminate.
  - unfold initial, never_mounts. simpl. rewrite Hu, Hs. simpl.
    repeat split; try discriminate. intros a [].
Qed.

(** In the second script a child that is created with [unmount] has
    [mounted] at [null], which [ensureMountedElement] does not take for
    unmounted: the content is never put in the tree, [el] stays null,
    every activation throws at its first class mutation, and the child
    never calls [parent.completed()]. *)
Theorem second_script_unmount_child_never_mounts (ps : Props)
    (ancestor : option (bool * option bool)) (kids : Z) (evs : list event) :
  p_show ps = None -> p_unmount ps = true ->
  let s := lifetime SecondScript ps ancestor kids evs in
  rendered s = false /\ el s = false /\ classList s = [] /\
  (forall a, ~ In (Reported a) (log s)) /\
  (forall a x, acts s !! a = Some x ->
     ~ In (AddClasses [Base]) (a_done x) /\
     ~ In (Dispatch AfterEnter) (a_done x) /\
     ~ In (Dispatch AfterLeave) (a_done x)).
Proof.
  intros Hs Hu s.
  destruct (never_mounts_lifetime ps ancestor kids evs Hs Hu)
    as (H1 & H2 & H3 & H4 & H5). fold s in H1, H2, H3, H4, H5.
  split; [unfold rendered; rewrite H1; reflexivity|].
  split; [exact H2|]. split; [exact H3|]. split; [exact H5|].
  intros a x Hx.
  assert (Hno : ~ In (AddClasses [Base]) (a_done x)).
  { intros Hin. apply (proj2 (H4 a x Hx)). apply in_or_app. left. exact Hin. }
  split; [exact Hno|].
  pose proof (lifetime_inv SecondScript ps ancestor kids evs a x Hx) as Hfol.
  split; intros Hin; apply Hno;
    (eapply done_in_order; [exact Hfol| |exact Hin]);
    destruct (a_show x); reflexivity.
Qed.



Lemma second_script_unmount_child_never_mounts_witness :
  let s := lifetime SecondScript (fade None false true)
             (Some (false, Some false)) 0
             [Notify (Some true); Resume 0; Frame 0; Resume 0] in
  rendered s = false /\ classList s = [] /\
  a_failed <$> acts s !! 0%nat = Some true.
Proof.
  cbv zeta. split; [|split].
  - apply (second_script_unmount_child_never_mounts (fade None false true)
             (Some (false, Some false)) 0
             [Notify (Some true); Resume 0; Frame 0; Resume 0]); reflexivity.
  - apply (second_script_unmount_child_never_mounts (fade None false true)
             (Some (false, Some false)) 0
             [Notify (Some true); Resume 0; Frame 0; Resume 0]); reflexivity.
  - vm_compute. reflexivity.
Defined.

(** ** Signals and hiding *)

Lemma last_is_last {A} (z : A) (q d r : list A) :
  List.NoDup (q ++ [z]) -> d ++ r = q ++ [z] -> In z d -> r = [].
Proof.
  intros Hnd He Hin. destruct r as [|y r] using rev_ind; [reflexivity|].
  exfalso. clear IHr. rewrite app_assoc in He.
  apply app_inj_tail in He. destruct He as [He ->].
  rewrite <- He in Hnd. apply NoDup_ListNoDup in Hnd.
  rewrite <- app_assoc in Hnd. apply NoDup_app in Hnd.
  destruct Hnd as (_ & Hd & _). apply (Hd z).
  - apply list_elem_of_In. exact Hin.
  - apply list_elem_of_In. apply in_or_app. right. left. reflexivity.
Qed.

Lemma program_ends_with_signal (sc : script) (show : bool) :
  exists q, program sc show =
            q ++ [Dispatch (if show then AfterEnter else AfterLeave)] /\
    List.NoDup (program sc show).
Proof.
  exists (removelast (program sc show)).
  destruct sc, show; (split; [reflexivity|]);
    apply NoDup_ListNoDup, (bool_decide_eq_true_1 _); vm_compute; reflexivity.
Qed.

(** [after-enter] and [after-leave] close an activation, in all three
    scripts: when the signal has been dispatched the activation has run
    every statement of [enter] or [leave], it waits for nothing, both the
    promise of its transition and the one of its children are resolved,
    and the signal is the one of its direction. *)
Theorem after_signal_is_last (sc : script) (ps : Props)
    (ancestor : option (bool * option bool)) (kids : Z) (evs : list event)
    (a : nat) (x : activation) (sig : signal) :
  let s := lifetime sc ps ancestor kids evs in
  acts s !! a = Some x ->
  sig = AfterEnter \/ sig = AfterLeave ->
  In (Dispatch sig) (a_done x) ->
  sig = (if a_show x then AfterEnter else AfterLeave) /\
  a_done x = program sc (a_show x) /\ a_wait x = None /\ a_rest x = [] /\
  a_transitioned x = Some true /\
  resolved (gates s) (a_children x) = true.
Proof.
  intros s Hx Hsig Hin.
  pose proof (lifetime_inv sc ps ancestor kids evs a x Hx) as Hfol.
  fold s in Hfol. destruct Hfol as (Hpre & Hcl & Hw).
  assert (Hkind : sig = if a_show x then AfterEnter else AfterLeave).
  { assert (Hp : In (Dispatch sig) (program sc (a_show x)))
      by (rewrite <- Hpre; apply in_or_app; left; exact Hin).
    clear -Hp Hsig. destruct sc, (a_show x), Hsig as [-> | ->];
      try reflexivity; exfalso; simpl in Hp;
      repeat (destruct Hp as [Hp|Hp]; [discriminate Hp|]); destruct Hp. }
  destruct (program_ends_with_signal sc (a_show x)) as (q & Hq & Hnd).
  rewrite <- Hkind in Hq.
  assert (Hr : wait_list x ++ a_rest x = []).
  { apply (last_is_last (Dispatch sig) q (a_done x)).
    - rewrite <- Hq. exact Hnd.
    - rewrite <- Hq. exact Hpre.
    - exact Hin. }
  apply app_eq_nil in Hr. destruct Hr as [Hr1 Hr2].
  split; [exact Hkind|].
  split; [rewrite <- Hpre, Hr1, Hr2, app_nil_r; reflexivity|].
  split; [unfold wait_list in Hr1; destruct (a_wait x); [discriminate|reflexivity]|].
  split; [exact Hr2|].
  assert (Hall : a_done x = program sc (a_show x))
    by (rewrite <- Hpre, Hr1, Hr2, app_nil_r; reflexivity).
  set (wt := match sc with FirstScript => AwaitTransitioned | _ => AwaitAll end).
  set (wc := match sc with FirstScript => AwaitChildren | _ => AwaitAll end).
  assert (Ht : In wt (a_done x))
    by (rewrite Hall; destruct sc, (a_show x); simpl; tauto).
  assert (Hc : In wc (a_done x))
    by (rewrite Hall; destruct sc, (a_show x); simpl; tauto).
  split.
  - apply (proj1 (Hw wt Ht)). destruct sc; reflexivity.
  - apply (proj2 (Hw wc Hc)). destruct sc; reflexivity.
Qed.

Lemma after_signal_is_last_witness :
  let s := lifetime RunesScript (fade (Some true) true false) None 0
             [Resume 0; Frame 0; Resume 0; TransitionEndEvent; Resume 0;
              Resume 0] in
  exists x, acts s !! 0%nat = Some x /\
    a_done x = program RunesScript true /\ a_wait x = None.
Proof.
  cbv zeta.
  assert (Hx : exists x,
            acts (lifetime RunesScript (fade (Some true) true false) None 0
                    [Resume 0; Frame 0; Resume 0; TransitionEndEvent;
                     Resume 0; Resume 0]) !! 0%nat = Some x /\
            In (Dispatch AfterEnter) (a_done x) /\ a_show x = true)
    by (vm_compute; eexists; split; [reflexivity|]; split; [|reflexivity];
        repeat (first [left; reflexivity | right])).
  destruct Hx as (x & Hx & Hin & Hs). exists x. split; [exact Hx|].
  destruct (after_signal_is_last RunesScript (fade (Some true) true false)
              None 0 [Resume 0; Frame 0; Resume 0; TransitionEndEvent;
                      Resume 0; Resume 0] 0 x AfterEnter Hx
              (or_introl eq_refl) Hin) as (_ & Hd & Hw & _).
  rewrite Hs in Hd. split; assumption.
Defined.

(** The README has the parent wait for its children before the content
    is hidden or unmounted.  In all three scripts a leave hides nothing
    before its own transition has ended and the gate of its children is
    resolved: the wrapper is not set to [display: none], [mounted] is not
    cleared, and the first script sets neither [visibility: hidden] nor
    [display: none] on the element. *)
Theorem hiding_follows_children (sc : script) (ps : Props)
    (ancestor : option (bool * option bool)) (kids : Z) (evs : list event)
    (a : nat) (x : activation) (hide : instr) :
  let s := lifetime sc ps ancestor kids evs in
  acts s !! a = Some x ->
  hide = WrapperShow false \/ hide = Unmount \/
  hide = ElVisibility "hidden" \/ hide = ElDisplay "none" ->
  In hide (a_done x) ->
  a_show x = false /\
  a_transitioned x = Some true /\
  resolved (gates s) (a_children x) = true.
Proof.
  intros s Hx Hh Hin.
  pose proof (lifetime_inv sc ps ancestor kids evs a x Hx) as Hfol.
  fold s in Hfol. pose proof Hfol as (Hpre & Hcl & Hw).
  assert (Hp : In hide (program sc (a_show x)))
    by (rewrite <- Hpre; apply in_or_app; left; exact Hin).
  assert (Hs : a_show x = false).
  { clear -Hp Hh. destruct (a_show x); [|reflexivity]. exfalso.
    destruct sc, Hh as [->|[->|[->| ->]]]; simpl in Hp;
      repeat (destruct Hp as [Hp|Hp]; [discriminate Hp|]); destruct Hp. }
  split; [exact Hs|].
  set (wt := match sc with FirstScript => AwaitTransitioned | _ => AwaitAll end).
  set (wc := match sc with FirstScript => AwaitChildren | _ => AwaitAll end).
  assert (Ht : In wt (a_done x)).
  { eapply done_in_order; [exact Hfol| |exact Hin]. rewrite Hs in *.
    clear -Hp Hh. destruct sc, Hh as [->|[->|[->| ->]]]; try reflexivity;
      exfalso; simpl in Hp;
      repeat (destruct Hp as [Hp|Hp]; [discriminate Hp|]); destruct Hp. }
  assert (Hc : In wc (a_done x)).
  { eapply done_in_order; [exact Hfol| |exact Hin]. rewrite Hs in *.
    clear -Hp Hh. destruct sc, Hh as [->|[->|[->| ->]]]; try reflexivity;
      exfalso; simpl in Hp;
      repeat (destruct Hp as [Hp|Hp]; [discriminate Hp|]); destruct Hp. }
  split.
  - apply (proj1 (Hw wt Ht)). destruct sc; reflexivity.
  - apply (proj2 (Hw wc Hc)). destruct sc; reflexivity.
Qed.

Lemma hiding_follows_children_witness :
  let s := lifetime RunesScript (fade (Some true) false true) None 0
             [Update (Some false); Then 0; Resume 0; Frame 0; Resume 0;
              TransitionEndEvent; Resume 0; Resume 0] in
  mounted s = Some false /\ wrapper s = false /\
  exists x, acts s !! 0%nat = Some x /\ a_transitioned x = Some true.
Proof.
  cbv zeta. split; [vm_compute; reflexivity|]. split; [vm_compute; reflexivity|].
  assert (Hx : exists x,
            acts (lifetime RunesScript (fade (Some true) false true) None 0
                    [Update (Some false); Then 0; Resume 0; Frame 0; Resume 0;
                     TransitionEndEvent; Resume 0; Resume 0]) !! 0%nat = Some x /\
            In Unmount (a_done x))
    by (vm_compute; eexists; split; [reflexivity|];
        repeat (first [left; reflexivity | right])).
  destruct Hx as (x & Hx & Hin). exists x. split; [exact Hx|].
  exact (proj1 (proj2
    (hiding_follows_children RunesScript (fade (Some true) false true) None 0
       [Update (Some false); Then 0; Resume 0; Frame 0; Resume 0;
        TransitionEndEvent; Resume 0; Resume 0] 0 x Unmount Hx
       (or_intror (or_introl eq_refl)) Hin))).
Defined.

(** ** Reports reach the newest gate only *)

Lemma frozen_refl (gs : list gate) : frozen gs gs.
Proof. split; [lia | reflexivity]. Qed.

Lemma exec_newest (unmount hp : bool) (a : nat) (i : instr) (s s' : state)
    (o : outcome) (old : list gate) :
  exec unmount hp a i s = (s', o) ->
  newest s /\ frozen old (gates s) -> newest s' /\ frozen old (gates s').
Proof.
  intros He [Hn [Hl Hf]].
  destruct (exec_effect _ _ _ _ _ _ _ He)
    as (_ & (more & Hgs) & _ & _ & _ & _ & _ & _ & Hcc).
  destruct (decide (i = ChildrenCompleted)) as [->|Hi].
  - unfold exec in He. destruct (acts s !! a) as [x|];
      [|inversion He; subst; split; [exact Hn | split; assumption]].
    simpl in He. unfold childrenCompleted in He.
    destruct (c_count (context s) =? 0); inversion He; subst; clear He;
      unfold newest; simpl.
    + split; [exact Hn | split; assumption].
    + split; [rewrite length_app; simpl; lia|]. split.
      * rewrite length_app. lia.
      * intros g Hg. rewrite lookup_app_l by lia. apply Hf, Hg.
  - destruct (Hcc Hi) as [Eg Ec]. unfold newest. rewrite Eg, Ec.
    split; [exact Hn | split; assumption].
Qed.

Lemma newest_kept (sc : script) (ps : Props) (hp : bool) (old : list gate) :
  kept sc ps hp (fun t => newest t /\ frozen old (gates t)).
Proof.
  constructor; try (intros; simpl; assumption).
  - intros a i rest t t' o _ _ Ht He.
    apply (exec_newest _ _ _ _ _ _ _ old) in He; [|exact Ht].
    destruct o; exact He.
  - intros a x i t _ Ht _ _ _. destruct i; exact Ht.
  - intros t _ Ht. destruct (transitionend_frame t) as (_ & _ & _ & Ec & Eg & _).
    unfold newest. rewrite Ec, Eg. exact Ht.
  - intros t _ [Hn [Hl Hf]]. unfold child_reported, completed, newest, frozen in *.
    simpl. destruct (c_completed (context t)) as [|g].
    + split; [exact Hn | split; assumption].
    + rewrite !length_alter. split; [exact Hn|]. split; [exact Hl|].
      intros h Hh. rewrite list_lookup_alter_ne by lia. apply Hf, Hh.
  - intros v t Ht. destruct (store_set_frame v t) as (_ & _ & _ & _ & _ & _ & Ec).
    unfold newest. rewrite Ec.
    rewrite (proj2 (store_set_acts v t)). exact Ht.
Qed.

(** A call of [context.completed()] reaches the closure of the gate made
    last and no other.  Once an activation has made a gate, the gate of
    every activation before is out of reach: a report leaves it as it
    is, so when it was not resolved then it is never resolved and the
    activation that waits for it does not leave its wait. *)
Theorem reports_reach_newest_gate_only (sc : script) (ps : Props)
    (ancestor : option (bool * option bool)) (kids : Z)
    (evs more : list event) (g : nat) :
  let s := lifetime sc ps ancestor kids evs in
  let s' := steps sc ps (has_parent ps ancestor) more s in
  (S g < length (gates s))%nat ->
  c_completed (context s) <> Closure g /\
  gates s' !! g = gates s !! g /\
  resolved (gates s') (OfGate g) = resolved (gates s) (OfGate g).
Proof.
  intros s s' Hg.
  assert (Hn : newest s).
  { apply (kept_lifetime sc ps ancestor kids
             (fun t => newest t /\ frozen [] (gates t)));
      [apply newest_kept|]. split; [reflexivity | apply frozen_refl]. }
  assert (Hf : frozen (gates s) (gates s')).
  { apply (kept_steps sc ps (has_parent ps ancestor)
             (fun t => newest t /\ frozen (gates s) (gates t)));
      [apply newest_kept | apply lifetime_inv |].
    split; [exact Hn | apply frozen_refl]. }
  split.
  - intros Hc. unfold newest in Hn. rewrite Hc in Hn. lia.
  - assert (E : gates s' !! g = gates s !! g) by (apply Hf, Hg).
    split; [exact E|]. simpl. rewrite E. reflexivity.
Qed.

Lemma reports_reach_newest_gate_only_witness :
  let ps := fade (Some false) false false in
  let s := lifetime SecondScript ps None 1
             [Update (Some true); Resume 0; Update (Some false); Resume 1] in
  let s' := steps SecondScript ps false
              [ChildReported; Frame 0; Resume 0; TransitionEndEvent; Resume 0]
              s in
  length (gates s) = 2%nat /\
  resolved (gates s') (OfGate 0) = false /\
  resolved (gates s') (OfGate 1) = true /\
  a_wait <$> acts s' !! 0%nat = Some (Some AwaitAll).
Proof.
  cbv zeta. split; [vm_compute; reflexivity|]. split.
  - refine (eq_trans (proj2 (proj2
      (reports_reach_newest_gate_only SecondScript
         (fade (Some false) false false) None 1
         [Update (Some true); Resume 0; Update (Some false); Resume 1]
         [ChildReported; Frame 0; Resume 0; TransitionEndEvent; Resume 0] 0
         _))) _); [vm_compute; lia | vm_compute; reflexivity].
  - split; vm_compute; reflexivity.
Defined.

(** ** An activation that runs alone *)

Lemma addClasses_added (names cl : list string) :
  exists more, addClasses names cl = cl ++ more /\
    forall x, In x more -> In x names.
Proof.
  revert cl. induction names as [|y r IH]; intros cl; simpl.
  - exists []. rewrite app_nil_r. split; [reflexivity | intros x []].
  - destruct (mem y cl).
    + destruct (IH cl) as (more & E & H). exists more. split; [exact E|].
      intros x Hx. right. apply H, Hx.
    + destruct (IH (cl ++ [y])) as (more & E & H). exists ([y] ++ more).
      split; [rewrite E, <- app_assoc; reflexivity|].
      intros x [<-|Hx]; [left; reflexivity | right; apply H, Hx].
Qed.

Lemma removeClasses_all (names l : list string) :
  (forall x, In x l -> In x names) -> removeClasses names l = [].
Proof.
  intros H. unfold removeClasses. induction l as [|x l IH]; [reflexivity|].
  simpl. replace (mem x names) with true.
  - simpl. apply IH. intros y Hy. apply H. right. exact Hy.
  - symmetry. apply mem_In, H. left. reflexivity.
Qed.

Lemma removeClasses_same (names names' cl : list string) :
  (forall x, In x names <-> In x names') ->
  removeClasses names cl = removeClasses names' cl.
Proof.
  intros H. unfold removeClasses. apply List.filter_ext. intros x.
  f_equal. destruct (mem x names) eqn:E.
  - symmetry. apply mem_In, H, mem_In, E.
  - symmetry. apply mem_false. intros Hin. apply mem_false in E.
    apply E, H, Hin.
Qed.

Lemma class_cycle (b f t own : list string) :
  removeClasses (b ++ t)
    (addClasses t (removeClasses f (addClasses (b ++ f) own))) =
  removeClasses (b ++ f ++ t) own.
Proof.
  destruct (addClasses_added (b ++ f) own) as (m1 & -> & H1).
  rewrite removeClasses_added.
  destruct (addClasses_added t (removeClasses f own ++ removeClasses f m1))
    as (m3 & -> & H3).
  rewrite !removeClasses_added.
  rewrite (removeClasses_all (b ++ t) m3)
    by (intros x Hx; apply in_or_app; right; apply H3, Hx).
  rewrite (removeClasses_all (b ++ t) (removeClasses f m1)).
  - rewrite !app_nil_r, <- removeClasses_app. apply removeClasses_same.
    intros x. rewrite !in_app_iff. tauto.
  - intros x Hx. apply removeClasses_In in Hx. destruct Hx as [Hx Hn].
    apply H1 in Hx. apply in_app_or in Hx. apply in_or_app. tauto.
Qed.

Lemma solitary_course (sc : script) (show : bool) (ps : Props)
    (b f t own : list string) :
  p_unmount ps = false ->
  let s0 := st_classList (fun _ => own)
              (transition sc (fade (Some (negb show)) false false) None 0) in
  let s1 :=
    match sc with
    | FirstScript =>
        st_run true
          (store_set (Some show)
             (start false false show b f t (program FirstScript show)
                (st_mounted (Some true) s0)))
    | SecondScript =>
        st_run true
          (start false false show b f t (program SecondScript show) s0)
    | RunesScript =>
        st_run true
          (st_executing (Some 0%nat)
             (start false false show b f t (program RunesScript show)
                (st_thens (delete 0%nat)
                   (st_thens (fun l => l ++ [(None, Some show)]) s0))))
    end in
  let s := steps sc ps false
             match sc with
             | RunesScript => tail (course sc)
             | _ => course sc
             end s1 in
  classList s =
    match sc with
    | RunesScript =>
        removeClasses (b ++ t ++ [])
          (addClasses (t ++ [])
             (removeClasses (f ++ []) (addClasses (b ++ f ++ []) own)))
    | _ =>
        removeClasses (t ++ [])
          (removeClasses (b ++ [])
             (addClasses (t ++ [])
                (removeClasses (f ++ [])
                   (addClasses (f ++ []) (addClasses (b ++ []) own)))))
    end /\
  listeners s = [] /\
  wrapper s = match sc with FirstScript => true | _ => show end /\
  el_display s =
    match sc with
    | FirstScript => if show then "" else "none"
    | _ => ""
    end /\
  exists x, acts s = [x] /\ a_done x = program sc show /\
    a_wait x = None /\ a_rest x = [] /\ a_failed x = false /\
    a_transitioned x = Some true.
Proof.
  intros Hu. destruct sc, show; simpl course; simpl tail;
    unfold steps, fold_left, step; rewrite ?Hu;
    destruct b as [|b0 b]; vm_compute;
    (split; [reflexivity|]); (split; [reflexivity|]);
    (split; [reflexivity|]); (split; [reflexivity|]);
    eexists; repeat split.
Qed.

Lemma quiet_transition (sc : script) (ps : Props) (show : bool) :
  p_show ps = Some (negb show) -> p_appear ps = false ->
  p_unmount ps = false ->
  transition sc ps None 0 =
  transition sc (fade (Some (negb show)) false false) None 0.
Proof.
  intros Hs Ha Hu. destruct ps as [sh ap un e ef et l lf lt].
  simpl in Hs, Ha, Hu. subst sh ap un.
  destruct sc, show; reflexivity.
Qed.

Lemma update_starts (sc : script) (ps : Props) (show : bool) (s0 : state) :
  run s0 = true -> p_unmount ps = false ->
  step sc ps false (Update (Some show)) s0 =
  match sc with
  | FirstScript =>
      st_run true
        (store_set (Some show)
           (start false false show (classes_of ps show).1.1
              (classes_of ps show).1.2 (classes_of ps show).2
              (program FirstScript show) (st_mounted (Some true) s0)))
  | SecondScript =>
      st_run true
        (start false false show (classes_of ps show).1.1
           (classes_of ps show).1.2 (classes_of ps show).2
           (program SecondScript show) s0)
  | RunesScript => st_thens (fun l => l ++ [(executing s0, Some show)]) s0
  end.
Proof.
  intros Hr Hu. destruct sc; simpl step.
  - unfold update, Legacy.update, Legacy.execute.
    change (run (st_mounted ?m s0)) with (run s0). rewrite Hr.
    pose proof (animate_start FirstScript ps false (Some show)) as Ha.
    simpl in Ha. rewrite Ha, Hu. destruct show; reflexivity.
  - unfold update, Slots.update, Slots.execute. rewrite Hr.
    pose proof (animate_start SecondScript ps false (Some show)) as Ha.
    simpl in Ha. rewrite Ha, Hu. destruct show; reflexivity.
  - reflexivity.
Qed.

Lemma then_starts (ps : Props) (show : bool) (s0 : state) :
  run s0 = true -> p_unmount ps = false -> thens s0 = [] ->
  step RunesScript ps false (Then 0)
    (st_thens (fun l => l ++ [(None, Some show)]) s0) =
  st_run true
    (st_executing (Some (length (acts s0)))
       (start false false show (classes_of ps show).1.1
          (classes_of ps show).1.2 (classes_of ps show).2
          (program RunesScript show)
          (st_thens (delete 0%nat)
             (st_thens (fun l => l ++ [(None, Some show)]) s0)))).
Proof.
  intros Hr Hu Ht. simpl step. unfold run_then.
  change (thens (st_thens ?f s0)) with (f (thens s0)). rewrite Ht.
  simpl lookup. cbv iota beta.
  unfold execute, Runes.execute.
  change (run (st_thens ?f (st_thens ?g s0))) with (run s0). rewrite Hr.
  pose proof (animate_start RunesScript ps false (Some show)) as Ha.
  simpl in Ha. rewrite Ha, Hu. destruct show; reflexivity.
Qed.

(** A component without children and without a parent, with its
    content in the tree, is updated and the activation runs alone: the
    microtasks run, the frames pass, the transition ends.  Afterwards
    the element carries the classes it had of its own, in their order,
    but for those that are named as a base, from or to class of the
    direction; no listener is left on it; the activation has run every
    statement and waits for nothing; and the content is shown after an
    enter and hidden after a leave. *)
Theorem lone_activation_cleans_up (sc : script) (ps : Props) (show : bool)
    (own : list string) :
  p_show ps = Some (negb show) -> p_appear ps = false ->
  p_unmount ps = false ->
  let s0 := st_classList (fun _ => own) (transition sc ps None 0) in
  let s := steps sc ps false (Update (Some show) :: course sc) s0 in
  classList s =
    removeClasses ((classes_of ps show).1.1 ++ (classes_of ps show).1.2
                   ++ (classes_of ps show).2) own /\
  listeners s = [] /\
  (sc <> FirstScript -> wrapper s = show) /\
  (sc = FirstScript -> el_display s = if show then "" else "none") /\
  exists x, acts s = [x] /\ a_done x = program sc show /\
    a_wait x = None /\ a_rest x = [] /\ a_failed x = false.
Proof.
  intros Hs Ha Hu s0 s.
  pose proof (solitary_course sc show ps (classes_of ps show).1.1
                (classes_of ps show).1.2 (classes_of ps show).2 own Hu) as H.
  cbv zeta in H.
  unfold s, s0. rewrite (quiet_transition sc ps show Hs Ha Hu).
  change (steps sc ps false (Update (Some show) :: course sc) ?t)
    with (steps sc ps false (course sc) (step sc ps false (Update (Some show)) t)).
  rewrite update_starts; [|destruct sc, show; reflexivity|exact Hu].
  assert (E : forall t, steps RunesScript ps false (course RunesScript) t =
                steps RunesScript ps false (tail (course RunesScript))
                  (step RunesScript ps false (Then 0) t)) by reflexivity.
  destruct sc.
  - destruct H as (H1 & H2 & H3 & H4 & x & H5 & H6 & H7 & H8 & H9 & _).
    split; [|split; [exact H2|split; [congruence|split; [intros _; exact H4|]]]].
    + rewrite H1, !app_nil_r, <- !removeClasses_app, <- !addClasses_app.
      apply class_cycle.
    + exists x. tauto.
  - destruct H as (H1 & H2 & H3 & H4 & x & H5 & H6 & H7 & H8 & H9 & _).
    split; [|split; [exact H2|split; [intros _; exact H3|split; [congruence|]]]].
    + rewrite H1, !app_nil_r, <- !removeClasses_app, <- !addClasses_app.
      apply class_cycle.
    + exists x. tauto.
  - rewrite E.
    replace (executing _) with (@None nat) by (destruct show; reflexivity).
    rewrite then_starts; [|destruct show; reflexivity|exact Hu
                          |destruct show; reflexivity].
    replace (length (acts _)) with 0%nat by (destruct show; reflexivity).
    destruct H as (H1 & H2 & H3 & H4 & x & H5 & H6 & H7 & H8 & H9 & _).
    split; [|split; [exact H2|split; [intros _; exact H3|split; [congruence|]]]].
    + rewrite H1, !app_nil_r. apply class_cycle.
    + exists x. tauto.
Qed.

Lemma lone_activation_cleans_up_witness :
  let ps := fade (Some true) false false in
  let s0 := st_classList (fun _ => ["panel"; "opacity-100"])
              (transition RunesScript ps None 0) in
  let s := steps RunesScript ps false (Update (Some false) :: course RunesScript)
             s0 in
  classList s = ["panel"] /\ wrapper s = false.
Proof.
  cbv zeta.
  destruct (lone_activation_cleans_up RunesScript (fade (Some true) false false)
              false ["panel"; "opacity-100"] eq_refl eq_refl eq_refl)
    as (H1 & _ & H3 & _).
  split; [exact H1 | apply H3; discriminate].
Defined.

(** ** Listeners on the element *)

Lemma exec_listeners (unmount hp : bool) (a : nat) (i : instr) (s s' : state)
    (o : outcome) :
  exec unmount hp a i s = (s', o) ->
  listeners s' = listeners s \/ listeners s' = [] \/
  listeners s' = listeners s ++ [transition_listener a].
Proof.
  unfold exec. intros H.
  destruct (acts s !! a) as [x|]; [|inversion H; subst; tauto].
  destruct i; simpl in H; unfold store_set, set, childrenCompleted in *;
    repeat case_match; simplify_eq/=; tauto.
Qed.

Lemma single_fire_kept (sc : script) (ps : Props) (hp : bool) :
  kept sc ps hp single_fire.
Proof.
  constructor; try (intros; simpl; assumption).
  - intros a i rest s s' o _ _ Hp He. unfold single_fire.
    destruct (settle_frame a i rest o s') as (_ & _ & _ & -> & _).
    destruct (exec_listeners _ _ _ _ _ _ _ He) as [-> | [-> | ->]].
    + exact Hp.
    + intros l [].
    + simpl. intros l Hl. apply in_app_or in Hl.
      destruct Hl as [Hl|[<-|[]]]; [apply Hp, Hl | exists a; reflexivity].
  - intros a x i s _ Hp _ _ _. destruct i; exact Hp.
  - intros s _ Hp. unfold single_fire, transitionend.
    destruct (deliver (listeners s)) as [[ls performed] stopped] eqn:Ed.
    assert (El : ls = List.filter (fun l => negb (l_once l)) (listeners s))
      by (unfold deliver in Ed; congruence).
    assert (G : forall hs t, listeners (fold_left (fun s h => perform h s) hs t)
                = listeners t).
    { induction hs as [|h hs IH]; intros t; simpl; [reflexivity|].
      rewrite IH. destruct h; reflexivity. }
    rewrite G. simpl. intros l Hl. rewrite El in Hl.
    apply filter_In in Hl. apply Hp. tauto.
  - intros v s Hp. unfold single_fire.
    destruct (store_set_frame v s) as (_ & _ & _ & -> & _). exact Hp.
Qed.

Lemma perform_resolves (a : nat) (hs : list haction) (t : state)
    (x : activation) :
  acts t !! a = Some x ->
  In (Resolve a) hs \/ a_transitioned x = Some true ->
  exists y, acts (fold_left (fun s h => perform h s) hs t) !! a = Some y /\
    a_transitioned y = Some true.
Proof.
  revert t x. induction hs as [|h hs IH]; intros t x Hx H; simpl.
  - destruct H as [[]|H]. exists x. split; assumption.
  - destruct h as [|b]; simpl.
    + apply (IH t x Hx). destruct H as [[H|H]|H]; [discriminate|tauto|tauto].
    + destruct (decide (b = a)) as [->|Hb].
      * apply (IH _ (act_transitioned (Some true) x)).
        -- simpl. rewrite list_lookup_alter_eq, Hx. reflexivity.
        -- right. reflexivity.
      * apply (IH _ x).
        -- simpl. rewrite list_lookup_alter_ne by congruence. exact Hx.
        -- destruct H as [[H|H]|H]; [congruence|tauto|tauto].
Qed.

(** The listeners on the element are those of [transitionEnd], each a
    [once] listener that stops the event.  One [transitionend] event at
    the element therefore ends the wait of every activation that has a
    listener there, whichever transition it was that ended, and leaves
    no listener behind. *)
Theorem transitionend_serves_every_listener (sc : script) (ps : Props)
    (ancestor : option (bool * option bool)) (kids : Z) (evs : list event) :
  let s := lifetime sc ps ancestor kids evs in
  let s' := step sc ps (has_parent ps ancestor) TransitionEndEvent s in
  (forall l, In l (listeners s) -> exists a, l = transition_listener a) /\
  listeners s' = [] /\
  (forall a x, acts s !! a = Some x ->
     In (transition_listener a) (listeners s) ->
     exists y, acts s' !! a = Some y /\ a_transitioned y = Some true).
Proof.
  intros s s'.
  assert (Hp : single_fire s).
  { apply (kept_lifetime sc ps ancestor kids single_fire);
      [apply single_fire_kept | intros l []]. }
  split; [exact Hp|].
  unfold s'. simpl. unfold transitionend.
  destruct (deliver (listeners s)) as [[ls performed] stopped] eqn:Ed.
  unfold deliver in Ed. inversion Ed as [[El Ep Es]]. clear Ed.
  assert (G : forall hs t, listeners (fold_left (fun s h => perform h s) hs t)
              = listeners t).
  { induction hs as [|h hs IH]; intros t; simpl; [reflexivity|].
    rewrite IH. destruct h; reflexivity. }
  split.
  - rewrite G. simpl.
    assert (F : forall ls0, (forall l, In l ls0 -> exists a, l = transition_listener a) ->
                List.filter (fun l => negb (l_once l)) ls0 = []).
    { induction ls0 as [|l ls0 IH]; intros H; [reflexivity|]. simpl.
      destruct (H l (or_introl eq_refl)) as [a ->]. simpl.
      apply IH. intros l Hl. apply H. right. exact Hl. }
    apply F, Hp.
  - intros a x Hx Hin. apply (perform_resolves a _ _ x).
    + exact Hx.
    + left. apply in_concat. exists [StopPropagation; Resolve a].
      split; [|right; left; reflexivity].
      apply in_map_iff. exists (transition_listener a). split; [reflexivity|exact Hin].
Qed.

(** ** What the store tells the children *)

Lemma told_app (l m : list entry) : told (l ++ m) = told l ++ told m.
Proof. apply flat_map_app. Qed.

Lemma last_cons_default {A} (w d : A) (l : list A) :
  List.last (w :: l) d = List.last l w.
Proof.
  revert w d. induction l as [|o l IH]; intros w d; [reflexivity|].
  change (List.last (w :: o :: l) d) with (List.last (o :: l) d).
  rewrite (IH o d), (IH o w). reflexivity.
Qed.

Lemma changes_snoc (prev v : option bool) (l : list (option bool)) :
  changes prev (l ++ [v]) =
  changes prev l && negb (bool_decide (v = List.last l prev)).
Proof.
  revert prev. induction l as [|w l IH]; intros prev.
  - simpl. rewrite andb_true_r. reflexivity.
  - change (changes prev ((w :: l) ++ [v]))
      with (negb (bool_decide (w = prev)) && changes w (l ++ [v])).
    rewrite IH, last_cons_default. simpl changes. apply andb_assoc.
Qed.


Lemma heard_ext (ps : Props) (s s' : state) :
  told (log s') = told (log s) -> c_show (context s') = c_show (context s) ->
  heard ps s -> heard ps s'.
Proof. unfold heard. intros -> ->. tauto. Qed.

Lemma heard_store (ps : Props) (v : option bool) (s : state) :
  heard ps s -> heard ps (store_set v s).
Proof.
  intros [H1 H2]. unfold store_set, set.
  destruct (decide (c_show (context s) = v)) as [E|E]; [split; assumption|].
  unfold heard. simpl. rewrite told_app. simpl.
  rewrite changes_snoc, H1, last_last. split; [|reflexivity].
  simpl. apply negb_true_iff, bool_decide_eq_false. congruence.
Qed.

Lemma exec_heard (ps : Props) (unmount hp : bool) (a : nat) (i : instr)
    (s s' : state) (o : outcome) :
  exec unmount hp a i s = (s', o) -> heard ps s -> heard ps s'.
Proof.
  unfold exec. intros H Hp.
  destruct (acts s !! a) as [x|]; [|inversion H; subst; exact Hp].
  destruct i; simpl in H; unfold childrenCompleted in *;
    repeat case_match; simplify_eq/=;
    try exact Hp; try (apply heard_store; exact Hp);
    try (eapply heard_ext; [| |exact Hp]; simpl; rewrite ?told_app, ?app_nil_r;
         reflexivity).
Qed.

Lemma heard_kept (sc : script) (ps : Props) (hp : bool) :
  kept sc ps hp (heard ps).
Proof.
  constructor; try (intros; simpl; assumption);
    try (intros; eapply heard_ext; [| |eassumption]; reflexivity).
  - intros a i rest s s' o _ _ Hp He.
    apply (exec_heard ps) in He.
    + destruct o; (eapply heard_ext; [| |exact He]); simpl;
        rewrite ?told_app, ?app_nil_r; reflexivity.
    + eapply heard_ext; [| |exact Hp]; simpl; rewrite ?told_app, ?app_nil_r;
        reflexivity.
  - intros a x i s _ Hp _ _ _.
    eapply heard_ext; [| |exact Hp]; destruct i; simpl;
      rewrite ?told_app, ?app_nil_r; reflexivity.
  - intros s _ Hp.
    destruct (transitionend_frame s) as (_ & _ & _ & Ec & _ & El & _).
    eapply heard_ext; [| |exact Hp]; congruence.
  - intros v s. apply heard_store.
Qed.

(** The store of a component tells its children a value only when the
    value differs from the one it holds: of the values that the children
    are told, the first differs from the [show] the component was created
    with and each one after differs from the one before; the store holds
    the last of them. *)
Theorem store_tells_changes_only (sc : script) (ps : Props)
    (ancestor : option (bool * option bool)) (kids : Z) (evs : list event) :
  let s := lifetime sc ps ancestor kids evs in
  changes (p_show ps) (told (log s)) = true /\
  c_show (context s) = List.last (told (log s)) (p_show ps).
Proof.
  apply (kept_lifetime sc ps ancestor kids (heard ps));
    [apply heard_kept | split; reflexivity].
Qed.

(** ** Runs of the later scripts *)

Lemma cleanup_follows_joint_wait_witness :
  let s := lifetime RunesScript (fade (Some false) false false) None 1
             [Update (Some true); Then 0; Resume 0; Frame 0; Resume 0;
              TransitionEndEvent; ChildReported; Resume 0] in
  classList s = [] /\
  exists x, acts s !! 0%nat = Some x /\ a_transitioned x = Some true /\
    resolved (gates s) (a_children x) = true.
Proof.
  cbv zeta. split; [vm_compute; reflexivity|].
  assert (Hx : exists x,
            acts (lifetime RunesScript (fade (Some false) false false) None 1
                    [Update (Some true); Then 0; Resume 0; Frame 0; Resume 0;
                     TransitionEndEvent; ChildReported; Resume 0]) !! 0%nat
              = Some x /\
            In (RemoveClasses [Base; To]) (a_done x))
    by (vm_compute; eexists; split; [reflexivity|];
        repeat (first [left; reflexivity | right])).
  destruct Hx as (x & Hx & Hin). exists x. split; [exact Hx|].
  destruct (cleanup_follows_joint_wait RunesScript
              (fade (Some false) false false) None 1
              [Update (Some true); Then 0; Resume 0; Frame 0; Resume 0;
               TransitionEndEvent; ChildReported; Resume 0] 0 x
              ltac:(discriminate) Hx) as [_ H].
  destruct (H (or_introl Hin)) as (_ & _ & _ & _ & _ & H1 & H2).
  split; assumption.
Defined.

Lemma report_follows_own_gate_witness :
  let s := lifetime SecondScript (fade None false false)
             (Some (false, Some false)) 1
             [Notify (Some true); Resume 0; Frame 0; Resume 0;
              TransitionEndEvent; ChildReported; Resume 0] in
  In (Reported 0) (log s) /\
  exists x, acts s !! 0%nat = Some x /\
    resolved (gates s) (a_children x) = true.
Proof.
  cbv zeta. split.
  { vm_compute. repeat (first [left; reflexivity | right]). }
  assert (Hx : exists x,
            acts (lifetime SecondScript (fade None false false)
                    (Some (false, Some false)) 1
                    [Notify (Some true); Resume 0; Frame 0; Resume 0;
                     TransitionEndEvent; ChildReported; Resume 0]) !! 0%nat
              = Some x /\
            In AwaitParent (a_done x ++ wait_list x))
    by (vm_compute; eexists; split; [reflexivity|];
        repeat (first [left; reflexivity | right])).
  destruct Hx as (x & Hx & Hin). exists x. split; [exact Hx|].
  exact (report_follows_own_gate SecondScript (fade None false false)
           (Some (false, Some false)) 1
           [Notify (Some true); Resume 0; Frame 0; Resume 0;
            TransitionEndEvent; ChildReported; Resume 0] 0 x Hx Hin).
Defined.

(** ** A parent and its children: what each node keeps *)

Lemma log_kept (sc : script) (ps : Props) (hp : bool) (l : list entry) :
  kept sc ps hp (fun t => exists more, log t = l ++ more).
Proof.
  assert (Hadd : forall t t' (m : list entry),
            log t' = log t ++ m -> (exists more, log t = l ++ more) ->
            exists more, log t' = l ++ more).
  { intros t t' m E (more & H). exists (more ++ m).
    rewrite E, H, app_assoc. reflexivity. }
  constructor; try (intros; simpl; assumption).
  - intros a i rest s s' o _ _ Hp He.
    destruct (exec_effect _ _ _ _ _ _ _ He)
      as (_ & _ & _ & _ & _ & _ & (m & Hm & _) & _).
    simpl in Hm. destruct Hp as (more & H).
    destruct o; simpl; rewrite Hm, H; eexists; rewrite <- !app_assoc;
      reflexivity.
  - intros a x i s _ Hp _ _ _.
    apply (Hadd s _ [Resumed a i]); [destruct i; reflexivity | exact Hp].
  - intros s _ Hp. destruct (transitionend_frame s) as (_ & _ & _ & _ & _ & E & _).
    rewrite E. exact Hp.
  - intros v s Hp. unfold store_set, set.
    destruct (decide (c_show (context s) = v)); [exact Hp|].
    apply (Hadd s _ [Notified v]); [reflexivity | exact Hp].
Qed.

Lemma step_log (sc : script) (ps : Props) (hp : bool) (ev : event) (s : state) :
  inv sc ps s -> exists more, log (step sc ps hp ev s) = log s ++ more.
Proof.
  intros Hi.
  apply (kept_steps sc ps hp (fun t => exists more, log t = log s ++ more) [ev]);
    [apply log_kept | exact Hi |].
  exists []. rewrite app_nil_r. reflexivity.
Qed.

Lemma reported_app (l m : list entry) : reported (l ++ m) = reported l ++ reported m.
Proof. apply flat_map_app. Qed.

Lemma filter_length_alter {A} (f : A -> bool) (g : A -> A) (a : nat)
    (l : list A) :
  (forall x, l !! a = Some x -> f x = true -> f (g x) = true) ->
  (length (List.filter f l) <= length (List.filter f (alter g a l)))%nat /\
  (forall x, l !! a = Some x -> f x = false -> f (g x) = true ->
   length (List.filter f (alter g a l)) = S (length (List.filter f l))).
Proof.
  revert a. induction l as [|y l IH]; intros a H.
  - split; [simpl; lia | intros x Hx; discriminate Hx].
  - destruct a as [|a].
    + change (alter g 0%nat (y :: l)) with (g y :: l). simpl. split.
      * destruct (f y) eqn:E; [rewrite (H y eq_refl E); simpl; lia|].
        destruct (f (g y)); simpl; lia.
      * intros x Hx Hf Hg. inversion Hx; subst x. rewrite Hf, Hg. reflexivity.
    + change (alter g (S a) (y :: l)) with (y :: alter g a l).
      destruct (IH a (fun x Hx => H x Hx)) as [I1 I2]. simpl. split.
      * destruct (f y); simpl; lia.
      * intros x Hx Hf Hg. specialize (I2 x Hx Hf Hg).
        destruct (f y); simpl; lia.
Qed.

Lemma exec_reported (unmount : bool) (a : nat) (i : instr) (s s' : state)
    (o : outcome) (x : activation) :
  exec unmount true a i s = (s', o) -> acts s !! a = Some x ->
  reported (log s') =
    reported (log s) ++ (if bool_decide (i = AwaitParent) then [a] else []) /\
  (i = AwaitParent -> o = Suspend).
Proof.
  unfold exec. intros H Hx. rewrite Hx in H.
  destruct i; simpl in H; unfold store_set, set, childrenCompleted in *;
    repeat case_match; simplify_eq/=;
    rewrite ?reported_app, ?app_nil_r; split; try reflexivity; try discriminate.
Qed.

Lemma is_reporter_done (y : activation) :
  a_wait y = None ->
  is_reporter y = existsb (fun i => bool_decide (i = AwaitParent)) (a_done y).
Proof.
  intros H. unfold is_reporter, wait_list. rewrite H, app_nil_r. reflexivity.
Qed.

Lemma program_nodup (sc : script) (show : bool) : List.NoDup (program sc show).
Proof.
  destruct sc, show;
    apply NoDup_ListNoDup, (bool_decide_eq_true_1 _); vm_compute; reflexivity.
Qed.

Lemma not_done_yet (sc : script) (show : bool) (d r : list instr) (i : instr) :
  d ++ i :: r = program sc show -> ~ In i d.
Proof.
  intros H Hin. pose proof (program_nodup sc show) as Hn. rewrite <- H in Hn.
  apply NoDup_ListNoDup, NoDup_app in Hn. destruct Hn as (_ & Hd & _).
  apply (Hd i); [apply list_elem_of_In; exact Hin | left].
Qed.

Lemma existsb_await (l : list instr) :
  existsb (fun i => bool_decide (i = AwaitParent)) l = true <-> In AwaitParent l.
Proof.
  rewrite existsb_exists. split.
  - intros (i & Hi & E). apply bool_decide_eq_true in E. subst. exact Hi.
  - intros H. exists AwaitParent. split; [exact H|].
    apply bool_decide_eq_true. reflexivity.
Qed.

Lemma reporters_on_act (a : nat) (g : activation -> activation) (s : state) :
  (forall x, a_done (g x) = a_done x /\ a_wait (g x) = a_wait x) ->
  length (reporters (on_act a g s)) = length (reporters s).
Proof.
  intros Hg. unfold reporters. simpl.
  assert (E : forall x, is_reporter (g x) = is_reporter x).
  { intros x. unfold is_reporter, wait_list. destruct (Hg x) as [-> ->].
    reflexivity. }
  generalize (acts s). intros l. revert a.
  induction l as [|y l IH]; intros a; [reflexivity|].
  destruct a as [|a].
  - change (alter g 0%nat (y :: l)) with (g y :: l). simpl. rewrite E.
    destruct (is_reporter y); reflexivity.
  - change (alter g (S a) (y :: l)) with (y :: alter g a l). simpl.
    destruct (is_reporter y); simpl; rewrite IH; reflexivity.
Qed.

Lemma counted_kept (sc : script) (ps : Props) : kept sc ps true counted.
Proof.
  constructor; try (intros; simpl; assumption).
  - intros a i rest s s' o [(x & Hx & Hpre & _) _] (x' & Hx' & Hw) Hp He.
    rewrite Hx in Hx'. inversion Hx'; subst x'. clear Hx'.
    destruct (exec_reported _ _ _ _ _ _ x He Hx) as [Hr Ho].
    destruct (exec_effect _ _ _ _ _ _ _ He) as ((f & Hacts & Hf) & _).
    destruct (Hf x) as ((K1 & K2 & K3 & K4 & K5 & K6 & K7 & K8) & _).
    simpl in Hr, Hacts. rewrite reported_app in Hr. simpl in Hr.
    rewrite app_nil_r in Hr.
    assert (Hnot : ~ In i (a_done x)) by (eapply not_done_yet; exact Hpre).
    assert (Hbefore : is_reporter x =
                      existsb (fun i => bool_decide (i = AwaitParent)) (a_done x))
      by (apply is_reporter_done, Hw).
    set (g := match o with
              | Next => act_done i
              | Suspend => act_suspend i rest
              | Throw => act_throw (i :: rest)
              end).
    assert (Hacts' : acts (settle a i rest o s') = alter (fun y => g (f y)) a (acts s)).
    { destruct o; simpl; rewrite Hacts, list_alter_alter_eq; reflexivity. }
    assert (Hlog : reported (log (settle a i rest o s')) = reported (log s')).
    { destruct o; simpl; rewrite ?reported_app, ?app_nil_r; reflexivity. }
    unfold counted, reporters. rewrite Hlog, Hr, Hacts'.
    destruct (filter_length_alter is_reporter (fun y => g (f y)) a (acts s))
      as [Hmono Hstep].
    { intros y Hy Hrep. rewrite Hx in Hy. inversion Hy; subst y.
      rewrite Hbefore in Hrep. apply existsb_await in Hrep.
      unfold is_reporter. apply existsb_await. apply in_or_app. left.
      destruct o; simpl; rewrite K5; try exact Hrep.
      apply in_or_app. left. exact Hrep. }
    destruct (bool_decide (i = AwaitParent)) eqn:Ei.
    + apply bool_decide_eq_true in Ei. specialize (Ho Ei). subst o i.
      rewrite length_app. simpl.
      rewrite (Hstep x Hx).
      * unfold counted, reporters in Hp. lia.
      * rewrite Hbefore. apply not_true_is_false. intros Hrep.
        apply existsb_await in Hrep. contradiction.
      * unfold is_reporter, wait_list. simpl. apply existsb_await.
        apply in_or_app. right. left. reflexivity.
    + rewrite app_nil_r. unfold counted, reporters in Hp. lia.
  - intros a s _ (x & Hx & Hw) Hp. unfold counted, reporters in *. simpl.
    destruct (filter_length_alter is_reporter act_return a (acts s)) as [Hmono _];
      [|lia].
    intros y Hy Hrep. rewrite Hx in Hy. inversion Hy; subst y.
    rewrite (is_reporter_done x Hw) in Hrep.
    unfold is_reporter, wait_list. simpl. rewrite app_nil_r. exact Hrep.
  - intros a x i s _ Hp Hx Hw _. unfold counted, reporters in *.
    assert (E : log (wake i x (st_log (Resumed a i) (on_act a (act_done i) s)))
                = log s ++ [Resumed a i] /\
                acts (wake i x (st_log (Resumed a i) (on_act a (act_done i) s)))
                = alter (act_done i) a (acts s))
      by (destruct i; split; reflexivity).
    destruct E as [-> ->]. rewrite reported_app. simpl. rewrite app_nil_r.
    destruct (filter_length_alter is_reporter (act_done i) a (acts s))
      as [Hmono _]; [|lia].
    intros y Hy Hrep. rewrite Hx in Hy. inversion Hy; subst y.
    unfold is_reporter, wait_list in *. rewrite Hw in Hrep. simpl.
    rewrite app_nil_r. exact Hrep.
  - intros show s _ Hp. unfold counted, reporters in *. simpl.
    rewrite List.filter_app, length_app. lia.
  - intros a s Hp. unfold counted. rewrite reporters_on_act; [exact Hp|].
    intros x. split; reflexivity.
  - intros a s Hp. unfold counted. rewrite reporters_on_act; [exact Hp|].
    intros x. split; reflexivity.
  - intros s _. apply transitionend_keeps.
    + intros f t H. exact H.
    + intros a t H. unfold counted. rewrite reporters_on_act; [exact H|].
      intros x. split; reflexivity.
  - intros v s Hp. unfold counted, reporters in *. unfold store_set, set.
    destruct (decide (c_show (context s) = v)); [exact Hp|]. simpl.
    rewrite reported_app. simpl. rewrite app_nil_r. exact Hp.
Qed.

Lemma exec_plain (unmount hp : bool) (a : nat) (i : instr) (s s' : state)
    (o : outcome) :
  exec unmount hp a i s = (s', o) ->
  i <> ChildrenCompleted -> (forall b, i <> SetShow b) ->
  gates s' = gates s /\ context s' = context s /\ told (log s') = told (log s).
Proof.
  unfold exec. intros H H1 H2.
  destruct (acts s !! a) as [x|]; [|inversion H; subst; repeat split].
  destruct i; simpl in H; try congruence; try (exfalso; eapply H2; reflexivity);
    repeat case_match; simplify_eq/=; repeat split;
    rewrite ?told_app, ?app_nil_r; reflexivity.
Qed.

Lemma exec_not_suspended (unmount hp : bool) (a : nat) (i : instr)
    (s s' : state) :
  exec unmount hp a i s = (s', Suspend) ->
  i <> ChildrenCompleted /\ forall b, i <> SetShow b.
Proof.
  unfold exec. intros H.
  destruct (acts s !! a) as [x|]; [|discriminate].
  destruct i; simpl in H; unfold store_set, set, childrenCompleted in *;
    repeat case_match; simplify_eq/=; split; try discriminate;
    intros; discriminate.
Qed.

Lemma gate_before_store (sc : script) (show b : bool) (d r : list instr) :
  sc <> FirstScript -> d ++ SetShow b :: r = program sc show ->
  In ChildrenCompleted d.
Proof.
  intros Hs H.
  assert (He : earlier ChildrenCompleted (SetShow b)
                 ((d ++ [SetShow b]) ++ r) = true).
  { rewrite <- app_assoc. simpl. rewrite H.
    destruct sc; [congruence| |]; destruct show, b; reflexivity. }
  apply earlier_spec in He; [|apply in_or_app; right; left; reflexivity].
  apply in_app_or in He. destruct He as [He|[He|[]]]; [exact He | discriminate He].
Qed.

Lemma store_after_gate (sc : script) (show b : bool) (d r : list instr) :
  sc <> FirstScript -> d ++ ChildrenCompleted :: r = program sc show ->
  ~ In (SetShow b) d.
Proof.
  intros Hs H Hin.
  assert (He : earlier ChildrenCompleted (SetShow b) (d ++ ChildrenCompleted :: r) = true).
  { rewrite H. destruct sc; [congruence| |]; destruct show, b; reflexivity. }
  apply earlier_spec in He; [|exact Hin].
  revert He. eapply not_done_yet. exact H.
Qed.

Lemma one_set_show (sc : script) (show b : bool) :
  sc <> FirstScript -> In (SetShow b) (program sc show) -> b = show.
Proof.
  intros Hs Hin. destruct sc; [congruence| |]; destruct show; simpl in Hin;
    repeat (destruct Hin as [Hin|Hin];
            [first [discriminate Hin | inversion Hin; reflexivity]|]);
    destruct Hin.
Qed.

Lemma lookup_single {A} (x y : A) (a : nat) :
  [x] !! a = Some y -> a = 0%nat /\ y = x.
Proof.
  destruct a as [|a]; simpl; [intros H; inversion H; tauto|].
  intros H. discriminate H.
Qed.

Lemma single_exec (sc : script) (ps : Props) (hp : bool) (n count : Z)
    (a : nat) (i : instr) (rest : list instr) (s s' : state) (o : outcome) :
  sc <> FirstScript -> n <> 0 ->
  mid sc ps a (i :: rest) s ->
  (exists x, acts s !! a = Some x /\ a_wait x = None) ->
  single n count s ->
  exec (p_unmount ps) hp a i (st_log (Did a i) s) = (s', o) ->
  single n count (settle a i rest o s').
Proof.
  intros Hsc Hn Hm (x & Hx & Hw) (Hc & Hg & Hsh) He.
  destruct (acts s) as [|x0 [|]] eqn:Ha; [discriminate Hx | | destruct Hsh].
  apply lookup_single in Hx. destruct Hx as [-> ->].
  destruct Hm as ((x' & Hx' & Hpre & _) & _). rewrite Ha in Hx'.
  inversion Hx'; subst x'. clear Hx'.
  destruct Hsh as [_ Hsh].
  destruct (decide (i = ChildrenCompleted)) as [->|Hcc].
  { pose proof (not_done_yet _ _ _ _ _ Hpre) as Hnot.
    destruct Hsh as [(_ & Hgs & Hcl & Ht)|[Hin _]]; [|contradiction].
    unfold exec in He. simpl in He. rewrite Ha in He. simpl in He.
    unfold childrenCompleted in He. rewrite Hc in He.
    destruct (n =? 0) eqn:En; [apply Z.eqb_eq in En; contradiction|].
    inversion He; subst s' o. clear He.
    unfold single, gate_count. simpl. rewrite Ha, Hgs. simpl.
    split; [exact Hc|]. split; [rewrite <- Hg; unfold gate_count; rewrite Hgs; reflexivity|].
    split; [intros i Hi; discriminate Hi|]. right.
    split; [apply in_or_app; right; left; reflexivity|].
    eexists. split; [reflexivity|]. split; [reflexivity|].
    split; [reflexivity|]. split; [discriminate|].
    rewrite told_app, Ht. simpl. split; [lia|]. intros H; contradiction. }
  assert (Hdec : (exists b, i = SetShow b) \/ forall b, i <> SetShow b)
    by (destruct i; try (right; discriminate); left; eexists; reflexivity).
  destruct Hdec as [(b & ->)|Hss'].
  { pose proof (gate_before_store _ _ _ _ _ Hsc Hpre) as Hin.
    destruct Hsh as [(Hnot & _)|(_ & gt & Hgs & Hcl & Hch & Hres & _ & Hpast)];
      [contradiction|].
    assert (Ht : told (log s) = []).
    { destruct (told (log s)) eqn:Et; [reflexivity|].
      destruct Hpast as (b' & Hb'); [discriminate|].
      pose proof (not_done_yet _ _ _ _ _ Hpre) as Hnot.
      assert (In (SetShow b') (program sc (a_show x0)))
        by (rewrite <- Hpre; apply in_or_app; left; exact Hb').
      assert (In (SetShow b) (program sc (a_show x0)))
        by (rewrite <- Hpre; apply in_or_app; right; left; reflexivity).
      rewrite (one_set_show _ _ _ Hsc H) in Hb'.
      rewrite (one_set_show _ _ _ Hsc H0) in Hnot. contradiction. }
    unfold exec in He. simpl in He. rewrite Ha in He. simpl in He.
    unfold store_set, set in He.
    assert (Hs' : o = Next /\ acts s' = [x0] /\ gates s' = gates s /\
                  c_count (context s') = n /\
                  c_completed (context s') = Closure 0 /\
                  (length (told (log s')) <= 1)%nat).
    { simpl in He. repeat case_match; simplify_eq/=;
        rewrite ?told_app, ?Ht; repeat split; simpl; auto. }
    destruct Hs' as (-> & Ha' & Hg' & Hc' & Hcl' & Hlen).
    unfold single, gate_count. simpl. rewrite Ha', Hg', Hgs. simpl.
    split; [exact Hc'|].
    split; [rewrite <- Hg; unfold gate_count; rewrite Hgs; reflexivity|].
    split; [intros i Hi; discriminate Hi|]. right.
    split; [apply in_or_app; left; exact Hin|].
    exists gt. repeat split; try assumption.
    intros _. exists b. apply in_or_app. right. left. reflexivity. }
  destruct (exec_plain _ _ _ _ _ _ _ He Hcc Hss') as (Hg' & Hctx & Ht).
  destruct (exec_effect _ _ _ _ _ _ _ He) as ((f & Hacts & Hf) & _).
  simpl in Hacts, Hg', Hctx, Ht. rewrite Ha in Hacts. simpl in Hacts.
  destruct (Hf x0) as ((_ & _ & _ & _ & Hd & _) & _ & Hch).
  specialize (Hch Hcc).
  rewrite told_app in Ht. simpl in Ht. rewrite app_nil_r in Ht.
  assert (Hshape :
    forall d, (In ChildrenCompleted d <-> In ChildrenCompleted (a_done x0)) ->
      (forall b, In (SetShow b) (a_done x0) -> In (SetShow b) d) ->
      (~ In ChildrenCompleted d /\ gates s' = [] /\
        c_completed (context s') = Default /\ told (log s') = [])
       \/
       (In ChildrenCompleted d /\
        exists gt, gates s' = [gt] /\ c_completed (context s') = Closure 0 /\
          a_children (f x0) = OfGate 0 /\
          (g_resolved gt = true -> n <= g_count gt) /\
          (length (told (log s')) <= 1)%nat /\
          (told (log s') <> [] -> exists b, In (SetShow b) d))).
  { intros d Hd1 Hd2. rewrite Hg', Hctx, Ht, Hch.
    destruct Hsh as [(H1 & H2)|(H1 & gt & H2 & H3 & H4 & H5 & H6 & H7)].
    - left. split; [rewrite Hd1; exact H1 | exact H2].
    - right. split; [rewrite Hd1; exact H1|]. exists gt.
      repeat split; try assumption.
      intros Hne. destruct (H7 Hne) as (b & Hb). exists b. apply Hd2, Hb. }
  assert (Hbase : c_count (context s') = n /\ gate_count s' = count).
  { unfold gate_count. rewrite Hg', Hctx. split; assumption. }
  destruct Hbase as [Hc' Hgc'].
  destruct o; unfold single, settle, gate_count; simpl; rewrite Hacts; simpl;
    (split; [exact Hc'|]); (split; [exact Hgc'|]).
  - split; [intros j Hj; discriminate Hj|]. apply Hshape.
    + rewrite Hd. split; intros H.
      * apply in_app_or in H. destruct H as [H|[H|[]]]; [exact H|].
        congruence.
      * apply in_or_app. left. exact H.
    + intros b Hb. rewrite Hd. apply in_or_app. left. exact Hb.
  - split; [intros j Hj; inversion Hj; subst j; split; assumption|].
    apply Hshape; [rewrite Hd; tauto | intros b Hb; rewrite Hd; exact Hb].
  - split; [intros j Hj; discriminate Hj|].
    rewrite told_app. simpl. rewrite app_nil_r.
    apply Hshape; [rewrite Hd; tauto | intros b Hb; rewrite Hd; exact Hb].
Qed.

Lemma single_ext (n count : Z) (s s' : state) :
  acts s' = acts s -> gates s' = gates s -> context s' = context s ->
  log s' = log s -> single n count s -> single n count s'.
Proof.
  unfold single, gate_count. intros -> -> -> ->. tauto.
Qed.

Lemma single_on_act (n count : Z) (a : nat) (g : activation -> activation)
    (s : state) :
  (forall x, a_done (g x) = a_done x /\ a_wait (g x) = a_wait x /\
             a_children (g x) = a_children x) ->
  single n count s -> single n count (on_act a g s).
Proof.
  intros Hg (Hc & Hgc & Hsh). unfold single, gate_count in *. simpl.
  split; [exact Hc|]. split; [exact Hgc|].
  destruct (acts s) as [|x [|]]; [exact Hsh | | destruct Hsh].
  destruct a as [|a]; [|exact Hsh].
  change (alter g 0%nat [x]) with [g x].
  destruct (Hg x) as (-> & -> & ->). exact Hsh.
Qed.

Lemma single_return (n count : Z) (a : nat) (s : state) :
  single n count s -> single n count (on_act a act_return s).
Proof.
  intros (Hc & Hgc & Hsh). unfold single, gate_count in *. simpl.
  split; [exact Hc|]. split; [exact Hgc|].
  destruct (acts s) as [|x [|]]; [exact Hsh | | destruct Hsh].
  destruct a as [|a]; [|exact Hsh].
  change (alter act_return 0%nat [x]) with [act_return x]. simpl.
  split; [intros i Hi; discriminate Hi | apply Hsh].
Qed.

Lemma single_resume (n count : Z) (a : nat) (x : activation) (i : instr)
    (s : state) :
  single n count s -> acts s !! a = Some x -> a_wait x = Some i ->
  single n count (wake i x (st_log (Resumed a i) (on_act a (act_done i) s))).
Proof.
  intros Hs Hx Hw.
  apply (single_ext n count (st_log (Resumed a i) (on_act a (act_done i) s)));
    try (destruct i; reflexivity).
  destruct Hs as (Hc & Hgc & Hsh). unfold single, gate_count in *. simpl.
  split; [exact Hc|]. split; [exact Hgc|].
  destruct (acts s) as [|x0 [|]]; [discriminate Hx | | destruct Hsh].
  apply lookup_single in Hx. destruct Hx as [-> ->].
  change (alter (act_done i) 0%nat [x0]) with [act_done i x0]. simpl.
  rewrite told_app. simpl. rewrite app_nil_r.
  destruct Hsh as [Hwait Hsh]. destruct (Hwait i Hw) as [Hcc Hss].
  split; [intros j Hj; discriminate Hj|].
  destruct Hsh as [(H1 & H2)|(H1 & gt & H2 & H3 & H4 & H5 & H6 & H7)].
  - left. split; [|exact H2]. intros Hin. apply in_app_or in Hin.
    destruct Hin as [Hin|[Hin|[]]]; [contradiction | congruence].
  - right. split; [apply in_or_app; left; exact H1|]. exists gt.
    repeat split; try assumption.
    intros Hne. destruct (H7 Hne) as (b & Hb). exists b.
    apply in_or_app. left. exact Hb.
Qed.

Lemma single_transitionend (n count : Z) (s : state) :
  single n count s -> single n count (transitionend s).
Proof.
  apply (transitionend_keeps (single n count)).
  - intros f t. apply single_ext; reflexivity.
  - intros a t. apply single_on_act. intros x. repeat split.
Qed.

Lemma single_run_sync (sc : script) (ps : Props) (hp : bool) (n count : Z)
    (a : nat) (prog : list instr) (s : state) :
  sc <> FirstScript -> n <> 0 -> mid sc ps a prog s ->
  (exists x, acts s !! a = Some x /\ a_wait x = None) ->
  single n count s -> single n count (run_sync (p_unmount ps) hp a prog s).
Proof.
  intros Hsc Hn. apply (run_sync_keeps sc ps hp (single n count)).
  - intros a0 i rest t t' o. apply single_exec; assumption.
  - intros a0 t _ _. apply single_return.
Qed.

Lemma single_resumed (sc : script) (ps : Props) (hp : bool) (n count : Z)
    (a : nat) (s : state) :
  sc <> FirstScript -> n <> 0 -> inv sc ps s -> single n count s ->
  single n count (resume (p_unmount ps) hp a s).
Proof.
  intros Hsc Hn. apply (resume_keeps sc ps hp (single n count)).
  - intros a0 i rest t t' o. apply single_exec; assumption.
  - intros a0 t _ _. apply single_return.
  - intros a0 x i t _ Hs Hx Hw _. apply single_resume; assumption.
Qed.

Lemma single_execute (sc : script) (ps : Props) (hp : bool) (n count : Z)
    (show : option bool) (s : state) :
  sc <> FirstScript -> n <> 0 -> inv sc ps s -> acts s = [] ->
  single n count s -> single n count (execute sc ps hp show s).
Proof.
  intros Hsc Hn Hi Ha Hs.
  assert (Hanim : single n count
            match sc with
            | FirstScript => Legacy.animate ps hp show s
            | SecondScript => Slots.animate ps hp show s
            | RunesScript => Runes.animate ps hp show s
            end).
  { rewrite animate_start. unfold start.
    apply (single_run_sync sc); try assumption.
    - apply start_mid. exact Hi.
    - eexists. split; [simpl; apply list_lookup_middle; reflexivity|reflexivity].
    - destruct Hs as (Hc & Hgc & Hsh). unfold single, gate_count in *. simpl.
      rewrite Ha in *. simpl.
      split; [exact Hc|]. split; [exact Hgc|].
      split; [intros i Hi'; discriminate Hi'|]. left.
      split; [intros []|exact Hsh]. }
  destruct sc; [congruence| |]; simpl.
  - unfold Slots.execute. destruct (run s).
    + apply (single_ext n count (Slots.animate ps hp show s));
        [reflexivity.. | exact Hanim].
    + apply (single_ext n count s); [reflexivity.. | exact Hs].
  - unfold Runes.execute. destruct (run s).
    + apply (single_ext n count (Runes.animate ps hp show s));
        [reflexivity.. | exact Hanim].
    + apply (single_ext n count s); [reflexivity.. | exact Hs].
Qed.

Lemma resume_budget (unmount hp : bool) (a : nat) (s : state) :
  length (acts (resume unmount hp a s)) = length (acts s) /\
  thens (resume unmount hp a s) = thens s /\
  run (resume unmount hp a s) = run s.
Proof.
  unfold resume. destruct (acts s !! a) as [x|]; [|tauto].
  destruct (a_wait x) as [i|]; [|tauto].
  destruct (ready s x i); [|tauto].
  destruct (run_sync_untouched unmount hp a (a_rest x)
              (wake i x (st_log (Resumed a i) (on_act a (act_done i) s))))
    as (H1 & _ & H2 & _ & H3 & _).
  rewrite H1, H2, H3. destruct i; simpl; rewrite length_alter; tauto.
Qed.

Lemma execute_budget (sc : script) (ps : Props) (hp : bool)
    (show : option bool) (s : state) :
  sc <> FirstScript ->
  (length (acts (execute sc ps hp show s)) <= S (length (acts s)))%nat /\
  thens (execute sc ps hp show s) = thens s.
Proof.
  intros Hsc. pose proof (animate_acts sc ps hp show s) as Ha. cbv zeta in Ha.
  destruct Ha as (H1 & _ & _ & H2 & _).
  destruct sc; [congruence| |]; simpl;
    unfold Slots.execute, Runes.execute; destruct (run s); simpl;
    rewrite ?H1, ?H2; split; (lia || reflexivity).
Qed.

Lemma single_reported (n count : Z) (s : state) :
  single n count s -> told (log s) <> [] ->
  single n (count + 1) (child_reported s).
Proof.
  intros (Hc & Hgc & Hsh) Ht. unfold single, gate_count, child_reported in *.
  simpl. split; [exact Hc|].
  destruct (acts s) as [|x [|]]; [destruct Hsh as (_ & _ & E); congruence | |
                                  destruct Hsh].
  destruct Hsh as [Hw [(_ & _ & _ & E)|(H1 & gt & H2 & H3 & H4 & H5 & H6 & H7)]];
    [congruence|].
  unfold completed. rewrite H3, H2. rewrite H2 in Hgc.
  change (alter (arrive (context s)) 0%nat [gt]) with [arrive (context s) gt].
  split; [simpl; lia|]. split; [exact Hw|]. right. split; [exact H1|].
  eexists. split; [reflexivity|]. repeat split; try assumption.
  unfold arrive. simpl. rewrite Hc. intros Hr. apply orb_prop in Hr.
  destruct Hr as [Hr|Hr]; [specialize (H5 Hr); lia | apply Z.eqb_eq in Hr; lia].
Qed.

Lemma reports_keep (sc : script) (ps : Props) (n count : Z)
    (calls : list nat) (s : state) :
  inv sc ps s -> single n count s -> (calls <> [] -> told (log s) <> []) ->
  let s' := fold_left (fun p _ => child_reported p) calls s in
  inv sc ps s' /\ single n (count + Z.of_nat (length calls)) s' /\
  acts s' = acts s /\ log s' = log s /\ thens s' = thens s /\ run s' = run s.
Proof.
  revert s count. induction calls as [|a calls IH]; intros s count Hi Hs Ht.
  - simpl. rewrite Z.add_0_r. tauto.
  - assert (Hne : told (log s) <> []) by (apply Ht; discriminate).
    destruct (IH (child_reported s) (count + 1)) as (I1 & I2 & I3 & I4 & I5 & I6).
    + apply (step_inv sc ps false ChildReported). exact Hi.
    + apply single_reported; assumption.
    + intros _. exact Hne.
    + cbv zeta. simpl fold_left. split; [exact I1|].
      split; [|rewrite I3, I4, I5, I6; repeat split].
      replace (count + Z.of_nat (length (a :: calls)))
        with (count + 1 + Z.of_nat (length calls))
        by (simpl length; lia).
      exact I2.
Qed.

Lemma total_insert (ks : list state) (c : nat) (k k' : state) :
  ks !! c = Some k ->
  total (<[c := k']> ks) =
  total ks - Z.of_nat (length (reported (log k)))
  + Z.of_nat (length (reported (log k'))).
Proof.
  revert c. induction ks as [|k0 ks IH]; intros c H; [discriminate H|].
  destruct c as [|c].
  - inversion H; subst k0. simpl. lia.
  - simpl in H. specialize (IH c H). simpl in *. lia.
Qed.

Lemma total_bound (ks : list state) :
  (forall c k, ks !! c = Some k -> (length (reported (log k)) <= 1)%nat) ->
  total ks <= Z.of_nat (length ks).
Proof.
  induction ks as [|k0 ks IH]; intros H; [simpl; lia|].
  pose proof (H 0%nat k0 eq_refl).
  specialize (IH (fun c k Hk => H (S c) k Hk)). simpl in *. lia.
Qed.

(** When [n] children have called at least [n] times and none more
    than once, each has called. *)
Lemma total_full (ks : list state) :
  (forall c k, ks !! c = Some k -> (length (reported (log k)) <= 1)%nat) ->
  Z.of_nat (length ks) <= total ks ->
  forall c k, ks !! c = Some k -> length (reported (log k)) = 1%nat.
Proof.
  induction ks as [|k0 ks IH]; intros H Ht c k Hk; [discriminate Hk|].
  pose proof (H 0%nat k0 eq_refl) as H0.
  pose proof (total_bound ks (fun c k Hk => H (S c) k Hk)) as Hb.
  destruct c as [|c].
  - inversion Hk; subst k0. simpl in *. lia.
  - apply (IH (fun c k Hk => H (S c) k Hk)) with (c := c); [|exact Hk].
    simpl in *. lia.
Qed.

Lemma child_acts (sc : script) (ps : Props) (hp : bool) (ev : event)
    (s : state) :
  of_child ev = true \/ (exists a, ev = ParentSettled a) ->
  length (acts (step sc ps hp ev s)) = length (acts s).
Proof.
  intros [H|(a & ->)].
  - destruct ev; try discriminate H; simpl.
    + apply resume_budget.
    + unfold frame. repeat case_match; try reflexivity. simpl.
      apply length_alter.
    + apply transitionend_frame.
  - simpl. unfold parent_settled. repeat case_match; try reflexivity. simpl.
    apply length_alter.
Qed.

(** ** Activations over time *)

Lemma onward_refl (hp : bool) (x : activation) : onward hp x x.
Proof.
  split; [apply incl_refl|]. split; [tauto|]. split; [tauto|]. tauto.
Qed.

Lemma onward_trans (hp : bool) (x y z : activation) :
  onward hp x y -> onward hp y z -> onward hp x z.
Proof.
  intros (A1 & A2 & A3 & A4) (B1 & B2 & B3 & B4).
  split; [eapply incl_tran; eassumption|].
  split; [tauto|]. split.
  - intros H. destruct (B3 H) as [H'|H']; [|tauto].
    destruct (A3 H') as [H''|H'']; [tauto|]. right. apply B1, H''.
  - intros Hp H. destruct (B4 Hp H) as [H'|H']; [|tauto].
    apply (A4 Hp H').
Qed.

Lemma exec_onward (unmount hp : bool) (a : nat) (i : instr)
    (rest : list instr) (s s' : state) (o : outcome) :
  exec unmount hp a i (st_log (Did a i) s) = (s', o) ->
  exists g, acts (settle a i rest o s') = alter g a (acts s) /\
    forall x, onward hp x (g x).
Proof.
  unfold exec. simpl. intros H.
  destruct (acts s !! a) as [x0|] eqn:Hx.
  2:{ inversion H; subst. exists (act_throw (i :: rest)).
      split; [reflexivity|]. intros x. unfold onward. simpl.
      split; [apply incl_refl | tauto]. }
  destruct i; simpl in H; unfold store_set, set, childrenCompleted in *;
    repeat case_match; simplify_eq/=;
    rewrite ?list_alter_alter_eq;
    (eexists; split; [reflexivity|]; intros x; unfold onward; simpl;
     split; [first [apply incl_refl | apply incl_appl, incl_refl]|];
     split; [first [tauto | discriminate]|];
     split; [first [tauto | discriminate
                   | intros _; right; apply in_or_app; right; left; reflexivity]|];
     intros Hp Hin; try discriminate Hp;
     first [left; exact Hin
           | apply in_app_or in Hin; destruct Hin as [Hin|[Hin|[]]];
             [left; exact Hin | discriminate Hin]]).
Qed.

Lemma grown_refl (hp : bool) (s : state) : grown hp s s.
Proof.
  split; [lia|]. intros b x Hx. exists x. split; [apply onward_refl | tauto].
Qed.

Lemma grown_same (hp : bool) (s0 s t : state) :
  acts t = acts s -> grown hp s0 s -> grown hp s0 t.
Proof. unfold grown. intros ->. tauto. Qed.

Lemma grown_alter (hp : bool) (s0 s t : state) (g : activation -> activation)
    (a : nat) :
  acts t = alter g a (acts s) ->
  (forall x, acts s !! a = Some x -> onward hp x (g x)) ->
  grown hp s0 s -> grown hp s0 t.
Proof.
  intros Ht Hg [Hlen Hb]. unfold grown. rewrite Ht, length_alter.
  split; [exact Hlen|]. intros b x' Hx'.
  destruct (decide (b = a)) as [->|Hne].
  - rewrite list_lookup_alter_eq in Hx'.
    destruct (acts s !! a) as [x|] eqn:Hx; [|discriminate Hx'].
    inversion Hx'; subst x'. destruct (Hb a x Hx) as (x0 & Hl & Ho).
    exists x0.
    split; [eapply onward_trans; [exact Hl | apply Hg; reflexivity] | exact Ho].
  - rewrite list_lookup_alter_ne in Hx' by congruence. apply Hb, Hx'.
Qed.

Lemma grown_start (hp : bool) (s0 s : state) (x : activation) :
  is_new x -> grown hp s0 s ->
  grown hp s0 (st_acts (fun l => l ++ [x]) s).
Proof.
  intros Hnew [Hlen Hb]. unfold grown. simpl. rewrite length_app. simpl.
  split; [lia|]. intros b x' Hx'.
  apply lookup_app_Some in Hx'. destruct Hx' as [Hx'|[Hge Hx']].
  - apply Hb, Hx'.
  - destruct (b - length (acts s))%nat eqn:E; [|discriminate Hx'].
    inversion Hx'; subst x'. exists x. split; [apply onward_refl|].
    right. split; [lia | exact Hnew].
Qed.

Lemma grown_transitionend (hp : bool) (s0 s : state) :
  grown hp s0 s -> grown hp s0 (transitionend s).
Proof.
  apply (transitionend_keeps (grown hp s0)).
  - intros f t. apply grown_same. reflexivity.
  - intros a t Hg. eapply grown_alter; [reflexivity | | exact Hg].
    intros x _. unfold onward. simpl. split; [apply incl_refl | tauto].
Qed.

Lemma grown_exec (sc : script) (ps : Props) (hp : bool) (s0 : state)
    (a : nat) (i : instr) (rest : list instr) (s s' : state) (o : outcome) :
  mid sc ps a (i :: rest) s ->
  (exists x, acts s !! a = Some x /\ a_wait x = None) -> grown hp s0 s ->
  exec (p_unmount ps) hp a i (st_log (Did a i) s) = (s', o) ->
  grown hp s0 (settle a i rest o s').
Proof.
  intros _ _ Hg He.
  destruct (exec_onward _ _ _ _ rest _ _ _ He) as (g & Hacts & Hl).
  eapply grown_alter; [exact Hacts | intros x _; apply Hl | exact Hg].
Qed.

Lemma grown_return (sc : script) (ps : Props) (hp : bool) (s0 : state)
    (a : nat) (s : state) :
  mid sc ps a [] s ->
  (exists x, acts s !! a = Some x /\ a_wait x = None) -> grown hp s0 s ->
  grown hp s0 (on_act a act_return s).
Proof.
  intros _ _ Hg. eapply grown_alter; [reflexivity | | exact Hg].
  intros x _. unfold onward. simpl. split; [apply incl_refl | tauto].
Qed.

Lemma grown_wake (sc : script) (ps : Props) (hp : bool) (s0 : state)
    (a : nat) (x : activation) (i : instr) (s : state) :
  inv sc ps s -> grown hp s0 s -> acts s !! a = Some x -> a_wait x = Some i ->
  ready s x i = true ->
  grown hp s0 (wake i x (st_log (Resumed a i) (on_act a (act_done i) s))).
Proof.
  intros _ Hg Hx Hw Hr.
  apply (grown_alter hp s0 s _ (act_done i) a);
    [destruct i; reflexivity | | exact Hg].
  intros y Hy. rewrite Hx in Hy. inversion Hy; subst y.
  unfold onward. simpl. split; [apply incl_appl, incl_refl|].
  split; [tauto|]. split; [tauto|]. intros _ Hin.
  apply in_app_or in Hin. destruct Hin as [Hin|[Hin|[]]]; [tauto|].
  subst i. right. exact Hr.
Qed.

Lemma grown_resume (sc : script) (ps : Props) (hp : bool) (s0 : state)
    (a : nat) (s : state) :
  inv sc ps s -> grown hp s0 s -> grown hp s0 (resume (p_unmount ps) hp a s).
Proof.
  apply (resume_keeps sc ps hp (grown hp s0));
    [apply grown_exec | apply grown_return | apply grown_wake].
Qed.

Lemma grown_execute (sc : script) (ps : Props) (hp : bool) (s0 : state)
    (show : option bool) (s : state) :
  inv sc ps s -> grown hp s0 s -> grown hp s0 (execute sc ps hp show s).
Proof.
  apply (execute_keeps sc ps hp (grown hp s0)).
  - apply grown_exec.
  - apply grown_return.
  - apply grown_wake.
  - intros sh t _. apply grown_start. repeat split.
  - intros t _. apply grown_transitionend.
  - intros t _. apply grown_same. reflexivity.
  - intros v t. apply grown_same. unfold store_set, set.
    destruct (decide (c_show (context t) = v)); reflexivity.
  - intros b t. apply grown_same. reflexivity.
  - intros e t. apply grown_same. reflexivity.
  - intros b t. apply grown_same. reflexivity.
  - intros v t. apply grown_same. reflexivity.
  - intros sh t _. apply grown_same. reflexivity.
Qed.

(** Every event but the resolution of the promise of the parent. *)
Lemma grown_step (sc : script) (ps : Props) (hp : bool) (ev : event)
    (s : state) :
  (forall a, ev <> ParentSettled a) -> inv sc ps s ->
  grown hp s (step sc ps hp ev s).
Proof.
  intros Hev Hi. pose proof (grown_refl hp s) as Hg.
  destruct ev; simpl.
  - destruct sc; simpl.
    + unfold Legacy.update. apply (grown_execute FirstScript).
      * eapply inv_ext; [| |exact Hi]; reflexivity.
      * eapply grown_same; [|exact Hg]. reflexivity.
    + apply (grown_execute SecondScript); assumption.
    + unfold Runes.update. eapply grown_same; [|exact Hg]. reflexivity.
  - destruct hp; [apply grown_execute|]; assumption.
  - unfold run_then. destruct (thens s !! k) as [[p show]|]; [|assumption].
    case_match; [|assumption]. apply grown_execute.
    + eapply inv_ext; [| |exact Hi]; reflexivity.
    + eapply grown_same; [|exact Hg]. reflexivity.
  - apply (grown_resume sc); assumption.
  - unfold frame. repeat case_match; try assumption.
    eapply grown_alter; [reflexivity | | exact Hg].
    intros x _. unfold onward. simpl. split; [apply incl_refl | tauto].
  - apply grown_transitionend. exact Hg.
  - exfalso. eapply Hev. reflexivity.
  - eapply grown_same; [|exact Hg]. reflexivity.
  - eapply grown_same; [|exact Hg]. reflexivity.
  - eapply grown_same; [|exact Hg]. reflexivity.
Qed.

Lemma grown_done (hp : bool) (s t : state) :
  grown hp s t -> parent_done s -> parent_done t.
Proof.
  intros [Hlen Hb] (x & Hx & Hin).
  assert (Hx' : is_Some (acts t !! 0%nat)).
  { apply lookup_lt_is_Some. apply lookup_lt_Some in Hx. lia. }
  destruct Hx' as (x' & Hx'). exists x'. split; [exact Hx'|].
  destruct (Hb 0%nat x' Hx') as (x0 & (Hincl & _) & [H0|[H0 _]]).
  - rewrite Hx in H0. inversion H0; subst x0. apply Hincl, Hin.
  - apply lookup_lt_Some in Hx. lia.
Qed.

Lemma grown_honest (hp : bool) (s t : state) :
  grown hp s t -> honest s -> honest t.
Proof.
  intros [_ Hb] Hs a x' Hx' Hc.
  destruct (Hb a x' Hx') as (x & (Hincl & _ & H3 & _) & Ho).
  destruct (H3 Hc) as [Hc'|Hin]; [|exact Hin].
  destruct Ho as [Ho|[_ (_ & _ & Hn)]]; [|congruence].
  apply Hincl. apply (Hs a x Ho Hc').
Qed.

Lemma grown_patient (D : Prop) (s t : state) :
  grown true s t -> patient D s -> patient D t.
Proof.
  intros [_ Hb] Hs b y' Hy' Hq.
  destruct (Hb b y' Hy') as (y & (_ & H2 & _ & H4) & Ho).
  assert (Hq' : a_parent y = true \/ In AwaitParent (a_done y)).
  { destruct Hq as [Hq|Hq]; [left; apply H2, Hq|].
    destruct (H4 eq_refl Hq); tauto. }
  destruct Ho as [Ho|[_ (Hd & Hp & _)]]; [apply (Hs b y Ho Hq')|].
  rewrite Hd, Hp in Hq'. destruct Hq' as [Hq'|[]]. discriminate Hq'.
Qed.

Lemma single_closure (n count : Z) (s : state) :
  single n count s -> told (log s) <> [] ->
  c_completed (context s) = Closure 0.
Proof.
  intros (_ & _ & Hsh) Ht.
  destruct (acts s) as [|x [|]]; [destruct Hsh as (_ & _ & E); congruence | |
                                  destruct Hsh].
  destruct Hsh as [_ [(_ & _ & _ & E)|(_ & gt & _ & H & _)]];
    [congruence | exact H].
Qed.

Lemma reports_acts (calls : list nat) (s : state) :
  acts (fold_left (fun p _ => child_reported p) calls s) = acts s.
Proof.
  revert s. induction calls as [|a calls IH]; intros s; [reflexivity|].
  simpl. rewrite IH. reflexivity.
Qed.

Lemma reporters_length (s : state) :
  (length (reporters s) <= length (acts s))%nat.
Proof. apply List.filter_length_le. Qed.

Lemma has_parent_none (ps : Props) : has_parent ps None = false.
Proof. unfold has_parent, find_parent. destruct (p_show ps); reflexivity. Qed.

Section Family.
Variables (sc : script) (pp : Props) (cps : list Props).
Hypothesis second_or_runes : sc <> FirstScript.
Hypothesis with_children : cps <> [].
Hypothesis subscribed : forall c cp, cps !! c = Some cp -> p_show cp = None.

Lemma child_has_parent (c : nat) (cp : Props) :
  cps !! c = Some cp -> has_parent cp (above pp) = true.
Proof.
  intros H. unfold has_parent, find_parent, above. rewrite (subscribed c cp H).
  reflexivity.
Qed.

Lemma at_child_tidy (h c : nat) (ev : event) (w : world) (k : state)
    (cp : Props) :
  tidy sc pp cps h w -> w_children w !! c = Some k -> cps !! c = Some cp ->
  (length (acts (step sc cp true ev k))
   <= length (told (log (w_parent w))))%nat ->
  tidy sc pp cps h (at_child sc pp cps c ev w).
Proof.
  intros (Hlen & Hi & Hs & Hr & Hb & Hk) Hc Hcp Hacts.
  unfold at_child. rewrite Hc, Hcp, (child_has_parent c cp Hcp).
  destruct (Hk c cp k Hcp Hc) as (Ki & Kc & Kr & Ka).
  destruct (step_log sc cp true ev k Ki) as (more & Hm).
  set (k' := step sc cp true ev k) in *.
  rewrite Hm, drop_app_length.
  assert (Ki' : inv sc cp k') by (apply step_inv; exact Ki).
  assert (Kc' : counted k').
  { apply (kept_steps sc cp true counted [ev]);
      [apply counted_kept | exact Ki | exact Kc]. }
  assert (HR : length (reported (log k'))
               = (length (reported (log k)) + length (reported more))%nat).
  { rewrite Hm, reported_app, length_app. reflexivity. }
  assert (Hne : reported more <> [] -> told (log (w_parent w)) <> []).
  { intros Hcalls Ht. rewrite Ht in Hacts. simpl in Hacts.
    pose proof (reporters_length k'). unfold counted in Kc'.
    destruct (reported more); [congruence|]. simpl in HR. lia. }
  destruct (reports_keep sc pp _ _ (reported more) _ Hi Hs Hne)
    as (Pi & Ps & Pa & Pl & Pt & Pr).
  unfold tidy. simpl.
  split; [rewrite length_insert; exact Hlen|].
  split; [exact Pi|].
  split; [rewrite (total_insert _ c k k' Hc), HR;
          replace (total (w_children w) - Z.of_nat (length (reported (log k)))
                   + Z.of_nat (length (reported (log k))
                               + length (reported more)))
            with (total (w_children w) + Z.of_nat (length (reported more)))
            by lia; exact Ps|].
  split; [rewrite Pr; exact Hr|].
  split; [rewrite Pa, Pt; exact Hb|].
  intros c' cp' k'' Hcp' Hk''. rewrite Pl.
  destruct (decide (c' = c)) as [->|Hneq].
  - rewrite list_lookup_insert_eq in Hk'' by (eapply lookup_lt_Some; exact Hc).
    inversion Hk''; subst k''. rewrite Hcp in Hcp'. inversion Hcp'; subst cp'.
    split; [exact Ki'|]. split; [exact Kc'|].
    split; [apply step_run; exact Kr | exact Hacts].
  - rewrite list_lookup_insert_ne in Hk'' by congruence.
    apply (Hk c' cp' k''); assumption.
Qed.


Lemma reports_log (calls : list nat) (s : state) :
  log (fold_left (fun p _ => child_reported p) calls s) = log s.
Proof.
  revert s. induction calls as [|a calls IH]; intros s; [reflexivity|].
  simpl. rewrite IH. reflexivity.
Qed.

Lemma at_child_frame (c : nat) (ev : event) (w : world) :
  log (w_parent (at_child sc pp cps c ev w)) = log (w_parent w) /\
  forall c', c' <> c ->
    w_children (at_child sc pp cps c ev w) !! c' = w_children w !! c'.
Proof.
  unfold at_child.
  destruct (w_children w !! c) as [k|]; [|tauto].
  destruct (cps !! c) as [cp|]; [|tauto]. simpl.
  split; [apply reports_log|].
  intros c' Hc'. apply list_lookup_insert_ne. congruence.
Qed.

Lemma notify_acts (cp : Props) (v : option bool) (k : state) :
  acts k = [] -> (length (acts (step sc cp true (Notify v) k)) <= 1)%nat.
Proof.
  intros H. simpl.
  destruct (execute_budget sc cp true v k second_or_runes) as [Hb _].
  rewrite H in Hb. exact Hb.
Qed.

(** The store tells the children [v]: what every call of [execute] of
    a child keeps is kept by the round. *)
Lemma broadcast_fold (E : world -> Prop) (h : nat) (v : option bool)
    (l : list nat) (w : world) :
  (forall c w k cp, tidy sc pp cps h w -> E w ->
     w_children w !! c = Some k -> cps !! c = Some cp ->
     (length (acts (step sc cp true (Notify v) k))
      <= length (told (log (w_parent w))))%nat ->
     E (at_child sc pp cps c (Notify v) w)) ->
  List.NoDup l -> tidy sc pp cps h w -> E w ->
  told (log (w_parent w)) <> [] ->
  (forall c k, In c l -> w_children w !! c = Some k -> acts k = []) ->
  let w' := fold_left (fun w c => at_child sc pp cps c (Notify v) w) l w in
  tidy sc pp cps h w' /\ E w'.
Proof.
  intros HE. revert w.
  induction l as [|c l IH]; intros w Hnd Ht He Hne Hq; [split; assumption|].
  simpl. inversion Hnd as [|? ? Hnin Hnd']; subst.
  destruct (at_child_frame c (Notify v) w) as [Hlog Hoth].
  assert (Hstep : tidy sc pp cps h (at_child sc pp cps c (Notify v) w) /\
                  E (at_child sc pp cps c (Notify v) w)).
  { destruct (w_children w !! c) as [k|] eqn:Hk;
      [|unfold at_child; rewrite Hk; split; assumption].
    destruct (cps !! c) as [cp|] eqn:Hcp;
      [|unfold at_child; rewrite Hk, Hcp; split; assumption].
    assert (Hb : (length (acts (step sc cp true (Notify v) k))
                  <= length (told (log (w_parent w))))%nat).
    { eapply Nat.le_trans;
        [exact (notify_acts cp v k (Hq c k (or_introl eq_refl) Hk))|].
      destruct (told (log (w_parent w))); [congruence | simpl; lia]. }
    split; [apply (at_child_tidy h c (Notify v) w k cp Ht Hk Hcp Hb)|].
    apply (HE c w k cp); assumption. }
  destruct Hstep as [Ht' He'].
  apply IH; [exact Hnd' | exact Ht' | exact He' | rewrite Hlog; exact Hne |].
  intros c' k' Hin Hk'. rewrite Hoth in Hk' by (intros ->; contradiction).
  apply (Hq c' k'); [right; exact Hin | exact Hk'].
Qed.

Lemma single_told (n count : Z) (s : state) :
  single n count s -> (length (told (log s)) <= 1)%nat.
Proof.
  intros (_ & _ & Hsh).
  destruct (acts s) as [|x [|]]; [destruct Hsh as (_ & _ & ->); simpl; lia | |
                                  destruct Hsh].
  destruct Hsh as [_ [(_ & _ & _ & ->)|(_ & gt & _ & _ & _ & _ & H & _)]];
    [simpl; lia | exact H].
Qed.

Lemma transitionend_budget (s : state) :
  length (acts (transitionend s)) = length (acts s) /\
  thens (transitionend s) = thens s.
Proof.
  apply (transitionend_keeps
           (fun t => length (acts t) = length (acts s) /\ thens t = thens s)).
  - intros f t H. exact H.
  - intros a t [H1 H2]. simpl. rewrite length_alter. tauto.
  - tauto.
Qed.

(** One event of the parent, while the host has updated it once at
    most. *)
Lemma parent_node (n count : Z) (h h' : nat) (ev : event) (s : state) :
  n <> 0 -> inv sc pp s -> single n count s ->
  (length (acts s) + length (thens s) <= h)%nat -> (h <= 1)%nat ->
  (of_parent ev = true /\ h' = h) \/
  (exists v, ev = Update v /\ h = 0%nat /\ h' = 1%nat) ->
  single n count (step sc pp false ev s) /\
  (length (acts (step sc pp false ev s))
   + length (thens (step sc pp false ev s)) <= h')%nat.
Proof.
  intros Hn Hi Hs Hb Hh [[Hev ->]|(v & -> & -> & ->)].
  - destruct ev; try discriminate Hev; simpl.
    + unfold run_then. destruct (thens s !! k) as [[p show]|] eqn:Hk; [|tauto].
      case_match; [|tauto].
      pose proof (lookup_lt_Some _ _ _ Hk) as Hlt.
      assert (Ha : acts s = []) by (destruct (acts s); [reflexivity | simpl in Hb; lia]).
      destruct (execute_budget sc pp false show (st_thens (delete k) s)
                  second_or_runes) as [B1 B2].
      split.
      * apply single_execute; assumption.
      * rewrite B2. simpl in B1 |- *. rewrite Ha in B1. simpl in B1.
        rewrite length_delete by (eexists; exact Hk). lia.
    + destruct (resume_budget (p_unmount pp) false a s) as (B1 & B2 & _).
      rewrite B1, B2.
      split; [apply (single_resumed sc); assumption | exact Hb].
    + unfold frame. repeat case_match; try tauto.
      split; [apply single_on_act; [intros y; repeat split | exact Hs]|].
      simpl. rewrite length_alter. exact Hb.
    + destruct (transitionend_budget s) as [B1 B2]. rewrite B1, B2.
      split; [apply single_transitionend; exact Hs | exact Hb].
  - assert (Ha : acts s = []) by (destruct (acts s); [reflexivity | simpl in Hb; lia]).
    assert (Ht : thens s = []) by (destruct (thens s); [reflexivity | simpl in Hb; lia]).
    destruct sc; [congruence| |]; simpl.
    + destruct (execute_budget SecondScript pp false v s second_or_runes)
        as [B1 B2].
      split; [apply (single_execute SecondScript); assumption|].
      simpl in B1, B2. unfold Slots.update. rewrite B2, Ht, Ha in *.
      simpl in *. lia.
    + unfold Runes.update. split.
      * eapply single_ext; [| | | |exact Hs]; reflexivity.
      * simpl. rewrite Ha, Ht. simpl. lia.
Qed.

Lemma children_counted : Z.of_nat (length cps) <> 0.
Proof. destruct cps; [congruence | simpl; lia]. Qed.

(** The parent alone: what its event leaves before the store has
    reached the children. *)
Lemma at_parent_own (h h' : nat) (ev : event) (w : world) :
  tidy sc pp cps h w -> (h <= 1)%nat ->
  (of_parent ev = true /\ h' = h) \/
  (exists v, ev = Update v /\ h = 0%nat /\ h' = 1%nat) ->
  let p' := step sc pp false ev (w_parent w) in
  let w1 := {| w_parent := p'; w_children := w_children w;
               w_promises := w_promises w |} in
  let news := told (drop (length (log (w_parent w))) (log p')) in
  tidy sc pp cps h' w1 /\
  (news = [] \/
   exists v, news = [v] /\ told (log p') <> [] /\
     forall c k, w_children w !! c = Some k -> acts k = []).
Proof.
  intros (Hlen & Hi & Hs & Hr & Hb & Hk) Hh Hev. cbv zeta.
  destruct (parent_node _ _ h h' ev _ children_counted Hi Hs Hb Hh Hev)
    as [Hs' Hb'].
  destruct (step_log sc pp false ev _ Hi) as (more & Hm).
  pose proof (step_inv sc pp false ev _ Hi) as Hi'.
  pose proof (step_run sc pp false ev _ Hr) as Hr'.
  remember (step sc pp false ev (w_parent w)) as p' eqn:Hp'.
  rewrite Hm, drop_app_length.
  assert (Ht : told (log p') = told (log (w_parent w)) ++ told more)
    by (rewrite Hm; apply told_app).
  pose proof (single_told _ _ _ Hs') as Hone. rewrite Ht, length_app in Hone.
  split.
  { unfold tidy. simpl. split; [exact Hlen|].
    split; [exact Hi'|]. split; [exact Hs'|].
    split; [exact Hr'|]. split; [exact Hb'|].
    intros c cp k Hcp Hc. destruct (Hk c cp k Hcp Hc) as (K1 & K2 & K3 & K4).
    split; [exact K1|]. split; [exact K2|]. split; [exact K3|].
    rewrite Ht, length_app. lia. }
  destruct (told more) as [|v [|v' news]] eqn:Hnews;
    [left; reflexivity | | simpl in Hone; lia].
  right. exists v. split; [reflexivity|]. split.
  - rewrite <- Hm, Ht. destruct (told (log (w_parent w))); discriminate.
  - intros c k Hc. destruct (cps !! c) as [cp|] eqn:Hcp.
    + destruct (Hk c cp k Hcp Hc) as (_ & _ & _ & K4). simpl in Hone.
      destruct (acts k); [reflexivity | simpl in K4; lia].
    + apply lookup_lt_Some in Hc. apply lookup_ge_None in Hcp. lia.
Qed.

Lemma at_parent_tidy (h h' : nat) (ev : event) (w : world) :
  tidy sc pp cps h w -> (h <= 1)%nat ->
  (of_parent ev = true /\ h' = h) \/
  (exists v, ev = Update v /\ h = 0%nat /\ h' = 1%nat) ->
  tidy sc pp cps h' (at_parent sc pp cps ev w).
Proof.
  intros Ht Hh Hev. unfold at_parent. rewrite has_parent_none.
  destruct (at_parent_own h h' ev w Ht Hh Hev) as [Hw1 [->|(v & -> & Hne & Hq)]];
    [exact Hw1|].
  simpl. unfold broadcast.
  apply (broadcast_fold (fun _ => True));
    [tauto | apply NoDup_ListNoDup, NoDup_seq | exact Hw1 | exact I
    | exact Hne | intros c k _; apply Hq].
Qed.

Lemma wstep_tidy (h : nat) (e : wevent) (w : world) :
  tidy sc pp cps h w -> (h + hosts [e] <= 1)%nat ->
  tidy sc pp cps (h + hosts [e]) (wstep sc pp cps e w).
Proof.
  intros Ht Hh. destruct e as [v|ev|c ev|c a]; unfold hosts in *; simpl in *.
  - apply (at_parent_tidy h); [exact Ht | lia|].
    right. exists v. repeat split; lia.
  - rewrite Nat.add_0_r in *. destruct (of_parent ev) eqn:Hev; [|exact Ht].
    apply (at_parent_tidy h); [exact Ht | exact Hh | left; tauto].
  - rewrite Nat.add_0_r in *. destruct (of_child ev) eqn:Hev; [|exact Ht].
    destruct (w_children w !! c) as [k|] eqn:Hk;
      [|unfold at_child; rewrite Hk; exact Ht].
    destruct (cps !! c) as [cp|] eqn:Hcp;
      [|unfold at_child; rewrite Hk, Hcp; exact Ht].
    apply (at_child_tidy h c ev w k cp Ht Hk Hcp).
    rewrite child_acts by (left; exact Hev).
    destruct Ht as (_ & _ & _ & _ & _ & Hq). apply (Hq c cp k Hcp Hk).
  - rewrite Nat.add_0_r in *.
    destruct (awaited c a w); [|exact Ht].
    destruct (w_children w !! c) as [k|] eqn:Hk;
      [|unfold at_child; rewrite Hk; exact Ht].
    destruct (cps !! c) as [cp|] eqn:Hcp;
      [|unfold at_child; rewrite Hk, Hcp; exact Ht].
    apply (at_child_tidy h c (ParentSettled a) w k cp Ht Hk Hcp).
    rewrite child_acts by (right; eexists; reflexivity).
    destruct Ht as (_ & _ & _ & _ & _ & Hq). apply (Hq c cp k Hcp Hk).
Qed.

Lemma hosts_cons (e : wevent) (es : list wevent) :
  hosts (e :: es) = (hosts [e] + hosts es)%nat.
Proof. unfold hosts. simpl. destruct (is_host e); reflexivity. Qed.

Lemma wsteps_tidy (es : list wevent) (h : nat) (w : world) :
  tidy sc pp cps h w -> (h + hosts es <= 1)%nat ->
  tidy sc pp cps (h + hosts es) (wsteps sc pp cps es w).
Proof.
  revert h w. induction es as [|e es IH]; intros h w Ht Hh.
  - unfold hosts. simpl. rewrite Nat.add_0_r. exact Ht.
  - rewrite hosts_cons in *. simpl. rewrite Nat.add_assoc.
    apply IH; [apply wstep_tidy; [exact Ht | lia] | lia].
Qed.

Lemma transition_still (ps : Props) (ancestor : option (bool * option bool))
    (kids : Z) :
  effective_appear sc ps ancestor = false ->
  let s := transition sc ps ancestor kids in
  acts s = [] /\ thens s = [] /\ gates s = [] /\ log s = [] /\
  c_count (context s) = kids /\ c_completed (context s) = Default /\
  run s = true.
Proof.
  unfold effective_appear. intros H.
  destruct sc; [congruence| |]; simpl;
    unfold Slots.transition, Runes.transition, Slots.execute, Runes.execute;
    destruct (find_parent ps ancestor) as [[pa v]|]; simpl; rewrite H; simpl;
    repeat split.
Qed.

Hypothesis parent_still : p_appear pp = false.
Hypothesis children_still :
  forall c cp, cps !! c = Some cp -> p_appear cp = false.

Lemma all_subscribed :
  length (List.filter (fun cp => has_parent cp (above pp)) cps) = length cps.
Proof.
  assert (H : forall cp, In cp cps -> has_parent cp (above pp) = true).
  { intros cp Hin. apply list_elem_of_In, list_elem_of_lookup in Hin.
    destruct Hin as (c & Hc). apply (child_has_parent c). exact Hc. }
  clear -H. induction cps as [|cp l IH]; [reflexivity|]. simpl.
  rewrite (H cp (or_introl eq_refl)). simpl. f_equal.
  apply IH. intros cp' Hin. apply H. right. exact Hin.
Qed.

Lemma total_none (ks : list state) :
  (forall c k, ks !! c = Some k -> log k = []) -> total ks = 0.
Proof.
  induction ks as [|k ks IH]; intros H; [reflexivity|]. simpl.
  rewrite (H 0%nat k eq_refl), IH; [reflexivity|].
  intros c k' Hk'. apply (H (S c)). exact Hk'.
Qed.

Lemma family_tidy : tidy sc pp cps 0 (family sc pp cps).
Proof.
  assert (Hp : effective_appear sc pp None = false).
  { unfold effective_appear, find_parent.
    destruct sc, (p_show pp); exact parent_still. }
  assert (Hc : forall c cp, cps !! c = Some cp ->
                 effective_appear sc cp (above pp) = false).
  { intros c cp H. unfold effective_appear, find_parent, above.
    rewrite (subscribed c cp H).
    destruct sc; [exact (children_still c cp H) | exact (children_still c cp H) |
                  exact parent_still]. }
  unfold family, tidy. simpl. rewrite all_subscribed.
  destruct (transition_still pp None (Z.of_nat (length cps)) Hp)
    as (P1 & P2 & P3 & P4 & P5 & P6 & P7).
  assert (Hkid : forall c cp k, cps !! c = Some cp ->
            map (fun cp => transition sc cp (above pp) 0) cps !! c = Some k ->
            k = transition sc cp (above pp) 0).
  { intros c cp k Hcp Hk. rewrite list_lookup_fmap, Hcp in Hk.
    inversion Hk. reflexivity. }
  split; [apply length_map|]. split; [apply transition_inv|].
  split.
  { unfold single, gate_count. rewrite P1, P3, P4, P5, P6.
    split; [reflexivity|]. split; [|repeat split].
    symmetry. apply total_none. intros c k Hk.
    destruct (cps !! c) as [cp|] eqn:Hcp.
    - rewrite (Hkid c cp k Hcp Hk). apply (transition_still cp). eapply Hc, Hcp.
    - rewrite list_lookup_fmap, Hcp in Hk. discriminate Hk. }
  split; [exact P7|]. split; [rewrite P1, P2; simpl; lia|].
  intros c cp k Hcp Hk. rewrite (Hkid c cp k Hcp Hk).
  destruct (transition_still cp (above pp) 0 (Hc c cp Hcp))
    as (K1 & K2 & K3 & K4 & K5 & K6 & K7).
  split; [apply transition_inv|].
  split; [unfold counted; rewrite K4; simpl; lia|].
  split; [exact K7 | rewrite K1; simpl; lia].
Qed.

Lemma reporter_past_joint_wait (cp : Props) (k : state) (b : nat)
    (y : activation) :
  inv sc cp k -> acts k !! b = Some y -> is_reporter y = true ->
  In AwaitAll (a_done y) /\ a_transitioned y = Some true.
Proof.
  intros Hi Hy Hr. pose proof (Hi b y Hy) as Hf.
  destruct Hf as (Hpre & Hcl & Hj).
  apply existsb_await in Hr.
  assert (He : earlier AwaitAll AwaitParent (program sc (a_show y)) = true)
    by (destruct sc; [congruence| |]; destruct (a_show y); reflexivity).
  assert (Hin : In AwaitAll (a_done y)).
  { rewrite <- Hpre, app_assoc in He. apply earlier_spec in He; [|exact Hr].
    apply in_app_or in He. destruct He as [He|He]; [exact He|].
    unfold wait_list in He, Hr, Hpre.
    destruct (a_wait y) as [i|]; [|destruct He].
    destruct He as [->|[]].
    apply in_app_or in Hr. destruct Hr as [Hr|[Hr|[]]]; [|discriminate Hr].
    assert (E : earlier AwaitAll AwaitParent (program sc (a_show y)) = true)
      by (destruct sc; [congruence| |]; destruct (a_show y); reflexivity).
    rewrite <- Hpre in E. apply earlier_spec in E; assumption. }
  split; [exact Hin|]. apply (Hj AwaitAll Hin). reflexivity.
Qed.

Lemma patient_impl (D D' : Prop) (k : state) :
  (D -> D') -> patient D k -> patient D' k.
Proof. intros H Hp b y Hy Hq. apply H, (Hp b y Hy Hq). Qed.

Lemma parent_done_ext (p p' : state) :
  acts p' = acts p -> parent_done p -> parent_done p'.
Proof. unfold parent_done. intros ->. tauto. Qed.

Lemma at_child_orderly (h c : nat) (ev : event) (w : world) (k : state)
    (cp : Props) :
  tidy sc pp cps h w -> orderly w ->
  w_children w !! c = Some k -> cps !! c = Some cp ->
  (length (acts (step sc cp true ev k))
   <= length (told (log (w_parent w))))%nat ->
  (forall a, ev <> ParentSettled a) \/ parent_done (w_parent w) ->
  orderly (at_child sc pp cps c ev w).
Proof.
  intros (Hlen & Hi & Hs & Hr & Hb & Hk) (Sa & Sh & Sp) Hc Hcp Hacts Hev.
  unfold at_child. rewrite Hc, Hcp, (child_has_parent c cp Hcp).
  destruct (Hk c cp k Hcp Hc) as (Ki & Kc & Kr & Ka).
  destruct (step_log sc cp true ev k Ki) as (more & Hm).
  assert (Kc' : counted (step sc cp true ev k)).
  { apply (kept_steps sc cp true counted [ev]);
      [apply counted_kept | exact Ki | exact Kc]. }
  assert (Hg : (forall a, ev <> ParentSettled a) ->
               grown true k (step sc cp true ev k))
    by (intros H; apply grown_step; assumption).
  remember (step sc cp true ev k) as k' eqn:Hk'.
  rewrite Hm, drop_app_length.
  assert (Hne : reported more <> [] -> told (log (w_parent w)) <> []).
  { intros Hcalls Ht. rewrite Ht in Hacts. simpl in Hacts.
    pose proof (reporters_length k'). unfold counted in Kc'.
    rewrite Hm, reported_app, length_app in Kc'.
    destruct (reported more); [congruence|]. simpl in Kc'. lia. }
  unfold orderly. simpl. split; [|split].
  - intros c' a' f Hin. apply in_app_or in Hin. destruct Hin as [Hin|Hin].
    + apply (Sa c' a' f Hin).
    + apply in_map_iff in Hin. destruct Hin as (a0 & E & Hin).
      inversion E; subst. apply (single_closure _ _ _ Hs). apply Hne.
      intros E'. rewrite E' in Hin. destruct Hin.
  - unfold honest. rewrite reports_acts. exact Sh.
  - intros c' k'' Hk''.
    assert (Hd : parent_done (w_parent w) ->
                 parent_done (fold_left (fun p _ => child_reported p)
                                (reported more) (w_parent w)))
      by (apply parent_done_ext, reports_acts).
    destruct (decide (c' = c)) as [->|Hneq].
    + rewrite list_lookup_insert_eq in Hk''
        by (eapply lookup_lt_Some; exact Hc).
      inversion Hk''; subst k''.
      destruct Hev as [Hev|Hev].
      * apply (patient_impl _ _ _ Hd). eapply grown_patient; [apply Hg, Hev|].
        apply (Sp c k Hc).
      * intros b y _ _. apply Hd, Hev.
    + rewrite list_lookup_insert_ne in Hk'' by congruence.
      apply (patient_impl _ _ _ Hd). apply (Sp c' k'' Hk'').
Qed.

Lemma awaited_done (h c a : nat) (w : world) :
  tidy sc pp cps h w -> orderly w -> awaited c a w = true ->
  parent_done (w_parent w).
Proof.
  intros (_ & _ & Hs & _) (Sa & Sh & _) Ha.
  unfold awaited in Ha. apply existsb_exists in Ha.
  destruct Ha as ([[c' a'] f] & Hin & Hf).
  apply andb_prop in Hf. destruct Hf as [_ Hf].
  rewrite (Sa c' a' f Hin) in Hf. unfold promise_resolved in Hf.
  destruct (gates (w_parent w) !! 0%nat) as [gt|]; [|discriminate Hf].
  destruct (acts (w_parent w) !! g_owner gt) as [x|] eqn:Hx; [|discriminate Hf].
  pose proof (Sh _ x Hx Hf) as Hin'.
  destruct Hs as (_ & _ & Hsh). unfold parent_done.
  destruct (acts (w_parent w)) as [|x0 [|]]; [discriminate Hx | | destruct Hsh].
  apply lookup_single in Hx. destruct Hx as [_ ->].
  exists x0. split; [reflexivity | exact Hin'].
Qed.

Lemma at_parent_orderly (h h' : nat) (ev : event) (w : world) :
  tidy sc pp cps h w -> orderly w -> (h <= 1)%nat ->
  (of_parent ev = true /\ h' = h) \/
  (exists v, ev = Update v /\ h = 0%nat /\ h' = 1%nat) ->
  orderly (at_parent sc pp cps ev w).
Proof.
  intros Ht (Sa & Sh & Sp) Hh Hev. unfold at_parent. rewrite has_parent_none.
  assert (Hg : grown false (w_parent w) (step sc pp false ev (w_parent w))).
  { apply grown_step; [|apply Ht].
    intros a ->. destruct Hev as [[Hev _]|(v & Hev & _)]; discriminate Hev. }
  assert (Hs1 : orderly {| w_parent := step sc pp false ev (w_parent w);
                           w_children := w_children w;
                           w_promises := w_promises w |}).
  { split; [exact Sa|]. split; [eapply grown_honest; eassumption|].
    intros c k Hk. simpl in *.
    eapply patient_impl; [apply (grown_done false), Hg | apply (Sp c k Hk)]. }
  destruct (at_parent_own h h' ev w Ht Hh Hev) as [Hw1 [->|(v & -> & Hne & Hq)]];
    [exact Hs1|].
  simpl. unfold broadcast.
  apply (broadcast_fold orderly h');
    [ | apply NoDup_ListNoDup, NoDup_seq | exact Hw1 | exact Hs1
    | exact Hne | intros c k _; apply Hq].
  intros c w0 k cp Ht0 Hs0 Hk Hcp Hb.
  apply (at_child_orderly h' c (Notify v) w0 k cp); try assumption.
  left. discriminate.
Qed.

Lemma wstep_orderly (h : nat) (e : wevent) (w : world) :
  tidy sc pp cps h w -> orderly w -> (h + hosts [e] <= 1)%nat ->
  orderly (wstep sc pp cps e w).
Proof.
  intros Ht Hs Hh. destruct e as [v|ev|c ev|c a]; unfold hosts in *; simpl in *.
  - apply (at_parent_orderly h 1); [exact Ht | exact Hs | lia|].
    right. exists v. repeat split; lia.
  - destruct (of_parent ev) eqn:Hev; [|exact Hs].
    apply (at_parent_orderly h h); [exact Ht | exact Hs | lia | left; tauto].
  - destruct (of_child ev) eqn:Hev; [|exact Hs].
    destruct (w_children w !! c) as [k|] eqn:Hk;
      [|unfold at_child; rewrite Hk; exact Hs].
    destruct (cps !! c) as [cp|] eqn:Hcp;
      [|unfold at_child; rewrite Hk, Hcp; exact Hs].
    apply (at_child_orderly h c ev w k cp Ht Hs Hk Hcp).
    + rewrite child_acts by (left; exact Hev).
      destruct Ht as (_ & _ & _ & _ & _ & Hq). apply (Hq c cp k Hcp Hk).
    + left. intros a ->. discriminate Hev.
  - destruct (awaited c a w) eqn:Ha; [|exact Hs].
    destruct (w_children w !! c) as [k|] eqn:Hk;
      [|unfold at_child; rewrite Hk; exact Hs].
    destruct (cps !! c) as [cp|] eqn:Hcp;
      [|unfold at_child; rewrite Hk, Hcp; exact Hs].
    apply (at_child_orderly h c (ParentSettled a) w k cp Ht Hs Hk Hcp).
    + rewrite child_acts by (right; eexists; reflexivity).
      destruct Ht as (_ & _ & _ & _ & _ & Hq). apply (Hq c cp k Hcp Hk).
    + right. apply (awaited_done h c a); assumption.
Qed.

Lemma wsteps_orderly (es : list wevent) (h : nat) (w : world) :
  tidy sc pp cps h w -> orderly w -> (h + hosts es <= 1)%nat ->
  orderly (wsteps sc pp cps es w).
Proof.
  revert h w. induction es as [|e es IH]; intros h w Ht Hs Hh; [exact Hs|].
  rewrite hosts_cons in Hh. simpl.
  apply (IH (h + hosts [e])%nat);
    [apply wstep_tidy; [exact Ht | lia]
    | apply (wstep_orderly h); [exact Ht | exact Hs | lia] | lia].
Qed.

Lemma family_orderly : orderly (family sc pp cps).
Proof.
  destruct family_tidy as (_ & _ & _ & _ & Hb & Hk).
  split; [intros c a f []|]. split.
  - intros a x Hx. destruct (acts (w_parent (family sc pp cps)));
      [discriminate Hx | simpl in Hb; lia].
  - intros c k Hc b y Hy.
    assert (Hcp : exists cp, cps !! c = Some cp).
    { apply lookup_lt_is_Some. apply lookup_lt_Some in Hc.
      unfold family in Hc. simpl in Hc. rewrite length_map in Hc. exact Hc. }
    destruct Hcp as (cp & Hcp).
    destruct (Hk c cp k Hcp Hc) as (_ & _ & _ & Ha).
    destruct (acts k); [discriminate Hy|].
    unfold family in Ha. simpl in Ha.
    destruct (transition_still pp None
                (Z.of_nat (length (List.filter
                                     (fun cp => has_parent cp (above pp)) cps))))
      as (_ & _ & _ & Hl & _).
    { unfold effective_appear, find_parent.
      destruct sc, (p_show pp); exact parent_still. }
    rewrite Hl in Ha. simpl in Ha. lia.
Qed.

End Family.

(** A parent that keeps its content mounted, with the child transitions
    in it (second script and script with runes, nobody with [appear]),
    the host changing [show] of the parent once at most, under every
    order of the microtasks, frames and transitionend events of the
    parent and of the children: when the activation of the parent has
    left its joint wait, every child has an activation that has called
    [parent.completed()], has left its own joint wait before, and has
    seen its own transition end. *)
Theorem parent_waits_for_every_child
    (sc : script) (pp : Props) (cps : list Props) (es : list wevent)
    (a c : nat) (x : activation) (k : state) :
  sc <> FirstScript -> cps <> [] ->
  p_appear pp = false -> p_unmount pp = false ->
  (forall c cp, cps !! c = Some cp -> p_show cp = None /\ p_appear cp = false) ->
  (hosts es <= 1)%nat ->
  let w := wsteps sc pp cps es (family sc pp cps) in
  acts (w_parent w) !! a = Some x -> In AwaitAll (a_done x) ->
  w_children w !! c = Some k ->
  exists b y, acts k !! b = Some y /\
    In AwaitParent (a_done y ++ wait_list y) /\
    In AwaitAll (a_done y) /\ a_transitioned y = Some true.
Proof.
  intros Hsc Hne Hpa _ Hkids Hh w Hx Hdone Hk.
  assert (Hsub : forall c cp, cps !! c = Some cp -> p_show cp = None)
    by (intros c' cp H; apply (Hkids c' cp H)).
  assert (Hstill : forall c cp, cps !! c = Some cp -> p_appear cp = false)
    by (intros c' cp H; apply (Hkids c' cp H)).
  assert (T : tidy sc pp cps (0 + hosts es) w).
  { apply wsteps_tidy; try assumption. apply family_tidy; assumption. }
  destruct T as (Hlen & Hi & Hs & _ & _ & Hq).
  pose proof (single_told _ _ _ Hs) as Hone.
  (* the gate of the parent is resolved, so its counter has reached n *)
  assert (Hfull : Z.of_nat (length (w_children w)) <= total (w_children w)).
  { destruct (Hi a x Hx) as (Hpre & _ & Hj).
    assert (Hcc : In ChildrenCompleted (a_done x)).
    { eapply (done_in_order sc pp); [exact (Hi a x Hx) | | exact Hdone].
      destruct sc; [congruence| |]; destruct (a_show x); reflexivity. }
    destruct (Hj AwaitAll Hdone) as [_ Hres]. specialize (Hres eq_refl).
    destruct Hs as (_ & Hgc & Hsh).
    destruct (acts (w_parent w)) as [|x0 [|]]; [discriminate Hx | | destruct Hsh].
    apply lookup_single in Hx. destruct Hx as [_ ->].
    destruct Hsh as [_ [(Hnot & _)|(_ & gt & Hg & _ & Hch & Hr & _)]];
      [contradiction|].
    rewrite Hch, Hg in Hres. simpl in Hres. specialize (Hr Hres).
    unfold gate_count in Hgc. rewrite Hg in Hgc. rewrite Hlen. lia. }
  assert (Hcp : exists cp, cps !! c = Some cp).
  { apply lookup_lt_is_Some. rewrite <- Hlen. eapply lookup_lt_Some, Hk. }
  destruct Hcp as (cp & Hcp).
  assert (Hle : forall c k, w_children w !! c = Some k ->
                  (length (reported (log k)) <= 1)%nat).
  { intros c' k' Hk'.
    assert (Hcp' : exists cp, cps !! c' = Some cp).
    { apply lookup_lt_is_Some. rewrite <- Hlen. eapply lookup_lt_Some, Hk'. }
    destruct Hcp' as (cp' & Hcp').
    destruct (Hq c' cp' k' Hcp' Hk') as (_ & Hc & _ & Ha).
    pose proof (reporters_length k'). unfold counted in Hc. lia. }
  pose proof (total_full _ Hle Hfull c k Hk) as Hone'.
  destruct (Hq c cp k Hcp Hk) as (Ki & Kc & _ & _).
  unfold counted in Kc. rewrite Hone' in Kc.
  destruct (reporters k) as [|y ys] eqn:Hrep; [simpl in Kc; lia|].
  assert (Hy : In y (reporters k)) by (rewrite Hrep; left; reflexivity).
  unfold reporters in Hy. apply List.filter_In in Hy. destruct Hy as [Hy Hr].
  apply list_elem_of_In, list_elem_of_lookup in Hy. destruct Hy as (b & Hb).
  exists b, y. split; [exact Hb|].
  split; [apply existsb_await; exact Hr|].
  apply (reporter_past_joint_wait sc Hsc cp k b y); assumption.
Qed.

Lemma parent_waits_for_every_child_witness :
  let pp := fade (Some false) false false in
  let cps := [fade None false false; fade None false false] in
  let w := wsteps SecondScript pp cps
             [Host (Some true); InParent (Resume 0); InParent (Frame 0);
              InParent (Resume 0); InParent TransitionEndEvent;
              InChild 0 (Resume 0); InChild 0 (Frame 0); InChild 0 (Resume 0);
              InChild 0 TransitionEndEvent; InChild 0 (Resume 0);
              InChild 1 (Resume 0); InChild 1 (Frame 0); InChild 1 (Resume 0);
              InChild 1 TransitionEndEvent; InChild 1 (Resume 0);
              InParent (Resume 0)]
             (family SecondScript pp cps) in
  (exists x, acts (w_parent w) !! 0%nat = Some x /\ In AwaitAll (a_done x)) /\
  exists k b y, w_children w !! 1%nat = Some k /\ acts k !! b = Some y /\
    a_transitioned y = Some true.
Proof.
  cbv zeta.
  set (pp := fade (Some false) false false).
  set (cps := [fade None false false; fade None false false]).
  set (es := [Host (Some true); InParent (Resume 0); InParent (Frame 0);
              InParent (Resume 0); InParent TransitionEndEvent;
              InChild 0 (Resume 0); InChild 0 (Frame 0); InChild 0 (Resume 0);
              InChild 0 TransitionEndEvent; InChild 0 (Resume 0);
              InChild 1 (Resume 0); InChild 1 (Frame 0); InChild 1 (Resume 0);
              InChild 1 TransitionEndEvent; InChild 1 (Resume 0);
              InParent (Resume 0)]).
  assert (Hx : exists x,
            acts (w_parent (wsteps SecondScript pp cps es
                              (family SecondScript pp cps))) !! 0%nat = Some x /\
            In AwaitAll (a_done x))
    by (vm_compute; eexists; split; [reflexivity|];
        repeat (first [left; reflexivity | right])).
  assert (Hk : exists k,
            w_children (wsteps SecondScript pp cps es
                          (family SecondScript pp cps)) !! 1%nat = Some k)
    by (vm_compute; eexists; reflexivity).
  split; [exact Hx|].
  destruct Hx as (x & Hx & Hin). destruct Hk as (k & Hk).
  assert (Hkids : forall c cp, cps !! c = Some cp ->
                    p_show cp = None /\ p_appear cp = false).
  { intros [|[|c]] cp H; inversion H; split; reflexivity. }
  assert (Hh : (hosts es <= 1)%nat) by (vm_compute; lia).
  destruct (parent_waits_for_every_child SecondScript pp cps es 0 1 x k
              ltac:(discriminate) ltac:(discriminate) eq_refl eq_refl
              Hkids Hh Hx Hin Hk) as (b & y & Hy & _ & _ & Ht).
  exists k, b, y. repeat split; assumption.
Defined.

(** In the same family: a child goes on after [await parent.completed()]
    only when the activation of the parent has called
    [resolveCompleted], which is the last statement of [apply]; so the
    child keeps its base and to classes until the parent has removed its
    own. *)
Theorem child_waits_for_parent
    (sc : script) (pp : Props) (cps : list Props) (es : list wevent)
    (c b : nat) (k : state) (y : activation) :
  sc <> FirstScript -> cps <> [] ->
  p_appear pp = false -> p_unmount pp = false ->
  (forall c cp, cps !! c = Some cp -> p_show cp = None /\ p_appear cp = false) ->
  (hosts es <= 1)%nat ->
  let w := wsteps sc pp cps es (family sc pp cps) in
  w_children w !! c = Some k -> acts k !! b = Some y ->
  In AwaitParent (a_done y) ->
  exists x, acts (w_parent w) !! 0%nat = Some x /\
    In ResolveCompleted (a_done x).
Proof.
  intros Hsc Hne Hpa _ Hkids Hh w Hk Hy Hin.
  assert (Hsub : forall c cp, cps !! c = Some cp -> p_show cp = None)
    by (intros c' cp H; apply (Hkids c' cp H)).
  assert (Hstill : forall c cp, cps !! c = Some cp -> p_appear cp = false)
    by (intros c' cp H; apply (Hkids c' cp H)).
  assert (S : orderly w).
  { apply (wsteps_orderly sc pp cps Hsc Hne Hsub es 0%nat);
      [apply family_tidy | apply family_orderly | exact Hh]; assumption. }
  destruct S as (_ & _ & Sp). apply (Sp c k Hk b y Hy). right. exact Hin.
Qed.

Lemma child_waits_for_parent_witness :
  let pp := fade (Some false) false false in
  let cps := [fade None false false; fade None false false] in
  let w := wsteps RunesScript pp cps
             [Host (Some true); InParent (Then 0); InParent (Resume 0);
              InParent (Frame 0); InParent (Resume 0);
              InParent TransitionEndEvent;
              InChild 0 (Resume 0); InChild 0 (Frame 0); InChild 0 (Resume 0);
              InChild 0 TransitionEndEvent; InChild 0 (Resume 0);
              InChild 1 (Resume 0); InChild 1 (Frame 0); InChild 1 (Resume 0);
              InChild 1 TransitionEndEvent; InChild 1 (Resume 0);
              InParent (Resume 0); Settled 1 0; InChild 1 (Resume 0)]
             (family RunesScript pp cps) in
  (exists k y, w_children w !! 1%nat = Some k /\ acts k !! 0%nat = Some y /\
     In AwaitParent (a_done y)) /\
  exists x, acts (w_parent w) !! 0%nat = Some x /\
    In ResolveCompleted (a_done x).
Proof.
  cbv zeta.
  set (pp := fade (Some false) false false).
  set (cps := [fade None false false; fade None false false]).
  set (es := [Host (Some true); InParent (Then 0); InParent (Resume 0);
              InParent (Frame 0); InParent (Resume 0);
              InParent TransitionEndEvent;
              InChild 0 (Resume 0); InChild 0 (Frame 0); InChild 0 (Resume 0);
              InChild 0 TransitionEndEvent; InChild 0 (Resume 0);
              InChild 1 (Resume 0); InChild 1 (Frame 0); InChild 1 (Resume 0);
              InChild 1 TransitionEndEvent; InChild 1 (Resume 0);
              InParent (Resume 0); Settled 1 0; InChild 1 (Resume 0)]).
  assert (Hk : exists k y,
            w_children (wsteps RunesScript pp cps es
                          (family RunesScript pp cps)) !! 1%nat = Some k /\
            acts k !! 0%nat = Some y /\ In AwaitParent (a_done y))
    by (vm_compute; eexists; eexists; split; [reflexivity|];
        split; [reflexivity|]; repeat (first [left; reflexivity | right])).
  split; [exact Hk|].
  destruct Hk as (k & y & Hk & Hy & Hin).
  assert (Hkids : forall c cp, cps !! c = Some cp ->
                    p_show cp = None /\ p_appear cp = false).
  { intros [|[|c]] cp H; inversion H; split; reflexivity. }
  assert (Hh : (hosts es <= 1)%nat) by (vm_compute; lia).
  exact (child_waits_for_parent RunesScript pp cps es 1 0 k y
           ltac:(discriminate) ltac:(discriminate) eq_refl eq_refl
           Hkids Hh Hk Hy Hin).
Defined.
